(** * A shallow embedding of [allocator.c]

    The allocator keeps one global singly linked list of block headers
    ([struct mem_block]) threaded through every region it obtained from
    [mmap].  This file embeds the routines of [allocator.c] as functions
    over an explicit program state and proves properties of them.

    Modelling choices.
    - [size_t] values and addresses are integers in [0, 2^64); every
      arithmetic operation of the source is written with its wrap-around
      ([wrap]).
    - Memory is a store from addresses to headers ([heap]).  Reading a
      header through the null pointer, or at an address that holds no
      header, is the outcome [Fault] (the C program has undefined
      behaviour there; in practice it crashes).
    - Loops over the list take a [fuel] bound; [Timeout] is the outcome
      of a loop that did not finish within it.
    - Calls into the operating system and the C library that the
      allocator cannot observe the result of ([mmap], [munmap],
      [perror], [memset], [memcpy]) are recorded in a [trace]; what the
      operating system answers is read from an [env], as are the two
      environment variables and the page size.
    - The mutex of the public entries has no effect on a sequential
      run; the public entries are the [_unsafe] routines.
    - [LOG] (from [debug.h]) only writes to the diagnostic stream; it
      is left out.
    - [allocator.h] is not among the sources.  The size of the header
      is a parameter of the development; the fields of the header and
      the globals are the ones the code uses. *)

From Stdlib Require Import ZArith Lia String Ascii List.
From stdpp Require Import base gmap list fin_maps.

Open Scope Z_scope.

(** ** Machine integers *)

Definition two64 : Z := 18446744073709551616.

(** Arithmetic on [size_t] and on addresses is modulo [2^64]. *)
Definition wrap (x : Z) : Z := x mod two64.

Definition NULL : Z := 0.

(** ** The block header, [struct mem_block] *)

(** Modelled from the spec: the declaration of [struct mem_block] is in
    [allocator.h]; the record has the fields [allocator.c] reads and
    writes, with the meaning the data model of the specification gives
    them.  [size], [usage] and [region_size] are [size_t], [alloc_id]
    is printed as one, [region_start] and [next] are addresses, and
    [name] is the C string that starts at the [name] array. *)
Record mem_block : Type := MemBlock {
  alloc_id : Z;
  name : string;
  size : Z;
  usage : Z;
  region_start : Z;
  region_size : Z;
  next : Z
}.

Definition set_name (v : string) (b : mem_block) : mem_block :=
  MemBlock (alloc_id b) v (size b) (usage b) (region_start b) (region_size b) (next b).

Definition set_size (v : Z) (b : mem_block) : mem_block :=
  MemBlock (alloc_id b) (name b) v (usage b) (region_start b) (region_size b) (next b).

Definition set_usage (v : Z) (b : mem_block) : mem_block :=
  MemBlock (alloc_id b) (name b) (size b) v (region_start b) (region_size b) (next b).

Definition set_next (v : Z) (b : mem_block) : mem_block :=
  MemBlock (alloc_id b) (name b) (size b) (usage b) (region_start b) (region_size b) v.

(** ** Program state, environment and outcomes *)

Inductive event : Type :=
| EMmap (len : Z) (result : option Z)
| EMunmap (addr len : Z) (ok : bool)
| EPerror (what : string)
| EMemset (dst byte len : Z)
| EMemcpy (dst src len : Z).

Record state : Type := State {
  g_head : Z;
  g_allocations : Z;
  heap : gmap Z mem_block;
  trace : list event
}.

(** What one public call finds outside the allocator: the values of
    [getenv("ALLOCATOR_ALGORITHM")] and [getenv("ALLOCATOR_SCRIBBLE")],
    [getpagesize()], the answer [mmap] gives to a request of a given
    length ([None] is [MAP_FAILED]) and whether [munmap] succeeds.  No
    public call maps or unmaps more than once. *)
Record env : Type := Env {
  getenv_algorithm : option string;
  getenv_scribble : option string;
  getpagesize : Z;
  mmap_result : Z -> option Z;
  munmap_ok : bool
}.

Inductive res (A : Type) : Type :=
| Ok (a : A)
| Fault
| Timeout.

Arguments Ok {A} a.
Arguments Fault {A}.
Arguments Timeout {A}.

(** The state-and-outcome monad all routines live in. *)
Definition M (A : Type) : Type := state -> res (A * state).

Definition ret {A : Type} (a : A) : M A := fun s => Ok (a, s).

Definition bind {A B : Type} (m : M A) (k : A -> M B) : M B :=
  fun s =>
    match m s with
    | Ok (a, s') => k a s'
    | Fault => Fault
    | Timeout => Timeout
    end.

Definition timeout {A : Type} : M A := fun _ => Timeout.

Notation "'let*' x ':=' m 'in' k" := (bind m (fun x => k))
  (at level 10, x pattern, m at level 100, k at level 200).
Notation "m ';;' k" := (bind m (fun _ => k))
  (at level 100, k at level 200, right associativity).

(** [p->field] for reading: the header stored at [p]. *)
Definition load (p : Z) : M mem_block :=
  fun s =>
    if p =? NULL then Fault
    else match heap s !! p with
         | Some b => Ok (b, s)
         | None => Fault
         end.

(** Writing every field of the header at [p]. *)
Definition store (p : Z) (b : mem_block) : M unit :=
  fun s =>
    if p =? NULL then Fault
    else Ok (tt, State (g_head s) (g_allocations s) (<[p := b]> (heap s)) (trace s)).

(** [p->field = v] on an existing header. *)
Definition modify (p : Z) (f : mem_block -> mem_block) : M unit :=
  let* b := load p in store p (f b).

Definition get_head : M Z := fun s => Ok (g_head s, s).

Definition set_head (p : Z) : M unit :=
  fun s => Ok (tt, State p (g_allocations s) (heap s) (trace s)).

(** [g_allocations++]; the counter is taken to be 64 bits wide, like
    the [alloc_id] it is stored in and printed from. *)
Definition next_alloc_id : M Z :=
  fun s => Ok (g_allocations s,
               State (g_head s) (wrap (g_allocations s + 1)) (heap s) (trace s)).

Definition emit (e : event) : M unit :=
  fun s => Ok (tt, State (g_head s) (g_allocations s) (heap s) (trace s ++ [e])).

Definition in_range (lo len p : Z) : bool := (lo <=? p) && (p <? lo + len).

(** [mmap(NULL, len, ...)]: the environment decides the answer. *)
Definition mmap (e : env) (len : Z) : M (option Z) :=
  emit (EMmap len (mmap_result e len)) ;; ret (mmap_result e len).

(** [munmap(addr, len)]: on success the headers inside the range are
    gone from memory.  Returns whether the call succeeded. *)
Definition munmap (e : env) (addr len : Z) : M bool :=
  fun s =>
    let h := if munmap_ok e
             then filter (fun kv => negb (in_range addr len (fst kv)) = true) (heap s)
             else heap s in
    Ok (munmap_ok e,
        State (g_head s) (g_allocations s) h (trace s ++ [EMunmap addr len (munmap_ok e)])).

(** ** The routines of [allocator.c] *)

Section Allocator.

(** [sizeof(struct mem_block)]: the declaration is in [allocator.h]. *)
Variable hdr : Z.

(** [block + 1] as a byte address: the payload of a header. *)
Definition payload (block : Z) : Z := wrap (block + hdr).

(** [ptr] cast to a header pointer, minus one: the header of a payload. *)
Definition header_of (ptr : Z) : Z := wrap (ptr - hdr).

(** [if (size % 8 != 0) size = size + (8 - size % 8);] *)
Definition align8 (sz : Z) : Z :=
  if sz mod 8 =? 0 then sz else wrap (sz + (8 - sz mod 8)).

(** The test all three searches apply to a header:
    [current->size >= size + current->usage]. *)
Definition fits (sz : Z) (b : mem_block) : bool :=
  wrap (sz + usage b) <=? size b.

(** [current->size - current->usage], in [size_t]. *)
Definition slack (b : mem_block) : Z := wrap (size b - usage b).

Fixpoint first_fit_loop (fuel : nat) (sz current : Z) : M Z :=
  if current =? NULL then ret NULL
  else match fuel with
       | O => timeout
       | S fuel' =>
           let* b := load current in
           if fits sz b then ret current
           else first_fit_loop fuel' sz (next b)
       end.

Definition first_fit (fuel : nat) (sz : Z) : M Z :=
  let* current := get_head in
  if current =? NULL then ret NULL
  else first_fit_loop fuel sz current.

Fixpoint best_fit_loop (fuel : nat) (sz current best : Z) : M Z :=
  if current =? NULL then ret best
  else match fuel with
       | O => timeout
       | S fuel' =>
           let* b := load current in
           if fits sz b then
             if best =? NULL then best_fit_loop fuel' sz (next b) current
             else
               let* bb := load best in
               if slack b <? slack bb
               then best_fit_loop fuel' sz (next b) current
               else best_fit_loop fuel' sz (next b) best
           else best_fit_loop fuel' sz (next b) best
       end.

Definition best_fit (fuel : nat) (sz : Z) : M Z :=
  let* current := get_head in
  if current =? NULL then ret NULL
  else best_fit_loop fuel sz current NULL.

Fixpoint worst_fit_loop (fuel : nat) (sz current worst : Z) : M Z :=
  if current =? NULL then ret worst
  else match fuel with
       | O => timeout
       | S fuel' =>
           let* b := load current in
           if fits sz b then
             if worst =? NULL then worst_fit_loop fuel' sz (next b) current
             else
               let* wb := load worst in
               if slack wb <? slack b
               then worst_fit_loop fuel' sz (next b) current
               else worst_fit_loop fuel' sz (next b) worst
           else worst_fit_loop fuel' sz (next b) worst
       end.

Definition worst_fit (fuel : nat) (sz : Z) : M Z :=
  let* current := get_head in
  if current =? NULL then ret NULL
  else worst_fit_loop fuel sz current NULL.

Definition reuse (fuel : nat) (e : env) (sz : Z) : M Z :=
  let algo := match getenv_algorithm e with
              | None => "first_fit"%string
              | Some a => a
              end in
  if String.eqb algo "first_fit" then first_fit fuel sz
  else if String.eqb algo "best_fit" then best_fit fuel sz
  else if String.eqb algo "worst_fit" then worst_fit fuel sz
  else ret NULL.

(** [while (curr->next != NULL) curr = curr->next;] *)
Fixpoint find_tail (fuel : nat) (curr : Z) : M Z :=
  match fuel with
  | O => timeout
  | S fuel' =>
      let* b := load curr in
      if next b =? NULL then ret curr else find_tail fuel' (next b)
  end.

Definition expand_heap (fuel : nat) (e : env) (sz : Z) : M Z :=
  let page_sz := getpagesize e in
  let num_pages :=
    if sz mod page_sz =? 0 then sz / page_sz else wrap (sz / page_sz + 1) in
  let len := wrap (num_pages * page_sz) in
  let* mapped := mmap e len in
  match mapped with
  | None => emit (EPerror "mmap") ;; ret NULL
  | Some block =>
      let* id := next_alloc_id in
      store block (MemBlock id EmptyString len 0 block len NULL) ;;
      let* head := get_head in
      (if head =? NULL then set_head block
       else let* curr := find_tail fuel head in
            modify curr (set_next block)) ;;
      ret block
  end.

Definition malloc_unsafe (fuel : nat) (e : env) (sz : Z) : M Z :=
  let sz := align8 sz in
  let actual_size := wrap (sz + hdr) in
  let* found := reuse fuel e actual_size in
  let* allocated :=
    (if found =? NULL then expand_heap fuel e actual_size else ret found) in
  let* a := load allocated in
  let* allocated :=
    (if usage a =? 0 then
       modify allocated (set_usage actual_size) ;; ret allocated
     else
       let new := wrap (allocated + usage a) in
       let* id := next_alloc_id in
       store new (MemBlock id EmptyString (wrap (size a - usage a)) actual_size
                    (region_start a) (region_size a) (next a)) ;;
       modify allocated (fun b => set_next new (set_size (usage b) b)) ;;
       ret new) in
  (match getenv_scribble e with
   | Some v => if String.eqb v "1"
               then emit (EMemset (payload allocated) 170 sz)
               else ret tt
   | None => ret tt
   end) ;;
  ret (payload allocated).

Definition malloc (fuel : nat) (e : env) (sz : Z) : M Z :=
  malloc_unsafe fuel e sz.

(** [strcpy(block->name, name)] copies every byte of [name] and its
    terminator; the [name] field of the record holds what was written
    from the start of the field, whatever the capacity of the array. *)
Definition malloc_name_unsafe (fuel : nat) (e : env) (sz : Z) (nm : string) : M Z :=
  let* pointer := malloc_unsafe fuel e sz in
  let block := header_of pointer in
  modify block (set_name nm) ;;
  ret pointer.

Definition malloc_name (fuel : nat) (e : env) (sz : Z) (nm : string) : M Z :=
  malloc_name_unsafe fuel e sz nm.

(** The walk of [free_unsafe] over the region: the result is
    [(region_empty, current)] as the loop leaves them. *)
Fixpoint region_scan (fuel : nat) (region_head region_end current : Z) : M (bool * Z) :=
  if (current =? NULL) || negb (region_head <=? current) || negb (current <? region_end)
  then ret (true, current)
  else match fuel with
       | O => timeout
       | S fuel' =>
           let* b := load current in
           if usage b =? 0
           then region_scan fuel' region_head region_end (next b)
           else ret (false, current)
       end.

(** [while (current->next != NULL && current->next != region_head)] *)
Fixpoint find_pred (fuel : nat) (region_head current : Z) : M Z :=
  match fuel with
  | O => timeout
  | S fuel' =>
      let* b := load current in
      if (next b =? NULL) || (next b =? region_head) then ret current
      else find_pred fuel' region_head (next b)
  end.

Definition free_unsafe (fuel : nat) (e : env) (ptr : Z) : M unit :=
  if ptr =? NULL then ret tt
  else
    let current := header_of ptr in
    modify current (set_usage 0) ;;
    let* c := load current in
    let region_head := region_start c in
    let* rh := load region_head in
    let region_end := wrap (region_head + region_size rh) in
    let* scan := region_scan fuel region_head region_end region_head in
    let next_region := snd scan in
    if negb (fst scan) then ret tt
    else
      let* ok := munmap e region_head (region_size rh) in
      (if ok then ret tt else emit (EPerror "munmap")) ;;
      let* head := get_head in
      if head =? region_head then set_head next_region
      else
        let* current := find_pred fuel region_head head in
        let* cb := load current in
        if next cb =? NULL then ret tt
        else modify current (set_next next_region).

Definition free (fuel : nat) (e : env) (ptr : Z) : M unit :=
  if ptr =? NULL then ret tt else free_unsafe fuel e ptr.

Definition calloc (fuel : nat) (e : env) (nmemb sz : Z) : M Z :=
  let* result := malloc_unsafe fuel e (wrap (nmemb * sz)) in
  emit (EMemset result 0 (wrap (nmemb * sz))) ;;
  ret result.

Definition realloc_unsafe (fuel : nat) (e : env) (ptr sz : Z) : M Z :=
  if ptr =? NULL then malloc_unsafe fuel e sz
  else if sz =? 0 then free_unsafe fuel e ptr ;; ret NULL
  else
    let sz := align8 sz in
    let actual_size := wrap (sz + hdr) in
    let current := header_of ptr in
    let* c := load current in
    if actual_size <=? size c then
      modify current (set_usage actual_size) ;; ret ptr
    else
      let* new := malloc_unsafe fuel e sz in
      emit (EMemcpy new ptr sz) ;;
      free_unsafe fuel e ptr ;;
      ret new.

Definition realloc (fuel : nat) (e : env) (ptr sz : Z) : M Z :=
  realloc_unsafe fuel e ptr sz.

(** *** The introspection writer *)

Definition newline : string := String (ascii_of_nat 10) EmptyString.

Definition hex_digit (d : Z) : ascii :=
  match String.get (Z.to_nat d) "0123456789abcdef" with
  | Some c => c
  | None => "0"%char
  end.

(** The loop of [write_pointer] over [i = 60, 56, ..., 0]. *)
Fixpoint write_pointer_loop (shifts : list Z) (ptr_num : Z) (printed : bool) : string :=
  match shifts with
  | [] => EmptyString
  | i :: rest =>
      let d := Z.land (Z.shiftr ptr_num i) 15 in
      if (d =? 0) && negb printed
      then write_pointer_loop rest ptr_num printed
      else String (hex_digit d) (write_pointer_loop rest ptr_num true)
  end.

Definition nibble_shifts : list Z :=
  [60; 56; 52; 48; 44; 40; 36; 32; 28; 24; 20; 16; 12; 8; 4; 0].

Definition write_pointer (ptr : Z) : string :=
  if ptr =? NULL then "(nil)"%string
  else ("0x" ++ write_pointer_loop nibble_shifts ptr false)%string.

(** [while ((num / p / 10) != 0) p *= 10;] *)
Fixpoint largest_power (fuel : nat) (num p : Z) : Z :=
  match fuel with
  | O => p
  | S fuel' =>
      if num / p / 10 =? 0 then p else largest_power fuel' num (wrap (p * 10))
  end.

(** [while (p > 0) { fputc('0' + ((num / p) % 10), fp); p /= 10; }] *)
Fixpoint write_digits (fuel : nat) (num p : Z) : string :=
  match fuel with
  | O => EmptyString
  | S fuel' =>
      if 0 <? p
      then String (ascii_of_nat (48 + Z.to_nat ((num / p) mod 10)))
                  (write_digits fuel' num (p / 10))
      else EmptyString
  end.

(** A [size_t] has at most twenty decimal digits, which bounds both
    loops of [write_unsigned]. *)
Definition write_unsigned (num : Z) : string :=
  if num =? 0 then "0"%string
  else write_digits 20 num (largest_power 20 num 1).

(** The [[REGION]] line of a header that starts its region. *)
Definition region_line (current : Z) (b : mem_block) : string :=
  ("[REGION] " ++ write_pointer current ++ "-"
     ++ write_pointer (wrap (current + region_size b)) ++ " "
     ++ write_unsigned (region_size b) ++ newline)%string.

(** The [[BLOCK]] line of a header. *)
Definition block_line (current : Z) (b : mem_block) : string :=
  let visible := if usage b =? 0 then 0 else wrap (usage b - hdr) in
  ("[BLOCK]  " ++ write_pointer current ++ "-"
     ++ write_pointer (wrap (current + region_size b)) ++ " ("
     ++ write_unsigned (alloc_id b) ++ ") '"
     ++ name b ++ "' "
     ++ write_unsigned (size b) ++ " "
     ++ write_unsigned (usage b) ++ " "
     ++ write_unsigned visible
     ++ newline)%string.

Fixpoint write_memory_loop (fuel : nat) (current_block : Z) : M string :=
  if current_block =? NULL then ret EmptyString
  else match fuel with
       | O => timeout
       | S fuel' =>
           let* b := load current_block in
           let region := if region_start b =? current_block
                         then region_line current_block b
                         else EmptyString in
           let* rest := write_memory_loop fuel' (next b) in
           ret (region ++ block_line current_block b ++ rest)%string
       end.

(** What [write_memory] writes to its stream. *)
Definition write_memory (fuel : nat) : M string :=
  let* head := get_head in
  let* body := write_memory_loop fuel head in
  ret ("-- Current Memory State --" ++ newline ++ body)%string.

Definition print_memory (fuel : nat) : M string := write_memory fuel.

End Allocator.

(** * Vocabulary of the specification *)

(** The empty heap a process starts with. *)
Definition initial_state : state := State NULL 0 ∅ [].

(** [lseg h p l q]: following [next] from [p] visits exactly the
    headers [l], in this order, and then arrives at [q]. *)
Fixpoint lseg (h : gmap Z mem_block) (p : Z) (l : list (Z * mem_block)) (q : Z) : Prop :=
  match l with
  | [] => p = q
  | ab :: l' =>
      p = fst ab /\ fst ab <> NULL /\ h !! fst ab = Some (snd ab)
      /\ lseg h (next (snd ab)) l' q
  end.

(** [chain h p l]: the list that starts at [p] is [l]; it ends with the
    null pointer. *)
Definition chain (h : gmap Z mem_block) (p : Z) (l : list (Z * mem_block)) : Prop :=
  lseg h p l NULL.

(** The two halves of [lseg]: the headers are in memory ([stored]),
    and each one points to the next ([linked]). *)
Definition stored (h : gmap Z mem_block) (l : list (Z * mem_block)) : Prop :=
  Forall (fun ab => fst ab <> NULL /\ h !! fst ab = Some (snd ab)) l.

Fixpoint linked (p : Z) (l : list (Z * mem_block)) (q : Z) : Prop :=
  match l with
  | [] => p = q
  | ab :: l' => p = fst ab /\ linked (next (snd ab)) l' q
  end.

(** The addresses of the headers of a list. *)
Definition addrs (l : list (Z * mem_block)) : list Z := map fst l.

(** The address of the first header of a list, or null. *)
Definition first_addr (l : list (Z * mem_block)) : Z :=
  match l with
  | [] => NULL
  | ab :: _ => fst ab
  end.

(** The slack of a header as the specification writes it, over the
    integers. *)
Definition tail_slack (b : mem_block) : Z := size b - usage b.

(** A candidate for [need] bytes, as the specification defines it. *)
Definition candidate (need : Z) (b : mem_block) : Prop := need <= tail_slack b.

(** The side conditions under which the test of the code,
    [size >= need + usage] in [size_t], is the test of the
    specification, [size - usage >= need]. *)
Definition in_bounds (need : Z) (ab : Z * mem_block) : Prop :=
  0 <= usage (snd ab) <= size (snd ab) /\ size (snd ab) < two64
  /\ need + usage (snd ab) < two64.

(** [picks_first need l r]: [r] is the first candidate of [l], or null
    when [l] has no candidate. *)
Definition picks_first (need : Z) (l : list (Z * mem_block)) (r : Z) : Prop :=
  (r = NULL /\ Forall (fun ab => ~ candidate need (snd ab)) l)
  \/ (exists l1 b l2,
        l = l1 ++ (r, b) :: l2 /\ candidate need b
        /\ Forall (fun ab => ~ candidate need (snd ab)) l1).

(** [picks_best need l r]: [r] is the candidate of minimal slack, the
    earliest of them in list order, or null when there is none. *)
Definition picks_best (need : Z) (l : list (Z * mem_block)) (r : Z) : Prop :=
  (r = NULL /\ Forall (fun ab => ~ candidate need (snd ab)) l)
  \/ (exists l1 b l2,
        l = l1 ++ (r, b) :: l2 /\ candidate need b
        /\ Forall (fun ab => candidate need (snd ab) ->
                            tail_slack b < tail_slack (snd ab)) l1
        /\ Forall (fun ab => candidate need (snd ab) ->
                            tail_slack b <= tail_slack (snd ab)) l2).

(** [picks_worst need l r]: [r] is the candidate of maximal slack, the
    earliest of them in list order, or null when there is none. *)
Definition picks_worst (need : Z) (l : list (Z * mem_block)) (r : Z) : Prop :=
  (r = NULL /\ Forall (fun ab => ~ candidate need (snd ab)) l)
  \/ (exists l1 b l2,
        l = l1 ++ (r, b) :: l2 /\ candidate need b
        /\ Forall (fun ab => candidate need (snd ab) ->
                            tail_slack (snd ab) < tail_slack b) l1
        /\ Forall (fun ab => candidate need (snd ab) ->
                            tail_slack (snd ab) <= tail_slack b) l2).

(** Whether [ALLOCATOR_SCRIBBLE] is the string ["1"]. *)
Definition scribble_on (e : env) : bool :=
  match getenv_scribble e with
  | Some v => String.eqb v "1"
  | None => false
  end.

(** The state once [memset(ptr, 0xaa, len)] ran, if scribbling is on. *)
Definition scribbled (e : env) (ptr len : Z) (st : state) : state :=
  if scribble_on e
  then State (g_head st) (g_allocations st) (heap st) (trace st ++ [EMemset ptr 170 len])
  else st.

(** The state with one more entry in its trace. *)
Definition logged (ev : event) (st : state) : state :=
  State (g_head st) (g_allocations st) (heap st) (trace st ++ [ev]).

(** The state with another header store. *)
Definition with_heap (h : gmap Z mem_block) (st : state) : state :=
  State (g_head st) (g_allocations st) h (trace st).

(** A region as the list encodes it: its bounds and its headers in
    address order. *)
Record region : Type := Region {
  r_start : Z;
  r_size : Z;
  r_blocks : list (Z * mem_block)
}.

Definition r_end (r : region) : Z := r_start r + r_size r.

(** The list the regions make, one after the other. *)
Fixpoint flat (regs : list region) : list (Z * mem_block) :=
  match regs with
  | [] => []
  | r :: rs => r_blocks r ++ flat rs
  end.

(** The headers [bs] tile the addresses from [a] to [stop]. *)
Fixpoint laid_out (a stop : Z) (bs : list (Z * mem_block)) : Prop :=
  match bs with
  | [] => a = stop
  | ab :: bs' => fst ab = a /\ laid_out (a + size (snd ab)) stop bs'
  end.

(** User addresses lie in the lower half of the address space. *)
Definition half : Z := 9223372036854775808.

(** Every header has [usage == 0]. *)
Definition all_free (bs : list (Z * mem_block)) : Prop :=
  Forall (fun ab => usage (snd ab) = 0) bs.

(** The region holds a header in use. *)
Definition has_live (r : region) : Prop :=
  Exists (fun ab => usage (snd ab) <> 0) (r_blocks r).

(** The address [x] lies inside the region. *)
Definition inside (r : region) (x : Z) : Prop := r_start r <= x < r_end r.

(** Two regions that do not overlap. *)
Definition apart (r1 r2 : region) : Prop :=
  r_end r1 <= r_start r2 \/ r_end r2 <= r_start r1.

Fixpoint all_apart (regs : list region) : Prop :=
  match regs with
  | [] => True
  | r :: rs => Forall (apart r) rs /\ all_apart rs
  end.

(** Every in-use header of [l] is an in-use header of [l']. *)
Definition keeps_live (l l' : list (Z * mem_block)) : Prop :=
  forall a b, In (a, b) l -> usage b <> 0 ->
              exists b', In (a, b') l' /\ usage b' <> 0.

(** The region [r] with other headers. *)
Definition with_blocks (bs : list (Z * mem_block)) (r : region) : region :=
  Region (r_start r) (r_size r) bs.

Section Vocabulary.

Variable hdr : Z.

(** A header of the region [r]: it names the region, is at least as
    large as a header, and is free or uses between a header and its
    whole size. *)
Definition block_ok (r : region) (ab : Z * mem_block) : Prop :=
  region_start (snd ab) = r_start r
  /\ region_size (snd ab) = r_size r
  /\ hdr <= size (snd ab)
  /\ (usage (snd ab) = 0 \/ hdr <= usage (snd ab) <= size (snd ab)).

(** A region in user space, tiled by its headers. *)
Definition region_wf (r : region) : Prop :=
  0 < r_start r /\ 0 < r_size r /\ r_end r <= half
  /\ laid_out (r_start r) (r_end r) (r_blocks r)
  /\ Forall (block_ok r) (r_blocks r).

(** [wf st regs]: the global list of [st] is the concatenation of the
    regions [regs], each of them tiled by its headers, no two of them
    overlapping. *)
Definition wf (st : state) (regs : list region) : Prop :=
  chain (heap st) (g_head st) (flat regs)
  /\ Forall region_wf regs
  /\ all_apart regs.

(** The invariant of the states between public calls. *)
Definition inv (st : state) : Prop :=
  exists regs, wf st regs /\ Forall has_live regs.

(** The loops of a call run to their end: the fuel exceeds the length
    of the list. *)
Definition enough_fuel (st : state) (fuel : nat) : Prop :=
  forall l, chain (heap st) (g_head st) l -> (length l < fuel)%nat.

(** A routine whose result, once it has one, is the same with more
    fuel. *)
Definition fuel_monotone {A : Type} (f : nat -> M A) : Prop :=
  forall (fuel fuel' : nat) (st : state) (r : A * state),
    (fuel <= fuel')%nat -> f fuel st = Ok r -> f fuel' st = Ok r.

(** The header [malloc_unsafe] goes on with: the one [reuse] found or,
    when there is none, the one [expand_heap] made. *)
Definition choose_block (fuel : nat) (e : env) (need : Z) : M Z :=
  let* found := reuse fuel e need in
  if found =? NULL then expand_heap fuel e need else ret found.

(** [live st ptr]: [ptr] is the payload of an in-use header of the
    list, that is, a pointer an allocation returned that was not
    released since. *)
Definition live (st : state) (ptr : Z) : Prop :=
  exists l a b,
    chain (heap st) (g_head st) l /\ In (a, b) l
    /\ usage b <> 0 /\ ptr = payload hdr a.

(** The length [expand_heap] asks [mmap] for. *)
Definition map_length (e : env) (need : Z) : Z :=
  let page_sz := getpagesize e in
  wrap ((if need mod page_sz =? 0 then need / page_sz
         else wrap (need / page_sz + 1)) * page_sz).

(** What the operating system guarantees: a page size that fits [int],
    and a mapping that is not empty, lies in user space and overlaps no
    region of a header in memory. *)
Definition env_ok (st : state) (e : env) : Prop :=
  0 < getpagesize e < 2147483648
  /\ forall len r,
      mmap_result e len = Some r ->
      0 < len /\ 0 < r /\ r + len <= half
      /\ forall a b, heap st !! a = Some b ->
           r + len <= region_start b \/ region_start b + region_size b <= r.

(** Request sizes whose header-inclusive size stays below [half]. *)
Definition size_ok (sz : Z) : Prop := 0 <= sz /\ sz + 8 + hdr <= half.

(** [NAME_CAP]: the capacity of the [name] array, declared in
    [allocator.h]. *)
Variable name_cap : Z.

Inductive call : Type :=
| CMalloc (sz : Z)
| CMallocName (sz : Z) (nm : string)
| CCalloc (nmemb sz : Z)
| CRealloc (ptr sz : Z)
| CFree (ptr : Z).

(** A public call; the calls that return nothing yield null. *)
Definition exec (fuel : nat) (e : env) (c : call) : M Z :=
  match c with
  | CMalloc sz => malloc hdr fuel e sz
  | CMallocName sz nm => malloc_name hdr fuel e sz nm
  | CCalloc nmemb sz => calloc hdr fuel e nmemb sz
  | CRealloc ptr sz => realloc hdr fuel e ptr sz
  | CFree ptr => free hdr fuel e ptr ;; ret NULL
  end.

(** The calls a correct client makes. *)
Definition legal (st : state) (c : call) : Prop :=
  match c with
  | CMalloc sz => size_ok sz
  | CMallocName sz nm => size_ok sz /\ Z.of_nat (String.length nm) < name_cap
  | CCalloc nmemb sz =>
      0 <= nmemb < two64 /\ 0 <= sz < two64 /\ size_ok (wrap (nmemb * sz))
  | CRealloc ptr sz => size_ok sz /\ (ptr = NULL \/ live st ptr)
  | CFree ptr => ptr = NULL \/ live st ptr
  end.

(** The states a correct client can bring the allocator to. *)
Inductive reachable : state -> Prop :=
| reach_init : reachable initial_state
| reach_step (st : state) (fuel : nat) (e : env) (c : call) (r : Z) (st' : state) :
    reachable st ->
    env_ok st e ->
    legal st c ->
    exec fuel e c st = Ok (r, st') ->
    reachable st'.

End Vocabulary.

(** What the dump holds for the headers [l]: for each of them its
    [[BLOCK]] line, after a [[REGION]] line when it starts its region. *)
Definition dump_lines (hdr : Z) (l : list (Z * mem_block)) : string :=
  fold_right
    (fun ab rest =>
       let region := if region_start (snd ab) =? fst ab
                     then region_line (fst ab) (snd ab)
                     else EmptyString in
       (region ++ block_line hdr (fst ab) (snd ab) ++ rest)%string)
    EmptyString l.

(** * Concrete runs

    The examples run the allocator with an 80-byte header (the log in
    the README shows the first payload 0x50 bytes after the start of
    its region), 4096-byte pages and small addresses. *)

Definition sizeof_mem_block : Z := 80.

(** An environment in which [mmap] answers [r] to a request of up to
    256 pages and [munmap] succeeds. *)
Definition env_at (r : Z) : env :=
  Env None None 4096
      (fun len => if (0 <? len) && (len <=? 1048576) then Some r else None)
      true.

(** An environment in which [mmap] fails. *)
Definition env_no_memory : env := Env None None 4096 (fun _ => None) true.

Definition env_policy (algo : string) : env :=
  Env (Some algo) None 4096 (fun _ => None) true.

(** [block->alloc_id] of the header of a payload. *)
Definition id_of (ptr : Z) : M Z :=
  let* b := load (header_of sizeof_mem_block ptr) in ret (alloc_id b).

(** [malloc(16); malloc(16); free(first); malloc(8)], collecting the
    allocation ids of the three returned blocks. *)
Definition reuse_script : M (list Z) :=
  let* p1 := malloc sizeof_mem_block 8 (env_at 4096) 16 in
  let* id1 := id_of p1 in
  let* p2 := malloc sizeof_mem_block 8 (env_at 4096) 16 in
  let* id2 := id_of p2 in
  free sizeof_mem_block 8 (env_at 4096) p1 ;;
  let* p3 := malloc sizeof_mem_block 8 (env_at 4096) 8 in
  let* id3 := id_of p3 in
  ret [id1; id2; id3].

(** The state after [malloc(16)] on the empty heap. *)
Definition block_whole : mem_block := MemBlock 0 EmptyString 4096 96 4096 4096 NULL.

Definition one_block : state :=
  State 4096 1 (<[4096 := block_whole]> ∅) [EMmap 4096 (Some 4096)].

(** The state after [malloc(16); malloc(16)] on the empty heap. *)
Definition block_a : mem_block := MemBlock 0 EmptyString 96 96 4096 4096 4192.
Definition block_b : mem_block := MemBlock 1 EmptyString 4000 96 4096 4096 NULL.

Definition two_blocks : state :=
  State 4096 2 (<[4096 := block_a]> (<[4192 := block_b]> ∅))
        [EMmap 4096 (Some 4096)].


(** The same state after [free] of the first block. *)
Definition first_released : state :=
  State 4096 2 (<[4096 := set_usage 0 block_a]> (<[4192 := block_b]> ∅))
        [EMmap 4096 (Some 4096)].

(** A free header is the last header of its region. *)
Definition free_is_last (l : list (Z * mem_block)) : Prop :=
  forall l1 a b l2,
    l = l1 ++ (a, b) :: l2 -> usage b = 0 ->
    Forall (fun ab => region_start (snd ab) <> region_start b) l2.

Definition long_name : string := "a-name-of-forty-characters-0123456789abc".

(** Three regions of one header each, with tail slack 64, 32 and 96. *)
Definition block_r1 : mem_block := MemBlock 0 EmptyString 4096 4032 4096 4096 8192.
Definition block_r2 : mem_block := MemBlock 1 EmptyString 4096 4064 8192 4096 12288.
Definition block_r3 : mem_block := MemBlock 2 EmptyString 4096 4000 12288 4096 NULL.

Definition three_list : list (Z * mem_block) :=
  [(4096, block_r1); (8192, block_r2); (12288, block_r3)].

Definition three_regions : state :=
  State 4096 3
        (<[4096 := block_r1]> (<[8192 := block_r2]> (<[12288 := block_r3]> ∅)))
        [].


(** * Further vocabulary

    Definitions used to state properties of the routines beyond their
    line-by-line behaviour. *)

(** ** Reading numerals back *)

(** The value of a decimal digit character. *)
Definition digit_value (c : ascii) : Z := Z.of_nat (nat_of_ascii c) - 48.

(** The number a string of decimal digits denotes, most significant
    digit first, continuing from [acc]. *)
Fixpoint read_decimal (acc : Z) (s : string) : Z :=
  match s with
  | EmptyString => acc
  | String c s' => read_decimal (acc * 10 + digit_value c) s'
  end.

(** Every character is one of ['0'] to ['9']. *)
Fixpoint all_digits (s : string) : bool :=
  match s with
  | EmptyString => true
  | String c s' =>
      Nat.leb 48 (nat_of_ascii c) && Nat.leb (nat_of_ascii c) 57 && all_digits s'
  end.

(** The value of a lower-case hexadecimal digit character. *)
Definition hex_value (c : ascii) : Z :=
  let n := Z.of_nat (nat_of_ascii c) in
  if n <? 58 then n - 48 else n - 87.

Fixpoint read_hex (acc : Z) (s : string) : Z :=
  match s with
  | EmptyString => acc
  | String c s' => read_hex (acc * 16 + hex_value c) s'
  end.

(** The shifts the loop of [write_pointer] goes through for a word of
    [m] hexadecimal digits: [4 (m - 1)], ..., [4], [0]. *)
Fixpoint shifts_from (m : nat) : list Z :=
  match m with
  | O => []
  | S m' => 4 * Z.of_nat m' :: shifts_from m'
  end.

(** The first character of a string is not ['0']. *)
Definition no_leading_zero (s : string) : Prop :=
  exists c s', s = String c s' /\ c <> "0"%char.

(** ** The result of a search *)

(** [r] is null or the address of a header in memory that passes the
    test of the searches for [need] bytes. *)
Definition null_or_fits (need : Z) (st : state) (r : Z) : Prop :=
  r = NULL \/ exists b, heap st !! r = Some b /\ fits need b = true.

(** ** Lists of headers *)

(** The list [l] with the [next] of its last header set to [q]. *)
Fixpoint relink_last (q : Z) (l : list (Z * mem_block)) : list (Z * mem_block) :=
  match l with
  | [] => []
  | ab :: l' =>
      match l' with
      | [] => [(fst ab, set_next q (snd ab))]
      | _ :: _ => ab :: relink_last q l'
      end
  end.

(** The headers of [l] that name the region that starts at [rs]. *)
Definition region_headers (rs : Z) (l : list (Z * mem_block)) : list (Z * mem_block) :=
  List.filter (fun ab => region_start (snd ab) =? rs) l.

(** The [size] fields of the headers of [l], added up. *)
Definition total_size (l : list (Z * mem_block)) : Z :=
  fold_right (fun ab s => size (snd ab) + s) 0 l.

(** The three ways an allocation changes the list.  [take_free]: a
    free header is put to use as it is. *)
Definition take_free (need : Z) (l1 : list (Z * mem_block)) (c : Z) (a0 : mem_block)
    (l2 : list (Z * mem_block)) : list (Z * mem_block) :=
  l1 ++ (c, set_usage need a0) :: l2.

(** [carve]: a header in use is cut down to what it uses, and a new
    header with the allocation id [id] takes the rest of its block. *)
Definition carve (id need : Z) (l1 : list (Z * mem_block)) (c : Z) (a0 : mem_block)
    (l2 : list (Z * mem_block)) : list (Z * mem_block) :=
  l1 ++ (c, set_next (c + usage a0) (set_size (usage a0) a0))
     :: (c + usage a0,
         MemBlock id EmptyString (size a0 - usage a0) need
                  (region_start a0) (region_size a0) (next a0))
     :: l2.

(** [append_region]: a new region of [len] bytes at [rr], whose one
    header has the allocation id [id], is linked after the last
    header. *)
Definition append_region (id need len rr : Z) (l : list (Z * mem_block))
    : list (Z * mem_block) :=
  relink_last rr l ++ [(rr, MemBlock id EmptyString len need rr len NULL)].

(** [same_block b b']: the header [b'] is the header [b] except
    possibly for its [size] and its [next]: the same payload extent,
    allocation id, name and region. *)
Definition same_block (b b' : mem_block) : Prop :=
  usage b' = usage b /\ alloc_id b' = alloc_id b /\ name b' = name b
  /\ region_start b' = region_start b /\ region_size b' = region_size b.

(** Every in-use header of [l] is in [l'], at the same address, the
    same block. *)
Definition keeps_blocks (l l' : list (Z * mem_block)) : Prop :=
  forall a b, In (a, b) l -> usage b <> 0 ->
              exists b', In (a, b') l' /\ same_block b b'.


(** ** Alignment *)



(** * Proofs *)

(** ** Running the monad *)

Lemma bind_ok {A B : Type} (m : M A) (k : A -> M B) (s s' : state) (a : A) :
  m s = Ok (a, s') -> bind m k s = k a s'.
Proof. unfold bind. intros ->. reflexivity. Qed.

Lemma bind_fault {A B : Type} (m : M A) (k : A -> M B) (s : state) :
  m s = Fault -> bind m k s = Fault.
Proof. unfold bind. intros ->. reflexivity. Qed.

Lemma bind_inv {A B : Type} (m : M A) (k : A -> M B) (s s' : state) (r : B) :
  bind m k s = Ok (r, s') ->
  exists a s1, m s = Ok (a, s1) /\ k a s1 = Ok (r, s').
Proof.
  unfold bind. destruct (m s) as [[a s1]| |]; try discriminate.
  intros H. exists a, s1. auto.
Qed.

Lemma bind_inv_pair {A B : Type} (m : M A) (k : A -> M B) (s : state) (r : B * state) :
  bind m k s = Ok r -> exists a s1, m s = Ok (a, s1) /\ k a s1 = Ok r.
Proof.
  unfold bind. destruct (m s) as [[a s1]| |]; try discriminate.
  intros H. exists a, s1. auto.
Qed.

Lemma load_ok (p : Z) (b : mem_block) (s : state) :
  p <> NULL -> heap s !! p = Some b -> load p s = Ok (b, s).
Proof.
  intros Hp Hb. unfold load.
  destruct (p =? NULL) eqn:E; [apply Z.eqb_eq in E; contradiction|].
  rewrite Hb. reflexivity.
Qed.

Lemma modify_ok (p : Z) (f : mem_block -> mem_block) (b : mem_block) (s : state) :
  p <> NULL -> heap s !! p = Some b ->
  modify p f s = Ok (tt, with_heap (<[p := f b]> (heap s)) s).
Proof.
  intros Hp Hb. unfold modify. rewrite (bind_ok _ _ _ _ _ (load_ok _ _ _ Hp Hb)).
  unfold store. destruct (p =? NULL) eqn:E; [apply Z.eqb_eq in E; contradiction|].
  reflexivity.
Qed.

Lemma load_null (s : state) : load NULL s = Fault.
Proof. reflexivity. Qed.

Lemma load_inv (p : Z) (b : mem_block) (s s' : state) :
  load p s = Ok (b, s') -> s' = s /\ p <> NULL /\ heap s !! p = Some b.
Proof.
  unfold load. destruct (p =? NULL) eqn:E; [discriminate|].
  apply Z.eqb_neq in E. destruct (heap s !! p) eqn:Hb; [|discriminate].
  intros [= -> ->]. auto.
Qed.

(** ** More fuel *)

Lemma monotone_const {A : Type} (m : M A) : fuel_monotone (fun _ => m).
Proof. intros fuel fuel' st r _ H. exact H. Qed.

Lemma monotone_bind {A B : Type} (f : nat -> M A) (k : nat -> A -> M B) :
  fuel_monotone f -> (forall a, fuel_monotone (fun fuel => k fuel a)) ->
  fuel_monotone (fun fuel => bind (f fuel) (k fuel)).
Proof.
  intros Hf Hk fuel fuel' st r Hle H.
  apply bind_inv_pair in H as (a & s1 & H1 & H2).
  rewrite (bind_ok _ _ _ _ _ (Hf _ _ _ _ Hle H1)).
  exact (Hk a _ _ _ _ Hle H2).
Qed.

Lemma monotone_if {A : Type} (c : bool) (f g : nat -> M A) :
  fuel_monotone f -> fuel_monotone g ->
  fuel_monotone (fun fuel => if c then f fuel else g fuel).
Proof. intros Hf Hg. destruct c; assumption. Qed.

Lemma first_fit_loop_monotone (sz : Z) :
  forall current, fuel_monotone (fun fuel => first_fit_loop fuel sz current).
Proof.
  intros current fuel. revert current.
  induction fuel as [|fuel IH]; intros current fuel' st r Hle H.
  - simpl in H. destruct (current =? NULL) eqn:E; [|discriminate].
    destruct fuel'; simpl; rewrite E; exact H.
  - destruct fuel' as [|fuel']; [lia|]. simpl in *.
    destruct (current =? NULL); [exact H|].
    apply bind_inv_pair in H as (b & s1 & H1 & H2).
    rewrite (bind_ok _ _ _ _ _ H1).
    destruct (fits sz b); [exact H2|]. apply IH; [lia|exact H2].
Qed.

Lemma best_fit_loop_monotone (sz : Z) :
  forall current best, fuel_monotone (fun fuel => best_fit_loop fuel sz current best).
Proof.
  intros current best fuel. revert current best.
  induction fuel as [|fuel IH]; intros current best fuel' st r Hle H.
  - simpl in H. destruct (current =? NULL) eqn:E; [|discriminate].
    destruct fuel'; simpl; rewrite E; exact H.
  - destruct fuel' as [|fuel']; [lia|]. simpl in *.
    destruct (current =? NULL); [exact H|].
    apply bind_inv_pair in H as (b & s1 & H1 & H2).
    rewrite (bind_ok _ _ _ _ _ H1).
    destruct (fits sz b); [|apply IH; [lia|exact H2]].
    destruct (best =? NULL); [apply IH; [lia|exact H2]|].
    apply bind_inv_pair in H2 as (bb & s2 & H3 & H4).
    rewrite (bind_ok _ _ _ _ _ H3).
    destruct (slack b <? slack bb); apply IH; try lia; exact H4.
Qed.

Lemma worst_fit_loop_monotone (sz : Z) :
  forall current worst, fuel_monotone (fun fuel => worst_fit_loop fuel sz current worst).
Proof.
  intros current worst fuel. revert current worst.
  induction fuel as [|fuel IH]; intros current worst fuel' st r Hle H.
  - simpl in H. destruct (current =? NULL) eqn:E; [|discriminate].
    destruct fuel'; simpl; rewrite E; exact H.
  - destruct fuel' as [|fuel']; [lia|]. simpl in *.
    destruct (current =? NULL); [exact H|].
    apply bind_inv_pair in H as (b & s1 & H1 & H2).
    rewrite (bind_ok _ _ _ _ _ H1).
    destruct (fits sz b); [|apply IH; [lia|exact H2]].
    destruct (worst =? NULL); [apply IH; [lia|exact H2]|].
    apply bind_inv_pair in H2 as (wb & s2 & H3 & H4).
    rewrite (bind_ok _ _ _ _ _ H3).
    destruct (slack wb <? slack b); apply IH; try lia; exact H4.
Qed.

Lemma find_tail_monotone :
  forall curr, fuel_monotone (fun fuel => find_tail fuel curr).
Proof.
  intros curr fuel. revert curr.
  induction fuel as [|fuel IH]; intros curr fuel' st r Hle H; [discriminate|].
  destruct fuel' as [|fuel']; [lia|]. simpl in *.
  apply bind_inv_pair in H as (b & s1 & H1 & H2).
  rewrite (bind_ok _ _ _ _ _ H1).
  destruct (next b =? NULL); [exact H2|]. apply IH; [lia|exact H2].
Qed.

Lemma region_scan_monotone (region_head region_end : Z) :
  forall current,
    fuel_monotone (fun fuel => region_scan fuel region_head region_end current).
Proof.
  intros current fuel. revert current.
  induction fuel as [|fuel IH]; intros current fuel' st r Hle H.
  - simpl in H.
    destruct ((current =? NULL) || negb (region_head <=? current)
              || negb (current <? region_end)) eqn:E; [|discriminate].
    destruct fuel'; simpl; rewrite E; exact H.
  - destruct fuel' as [|fuel']; [lia|]. simpl in *.
    destruct ((current =? NULL) || negb (region_head <=? current)
              || negb (current <? region_end)); [exact H|].
    apply bind_inv_pair in H as (b & s1 & H1 & H2).
    rewrite (bind_ok _ _ _ _ _ H1).
    destruct (usage b =? 0); [|exact H2]. apply IH; [lia|exact H2].
Qed.

Lemma find_pred_monotone (region_head : Z) :
  forall current, fuel_monotone (fun fuel => find_pred fuel region_head current).
Proof.
  intros current fuel. revert current.
  induction fuel as [|fuel IH]; intros current fuel' st r Hle H; [discriminate|].
  destruct fuel' as [|fuel']; [lia|]. simpl in *.
  apply bind_inv_pair in H as (b & s1 & H1 & H2).
  rewrite (bind_ok _ _ _ _ _ H1).
  destruct ((next b =? NULL) || (next b =? region_head)); [exact H2|].
  apply IH; [lia|exact H2].
Qed.

Lemma reuse_monotone (e : env) (sz : Z) : fuel_monotone (fun fuel => reuse fuel e sz).
Proof.
  unfold reuse. repeat apply monotone_if.
  - unfold first_fit. apply monotone_bind; [apply monotone_const|]. intros a.
    apply monotone_if; [apply monotone_const|apply first_fit_loop_monotone].
  - unfold best_fit. apply monotone_bind; [apply monotone_const|]. intros a.
    apply monotone_if; [apply monotone_const|apply best_fit_loop_monotone].
  - unfold worst_fit. apply monotone_bind; [apply monotone_const|]. intros a.
    apply monotone_if; [apply monotone_const|apply worst_fit_loop_monotone].
  - apply monotone_const.
Qed.

Lemma expand_heap_monotone (e : env) (sz : Z) :
  fuel_monotone (fun fuel => expand_heap fuel e sz).
Proof.
  unfold expand_heap. apply monotone_bind; [apply monotone_const|]. intros [block|].
  - apply monotone_bind; [apply monotone_const|]. intros id.
    apply monotone_bind; [apply monotone_const|]. intros _.
    apply monotone_bind; [apply monotone_const|]. intros head.
    apply monotone_bind; [|intros _; apply monotone_const].
    apply monotone_if; [apply monotone_const|].
    apply monotone_bind; [apply find_tail_monotone|]. intros curr. apply monotone_const.
  - apply monotone_const.
Qed.

(** ** Chains *)

Lemma lseg_iff (h : gmap Z mem_block) (l : list (Z * mem_block)) (p q : Z) :
  lseg h p l q <-> stored h l /\ linked p l q.
Proof.
  revert p. induction l as [|ab l IH]; intros p; simpl.
  - split; [intros ->; split; [constructor|reflexivity]|intros [_ H]; exact H].
  - rewrite IH. split.
    + intros (Hp & Hn & Hl & Hs & Hk). split; [constructor; auto|auto].
    + intros (Hs & Hp & Hk). inversion Hs as [|? ? [Hn Hl] Hs']; subst. auto.
Qed.

Lemma linked_app (l1 l2 : list (Z * mem_block)) (p q : Z) :
  linked p (l1 ++ l2) q <-> exists m, linked p l1 m /\ linked m l2 q.
Proof.
  revert p. induction l1 as [|ab l1 IH]; intros p; simpl.
  - split; [intros H; exists p; auto|intros (m & -> & H); exact H].
  - rewrite IH. split.
    + intros (Hp & m & H1 & H2). exists m. auto.
    + intros (m & (Hp & H1) & H2). split; [exact Hp|]. exists m. auto.
Qed.

Lemma linked_head (l : list (Z * mem_block)) (p : Z) :
  linked p l NULL -> p = first_addr l.
Proof. destruct l; simpl; intros H; [exact H|apply H]. Qed.

Lemma stored_app (h : gmap Z mem_block) (l1 l2 : list (Z * mem_block)) :
  stored h (l1 ++ l2) <-> stored h l1 /\ stored h l2.
Proof. unfold stored. apply Forall_app. Qed.

Lemma stored_insert_other (h : gmap Z mem_block) (l : list (Z * mem_block))
    (a : Z) (b : mem_block) :
  stored h l -> ~ In a (addrs l) -> stored (<[a := b]> h) l.
Proof.
  unfold stored, addrs. intros Hs Hn. rewrite List.Forall_forall in *.
  intros ab Hin. destruct (Hs ab Hin) as [H0 Hl]. split; [exact H0|].
  rewrite lookup_insert_ne; [exact Hl|].
  intros ->. apply Hn. apply in_map. exact Hin.
Qed.

Lemma stored_in (h : gmap Z mem_block) (l : list (Z * mem_block)) (a : Z) (b : mem_block) :
  stored h l -> In (a, b) l -> a <> NULL /\ h !! a = Some b.
Proof.
  unfold stored. rewrite List.Forall_forall. intros Hs Hin. apply (Hs _ Hin).
Qed.

(** Goals of linear arithmetic with [wrap], [/] and [mod]. *)
Ltac zdiv :=
  unfold wrap, two64, half, NULL in *;
  Z.to_euclidean_division_equations; lia.

Section Proofs.

Variable hdr : Z.

(** ** Allocation when the operating system has no memory *)

Lemma expand_heap_failure (fuel : nat) (e : env) (need : Z) (st : state) :
  mmap_result e (map_length e need) = None ->
  exists st', expand_heap fuel e need st = Ok (NULL, st').
Proof.
  intros Hm. unfold expand_heap, mmap. fold (map_length e need).
  unfold bind, emit, ret. rewrite Hm. eexists. reflexivity.
Qed.

Lemma malloc_unsafe_no_memory (fuel : nat) (e : env) (sz : Z) (st : state) :
  reuse fuel e (wrap (align8 sz + hdr)) st = Ok (NULL, st) ->
  mmap_result e (map_length e (wrap (align8 sz + hdr))) = None ->
  malloc_unsafe hdr fuel e sz st = Fault.
Proof.
  intros Hr Hm. unfold malloc_unsafe.
  rewrite (bind_ok _ _ _ _ _ Hr). change (NULL =? NULL) with true. cbv iota.
  destruct (expand_heap_failure fuel e (wrap (align8 sz + hdr)) st Hm) as [st' He].
  rewrite (bind_ok _ _ _ _ _ He).
  apply bind_fault. apply load_null.
Qed.

(** ** What [malloc_unsafe] does with the chosen header *)

Lemma align8_multiple (sz : Z) : align8 sz mod 8 = 0.
Proof.
  unfold align8. destruct (sz mod 8 =? 0) eqn:E.
  - apply Z.eqb_eq in E. exact E.
  - zdiv.
Qed.


Lemma align8_idem (sz : Z) : align8 (align8 sz) = align8 sz.
Proof.
  unfold align8 at 1. rewrite align8_multiple. reflexivity.
Qed.

Lemma scribble_run (e : env) (ptr len : Z) (st : state) :
  (match getenv_scribble e with
   | Some v => if String.eqb v "1" then emit (EMemset ptr 170 len) else ret tt
   | None => ret tt
   end) st = Ok (tt, scribbled e ptr len st).
Proof.
  unfold scribbled, scribble_on. destruct (getenv_scribble e) as [v|]; [|reflexivity].
  destruct (String.eqb v "1"); reflexivity.
Qed.

Lemma choose_block_inv (fuel : nat) (e : env) (need chosen : Z) (st st1 : state) :
  choose_block fuel e need st = Ok (chosen, st1) ->
  exists found st0,
    reuse fuel e need st = Ok (found, st0)
    /\ (if found =? NULL then expand_heap fuel e need else ret found) st0
       = Ok (chosen, st1).
Proof.
  unfold choose_block, bind.
  destruct (reuse fuel e need st) as [[found st0]| |]; try discriminate.
  intros H. exists found, st0. auto.
Qed.

Lemma malloc_unsafe_after_choice (fuel : nat) (e : env) (sz chosen : Z) (st st1 : state) :
  choose_block fuel e (wrap (align8 sz + hdr)) st = Ok (chosen, st1) ->
  malloc_unsafe hdr fuel e sz st =
  (let* a := load chosen in
   let* allocated :=
     (if usage a =? 0 then
        modify chosen (set_usage (wrap (align8 sz + hdr))) ;; ret chosen
      else
        let new := wrap (chosen + usage a) in
        let* id := next_alloc_id in
        store new (MemBlock id EmptyString (wrap (size a - usage a)) (wrap (align8 sz + hdr))
                     (region_start a) (region_size a) (next a)) ;;
        modify chosen (fun b => set_next new (set_size (usage b) b)) ;;
        ret new) in
   (match getenv_scribble e with
    | Some v => if String.eqb v "1"
                then emit (EMemset (payload hdr allocated) 170 (align8 sz))
                else ret tt
    | None => ret tt
    end) ;;
   ret (payload hdr allocated)) st1.
Proof.
  intros Hc. apply choose_block_inv in Hc as (found & st0 & Hr & Hx).
  unfold malloc_unsafe. rewrite (bind_ok _ _ _ _ _ Hr).
  rewrite (bind_ok _ _ _ _ _ Hx). reflexivity.
Qed.

(** The state [malloc_unsafe] ends in, from the chosen header. *)
Lemma malloc_unsafe_result (fuel : nat) (e : env) (sz chosen : Z)
    (st st1 : state) (a : mem_block) :
  choose_block fuel e (wrap (align8 sz + hdr)) st = Ok (chosen, st1) ->
  chosen <> NULL ->
  heap st1 !! chosen = Some a ->
  0 <= chosen -> 0 <= usage a -> chosen + usage a < two64 ->
  (usage a = 0 ->
      malloc_unsafe hdr fuel e sz st =
        Ok (payload hdr chosen,
            scribbled e (payload hdr chosen) (align8 sz)
              (with_heap (<[chosen := set_usage (wrap (align8 sz + hdr)) a]> (heap st1))
                 st1)))
  /\ (usage a <> 0 ->
      malloc_unsafe hdr fuel e sz st =
        Ok (payload hdr (wrap (chosen + usage a)),
            scribbled e (payload hdr (wrap (chosen + usage a))) (align8 sz)
              (State (g_head st1) (wrap (g_allocations st1 + 1))
                 (<[chosen := set_next (wrap (chosen + usage a)) (set_size (usage a) a)]>
                    (<[wrap (chosen + usage a) :=
                         MemBlock (g_allocations st1) EmptyString
                           (wrap (size a - usage a)) (wrap (align8 sz + hdr))
                           (region_start a) (region_size a) (next a)]>
                       (heap st1)))
                 (trace st1)))).
Proof.
  intros Hc Hnn Ha Hc0 Hu0 Hrange.
  rewrite (malloc_unsafe_after_choice _ _ _ _ _ _ Hc).
  rewrite (bind_ok _ _ _ _ _ (load_ok _ _ _ Hnn Ha)).
  split; intros Hz.
  - rewrite Hz. change (0 =? 0) with true. cbv iota.
    unfold modify. unfold bind at 1. unfold bind at 1. unfold bind at 1.
    rewrite (load_ok _ _ _ Hnn Ha). unfold store.
    destruct (chosen =? NULL) eqn:E; [apply Z.eqb_eq in E; contradiction|].
    unfold ret at 1. unfold bind. rewrite scribble_run. reflexivity.
  - destruct (usage a =? 0) eqn:E0; [apply Z.eqb_eq in E0; contradiction|].
    set (new := wrap (chosen + usage a)).
    assert (Hne : new <> chosen) by (unfold new; zdiv).
    assert (Hnz : new <> NULL) by (unfold new; zdiv).
    unfold bind at 1. unfold bind at 1. unfold next_alloc_id.
    unfold bind at 1. unfold store at 1.
    destruct (new =? NULL) eqn:E1; [apply Z.eqb_eq in E1; contradiction|].
    unfold bind at 1. unfold modify, bind at 1. unfold load. simpl heap.
    destruct (chosen =? NULL) eqn:E2; [apply Z.eqb_eq in E2; contradiction|].
    rewrite lookup_insert_ne by exact Hne. rewrite Ha.
    unfold store. rewrite E2. unfold ret at 1.
    unfold bind. rewrite scribble_run. reflexivity.
Qed.


(** The header a successful [malloc_unsafe] returns the payload of has
    [usage] equal to the header-inclusive size of the request. *)
Lemma malloc_unsafe_usage (fuel : nat) (e : env) (sz p : Z) (st st' : state) :
  malloc_unsafe hdr fuel e sz st = Ok (p, st') ->
  exists c b,
    p = payload hdr c /\ heap st' !! c = Some b
    /\ usage b = wrap (align8 sz + hdr).
Proof.
  unfold malloc_unsafe. intros H.
  apply bind_inv in H as (found & st0 & _ & H).
  apply bind_inv in H as (chosen & st1 & _ & H).
  apply bind_inv in H as (a & st1' & Hl & H).
  apply load_inv in Hl as (-> & Hnn & Ha).
  apply bind_inv in H as (allocated & st2 & H & Hs).
  apply bind_inv in Hs as ([] & st3 & Hs & Hr).
  rewrite scribble_run in Hs. injection Hs as <-. injection Hr as <- <-.
  assert (Hst2 : exists b, heap st2 !! allocated = Some b
                           /\ usage b = wrap (align8 sz + hdr)).
  { destruct (usage a =? 0).
    - apply bind_inv in H as ([] & st4 & Hm & Hr). injection Hr as <- <-.
      unfold modify in Hm. apply bind_inv in Hm as (a' & s' & Hl & Hm).
      apply load_inv in Hl as (-> & _ & Ha'). unfold store in Hm.
      destruct (chosen =? NULL); [discriminate|]. injection Hm as <-.
      eexists. split; [apply lookup_insert_eq|reflexivity].
    - apply bind_inv in H as (id & st4 & _ & H).
      apply bind_inv in H as ([] & st5 & Hst & H).
      apply bind_inv in H as ([] & st6 & Hm & Hr). injection Hr as <- <-.
      unfold store in Hst. destruct (wrap (chosen + usage a) =? NULL); [discriminate|].
      injection Hst as <-.
      unfold modify in Hm. apply bind_inv in Hm as (a' & s' & Hl & Hm).
      apply load_inv in Hl as (-> & _ & Ha'). simpl in Ha'. unfold store in Hm.
      destruct (chosen =? NULL); [discriminate|]. injection Hm as <-. simpl.
      destruct (decide (wrap (chosen + usage a) = chosen)) as [Heq|Hne].
      + rewrite Heq in *. rewrite lookup_insert_eq in Ha'. injection Ha' as <-.
        eexists. split; [apply lookup_insert_eq|reflexivity].
      + rewrite lookup_insert_ne by (intros Hx; apply Hne; symmetry; exact Hx).
        eexists. split; [apply lookup_insert_eq|reflexivity]. }
  destruct Hst2 as (b & Hb & Hu). exists allocated, b.
  split; [reflexivity|]. split; [|exact Hu].
  unfold scribbled. destruct (scribble_on e); exact Hb.
Qed.

(** A header taken while free keeps its allocation id and its name,
    and the counter is not advanced. *)
Lemma reused_header_keeps_id (fuel : nat) (e : env) (sz chosen : Z)
    (st st1 : state) (a : mem_block) :
  choose_block fuel e (wrap (align8 sz + hdr)) st = Ok (chosen, st1) ->
  chosen <> NULL ->
  heap st1 !! chosen = Some a ->
  0 <= chosen -> chosen < two64 ->
  usage a = 0 ->
  exists st' b,
    malloc_unsafe hdr fuel e sz st = Ok (payload hdr chosen, st')
    /\ heap st' !! chosen = Some b
    /\ alloc_id b = alloc_id a /\ name b = name a
    /\ g_allocations st' = g_allocations st1.
Proof.
  intros Hc Hnn Ha H0 H1 Hu.
  destruct (malloc_unsafe_result fuel e sz chosen st st1 a Hc Hnn Ha H0
              ltac:(lia) ltac:(lia)) as [Hzero _].
  eexists. eexists. split; [apply Hzero; exact Hu|].
  unfold scribbled. destruct (scribble_on e); simpl;
    (split; [apply lookup_insert_eq|]); auto.
Qed.

(** ** Named allocation *)

(** The name field of the returned header holds the whole name that
    was passed, whatever its length. *)
Lemma malloc_name_stores_name (fuel : nat) (e : env) (sz p : Z) (nm : string)
    (st st' : state) :
  malloc_name hdr fuel e sz nm st = Ok (p, st') ->
  exists b, heap st' !! header_of hdr p = Some b /\ name b = nm.
Proof.
  unfold malloc_name, malloc_name_unsafe. intros H.
  apply bind_inv in H as (q & s & _ & H).
  apply bind_inv in H as ([] & s1 & Hm & H). injection H as <- <-.
  unfold modify in Hm. apply bind_inv in Hm as (b0 & s0 & Hl & Hs).
  apply load_inv in Hl as (-> & _ & _). unfold store in Hs.
  destruct (header_of hdr q =? NULL); [discriminate|]. injection Hs as <-.
  eexists. split; [apply lookup_insert_eq|reflexivity].
Qed.

(** ** The dump *)

Lemma write_memory_loop_spec (st : state) (l : list (Z * mem_block)) :
  forall (fuel : nat) (p : Z),
    chain (heap st) p l -> (length l <= fuel)%nat ->
    write_memory_loop hdr fuel p st = Ok (dump_lines hdr l, st).
Proof.
  induction l as [|ab l IH]; intros fuel p Hc Hf.
  - unfold chain in Hc. simpl in Hc. subst p. destruct fuel; reflexivity.
  - destruct Hc as (-> & Hnn & Hl & Hc).
    destruct fuel as [|fuel]; [simpl in Hf; lia|]. simpl in Hf. simpl.
    destruct (fst ab =? NULL) eqn:E; [apply Z.eqb_eq in E; contradiction|].
    rewrite (bind_ok _ _ _ _ _ (load_ok _ _ _ Hnn Hl)).
    rewrite (bind_ok _ _ _ _ _ (IH fuel (next (snd ab)) Hc ltac:(lia))).
    reflexivity.
Qed.

(** The dump is the title line followed by the lines of the headers in
    list order. *)
Lemma write_memory_lines (fuel : nat) (st : state) (l : list (Z * mem_block)) :
  chain (heap st) (g_head st) l -> (length l <= fuel)%nat ->
  write_memory hdr fuel st
  = Ok (("-- Current Memory State --" ++ newline ++ dump_lines hdr l)%string, st).
Proof.
  intros Hc Hf. unfold write_memory, bind, get_head.
  rewrite (write_memory_loop_spec st l fuel (g_head st) Hc Hf). reflexivity.
Qed.

(** ** Reallocation *)


(** ** Zero-initialised allocation *)

(** C10: [calloc] asks [malloc_unsafe] and [memset] for
    [nmemb * size] reduced modulo [2^64]; when the product does not fit
    [size_t], that length, and the payload of the block that was
    allocated, are less than [nmemb * size] bytes. *)
Theorem calloc_spec (fuel : nat) (e : env) (nmemb sz : Z) (st : state) :
  0 <= nmemb < two64 -> 0 <= sz < two64 ->
  calloc hdr fuel e nmemb sz st =
    match malloc_unsafe hdr fuel e ((nmemb * sz) mod two64) st with
    | Ok (p, st1) => Ok (p, logged (EMemset p 0 ((nmemb * sz) mod two64)) st1)
    | Fault => Fault
    | Timeout => Timeout
    end
  /\ (forall p st',
        calloc hdr fuel e nmemb sz st = Ok (p, st') ->
        exists c b,
          p = payload hdr c /\ heap st' !! c = Some b
          /\ usage b = wrap (align8 ((nmemb * sz) mod two64) + hdr))
  /\ (two64 <= nmemb * sz ->
      (nmemb * sz) mod two64 < nmemb * sz
      /\ align8 ((nmemb * sz) mod two64) < nmemb * sz).
Proof.
  intros Hn Hs.
  assert (Heq : calloc hdr fuel e nmemb sz st =
    match malloc_unsafe hdr fuel e ((nmemb * sz) mod two64) st with
    | Ok (p, st1) => Ok (p, logged (EMemset p 0 ((nmemb * sz) mod two64)) st1)
    | Fault => Fault
    | Timeout => Timeout
    end).
  { unfold calloc, wrap, bind.
    destruct (malloc_unsafe hdr fuel e _ st) as [[p st1]| |]; reflexivity. }
  split; [exact Heq|]. split.
  - intros p st' H. rewrite Heq in H.
    destruct (malloc_unsafe hdr fuel e _ st) as [[p1 st1]| |] eqn:Hm; try discriminate.
    injection H as <- <-.
    destruct (malloc_unsafe_usage _ _ _ _ _ _ Hm) as (c & b & Hp & Hc & Hu).
    exists c, b. auto.
  - intros Hov.
    assert (H1 : (nmemb * sz) mod two64 < two64) by (apply Z.mod_pos_bound; reflexivity).
    assert (H2 : 0 <= (nmemb * sz) mod two64) by (apply Z.mod_pos_bound; reflexivity).
    split; [lia|].
    pose proof (align8_multiple ((nmemb * sz) mod two64)) as Hal.
    assert (align8 ((nmemb * sz) mod two64) < two64); [|lia].
    unfold align8. destruct (_ =? 0); [lia|]. unfold wrap.
    apply Z.mod_pos_bound. reflexivity.
Qed.

(** ** Placement *)

Lemma fits_candidate (need : Z) (ab : Z * mem_block) :
  0 <= need -> in_bounds need ab ->
  (fits need (snd ab) = true <-> candidate need (snd ab)).
Proof.
  intros Hn (Hu & Hs & Hb). unfold fits, candidate, tail_slack.
  assert (wrap (need + usage (snd ab)) = need + usage (snd ab)) as -> by zdiv.
  rewrite Z.leb_le. lia.
Qed.

Lemma slack_tail_slack (need : Z) (ab : Z * mem_block) :
  in_bounds need ab -> slack (snd ab) = tail_slack (snd ab).
Proof. intros (Hu & Hs & Hb). unfold slack, tail_slack. zdiv. Qed.

Lemma first_fit_loop_spec (need : Z) (st : state) (l : list (Z * mem_block)) :
  0 <= need -> Forall (in_bounds need) l ->
  forall (fuel : nat) (p : Z),
    chain (heap st) p l -> (length l <= fuel)%nat ->
    exists r, first_fit_loop fuel need p st = Ok (r, st) /\ picks_first need l r.
Proof.
  intros Hn. induction l as [|ab l IH]; intros Hb fuel p Hc Hf.
  - unfold chain in Hc. simpl in Hc. subst p. exists NULL. split.
    + destruct fuel; reflexivity.
    + left. split; [reflexivity|constructor].
  - destruct Hc as (Hp & Hnn & Hl & Hc). inversion Hb as [|? ? Hab Hb']; subst.
    destruct fuel as [|fuel]; [simpl in Hf; lia|]. simpl.
    destruct (fst ab =? NULL) eqn:E; [apply Z.eqb_eq in E; contradiction|].
    rewrite (bind_ok _ _ _ _ _ (load_ok _ _ _ Hnn Hl)).
    destruct (fits need (snd ab)) eqn:Ef.
    + exists (fst ab). split; [reflexivity|]. right.
      exists [], (snd ab), l. split; [destruct ab; reflexivity|].
      split; [apply (fits_candidate need ab); assumption|constructor].
    + assert (Hnc : ~ candidate need (snd ab)).
      { intros Hx. apply (fits_candidate need ab) in Hx; try assumption. congruence. }
      destruct (IH Hb' fuel (next (snd ab)) Hc) as (r & Hr & Hpick);
        [simpl in Hf; lia|].
      exists r. split; [exact Hr|].
      destruct Hpick as [(-> & Hall)|(l1 & b & l2 & -> & Hcand & Hall)].
      * left. split; [reflexivity|]. constructor; assumption.
      * right. exists (ab :: l1), b, l2. split; [reflexivity|].
        split; [exact Hcand|]. constructor; assumption.
Qed.

Lemma picks_best_snoc (need : Z) (done : list (Z * mem_block)) (best : Z)
    (ab : Z * mem_block) :
  picks_best need done best -> ~ candidate need (snd ab) ->
  picks_best need (done ++ [ab]) best.
Proof.
  intros [(-> & Hall)|(l1 & b & l2 & -> & Hc & H1 & H2)] Hn.
  - left. split; [reflexivity|]. apply Forall_app. split; [exact Hall|].
    constructor; [exact Hn|constructor].
  - right. exists l1, b, (l2 ++ [ab]). split; [rewrite <- app_assoc; reflexivity|].
    split; [exact Hc|]. split; [exact H1|]. apply Forall_app. split; [exact H2|].
    constructor; [intros Hx; contradiction|constructor].
Qed.

Lemma picks_worst_snoc (need : Z) (done : list (Z * mem_block)) (worst : Z)
    (ab : Z * mem_block) :
  picks_worst need done worst -> ~ candidate need (snd ab) ->
  picks_worst need (done ++ [ab]) worst.
Proof.
  intros [(-> & Hall)|(l1 & b & l2 & -> & Hc & H1 & H2)] Hn.
  - left. split; [reflexivity|]. apply Forall_app. split; [exact Hall|].
    constructor; [exact Hn|constructor].
  - right. exists l1, b, (l2 ++ [ab]). split; [rewrite <- app_assoc; reflexivity|].
    split; [exact Hc|]. split; [exact H1|]. apply Forall_app. split; [exact H2|].
    constructor; [intros Hx; contradiction|constructor].
Qed.

Lemma best_fit_loop_spec (need : Z) (st : state) :
  0 <= need ->
  forall (todo done : list (Z * mem_block)) (fuel : nat) (p best : Z),
    Forall (in_bounds need) (done ++ todo) ->
    Forall (fun ab => fst ab <> NULL /\ heap st !! fst ab = Some (snd ab)) done ->
    chain (heap st) p todo -> (length todo <= fuel)%nat ->
    picks_best need done best ->
    exists r, best_fit_loop fuel need p best st = Ok (r, st)
              /\ picks_best need (done ++ todo) r.
Proof.
  intros Hn. induction todo as [|ab todo IH]; intros done fuel p best Hb Hd Hc Hf Hp.
  - unfold chain in Hc. simpl in Hc. subst p. exists best. rewrite app_nil_r. split; [|exact Hp].
    destruct fuel; reflexivity.
  - destruct Hc as (Hq & Hnn & Hl & Hc).
    destruct fuel as [|fuel]; [simpl in Hf; lia|]. simpl in Hf. simpl.
    destruct (p =? NULL) eqn:E; [apply Z.eqb_eq in E; congruence|]. subst p.
    rewrite (bind_ok _ _ _ _ _ (load_ok _ _ _ Hnn Hl)).
    assert (Hab : in_bounds need ab).
    { rewrite Forall_app in Hb. destruct Hb as [_ Hb]. inversion Hb; assumption. }
    assert (Hb2 : Forall (in_bounds need) ((done ++ [ab]) ++ todo))
      by (rewrite <- app_assoc; exact Hb).
    assert (Hd2 : Forall (fun ab => fst ab <> NULL /\ heap st !! fst ab = Some (snd ab))
                    (done ++ [ab])).
    { apply Forall_app. split; [exact Hd|]. constructor; [auto|constructor]. }
    assert (Hgo : forall best',
               picks_best need (done ++ [ab]) best' ->
               exists r, best_fit_loop fuel need (next (snd ab)) best' st = Ok (r, st)
                         /\ picks_best need (done ++ ab :: todo) r).
    { intros best' Hp'.
      destruct (IH (done ++ [ab]) fuel (next (snd ab)) best' Hb2 Hd2 Hc ltac:(lia) Hp')
        as (r & Hr & Hpick).
      exists r. split; [exact Hr|]. rewrite <- app_assoc in Hpick. exact Hpick. }
    destruct (fits need (snd ab)) eqn:Ef.
    + assert (Hcand : candidate need (snd ab))
        by (apply (fits_candidate need ab); assumption).
      destruct Hp as [(-> & Hall)|(l1 & bb & l2 & -> & Hcb & H1 & H2)].
      * change (NULL =? NULL) with true. cbv iota. apply Hgo. right.
        exists done, (snd ab), []. split; [destruct ab; reflexivity|].
        split; [exact Hcand|]. split; [|constructor].
        eapply Forall_impl; [exact Hall|]. intros x Hx Hcx. contradiction.
      * assert (Hbest : best <> NULL /\ heap st !! best = Some bb).
        { rewrite Forall_app in Hd. destruct Hd as [_ Hd]. inversion Hd; assumption. }
        destruct Hbest as [Hbn Hbl].
        destruct (best =? NULL) eqn:Eb; [apply Z.eqb_eq in Eb; contradiction|].
        rewrite (bind_ok _ _ _ _ _ (load_ok _ _ _ Hbn Hbl)).
        assert (Hbb : in_bounds need (best, bb)).
        { rewrite Forall_app in Hb. destruct Hb as [Hb _].
          rewrite Forall_app in Hb. destruct Hb as [_ Hb]. inversion Hb; assumption. }
        rewrite (slack_tail_slack need ab Hab).
        pose proof (slack_tail_slack need (best, bb) Hbb) as Hsl. simpl in Hsl.
        rewrite Hsl.
        destruct (tail_slack (snd ab) <? tail_slack bb) eqn:Ec.
        -- apply Z.ltb_lt in Ec. apply Hgo. right.
           exists (l1 ++ (best, bb) :: l2), (snd ab), [].
           split; [destruct ab; reflexivity|]. split; [exact Hcand|].
           split; [|constructor]. apply Forall_app. split.
           ++ eapply Forall_impl; [exact H1|]. intros x Hx Hcx. specialize (Hx Hcx). lia.
           ++ constructor; [intros _; exact Ec|].
              eapply Forall_impl; [exact H2|]. intros x Hx Hcx. specialize (Hx Hcx). lia.
        -- apply Z.ltb_ge in Ec. apply Hgo. right.
           exists l1, bb, (l2 ++ [ab]). split; [rewrite <- app_assoc; reflexivity|].
           split; [exact Hcb|]. split; [exact H1|]. apply Forall_app.
           split; [exact H2|]. constructor; [intros _; exact Ec|constructor].
    + apply Hgo. apply picks_best_snoc; [exact Hp|].
      intros Hx. apply (fits_candidate need ab) in Hx; try assumption. congruence.
Qed.

Lemma worst_fit_loop_spec (need : Z) (st : state) :
  0 <= need ->
  forall (todo done : list (Z * mem_block)) (fuel : nat) (p worst : Z),
    Forall (in_bounds need) (done ++ todo) ->
    Forall (fun ab => fst ab <> NULL /\ heap st !! fst ab = Some (snd ab)) done ->
    chain (heap st) p todo -> (length todo <= fuel)%nat ->
    picks_worst need done worst ->
    exists r, worst_fit_loop fuel need p worst st = Ok (r, st)
              /\ picks_worst need (done ++ todo) r.
Proof.
  intros Hn. induction todo as [|ab todo IH]; intros done fuel p worst Hb Hd Hc Hf Hp.
  - unfold chain in Hc. simpl in Hc. subst p. exists worst. rewrite app_nil_r. split; [|exact Hp].
    destruct fuel; reflexivity.
  - destruct Hc as (Hq & Hnn & Hl & Hc).
    destruct fuel as [|fuel]; [simpl in Hf; lia|]. simpl in Hf. simpl.
    destruct (p =? NULL) eqn:E; [apply Z.eqb_eq in E; congruence|]. subst p.
    rewrite (bind_ok _ _ _ _ _ (load_ok _ _ _ Hnn Hl)).
    assert (Hab : in_bounds need ab).
    { rewrite Forall_app in Hb. destruct Hb as [_ Hb]. inversion Hb; assumption. }
    assert (Hb2 : Forall (in_bounds need) ((done ++ [ab]) ++ todo))
      by (rewrite <- app_assoc; exact Hb).
    assert (Hd2 : Forall (fun ab => fst ab <> NULL /\ heap st !! fst ab = Some (snd ab))
                    (done ++ [ab])).
    { apply Forall_app. split; [exact Hd|]. constructor; [auto|constructor]. }
    assert (Hgo : forall worst',
               picks_worst need (done ++ [ab]) worst' ->
               exists r, worst_fit_loop fuel need (next (snd ab)) worst' st = Ok (r, st)
                         /\ picks_worst need (done ++ ab :: todo) r).
    { intros worst' Hp'.
      destruct (IH (done ++ [ab]) fuel (next (snd ab)) worst' Hb2 Hd2 Hc ltac:(lia) Hp')
        as (r & Hr & Hpick).
      exists r. split; [exact Hr|]. rewrite <- app_assoc in Hpick. exact Hpick. }
    destruct (fits need (snd ab)) eqn:Ef.
    + assert (Hcand : candidate need (snd ab))
        by (apply (fits_candidate need ab); assumption).
      destruct Hp as [(-> & Hall)|(l1 & wb & l2 & -> & Hcb & H1 & H2)].
      * change (NULL =? NULL) with true. cbv iota. apply Hgo. right.
        exists done, (snd ab), []. split; [destruct ab; reflexivity|].
        split; [exact Hcand|]. split; [|constructor].
        eapply Forall_impl; [exact Hall|]. intros x Hx Hcx. contradiction.
      * assert (Hworst : worst <> NULL /\ heap st !! worst = Some wb).
        { rewrite Forall_app in Hd. destruct Hd as [_ Hd]. inversion Hd; assumption. }
        destruct Hworst as [Hbn Hbl].
        destruct (worst =? NULL) eqn:Eb; [apply Z.eqb_eq in Eb; contradiction|].
        rewrite (bind_ok _ _ _ _ _ (load_ok _ _ _ Hbn Hbl)).
        assert (Hbb : in_bounds need (worst, wb)).
        { rewrite Forall_app in Hb. destruct Hb as [Hb _].
          rewrite Forall_app in Hb. destruct Hb as [_ Hb]. inversion Hb; assumption. }
        rewrite (slack_tail_slack need ab Hab).
        pose proof (slack_tail_slack need (worst, wb) Hbb) as Hsl. simpl in Hsl.
        rewrite Hsl.
        destruct (tail_slack wb <? tail_slack (snd ab)) eqn:Ec.
        -- apply Z.ltb_lt in Ec. apply Hgo. right.
           exists (l1 ++ (worst, wb) :: l2), (snd ab), [].
           split; [destruct ab; reflexivity|]. split; [exact Hcand|].
           split; [|constructor]. apply Forall_app. split.
           ++ eapply Forall_impl; [exact H1|]. intros x Hx Hcx. specialize (Hx Hcx). lia.
           ++ constructor; [intros _; exact Ec|].
              eapply Forall_impl; [exact H2|]. intros x Hx Hcx. specialize (Hx Hcx). lia.
        -- apply Z.ltb_ge in Ec. apply Hgo. right.
           exists l1, wb, (l2 ++ [ab]). split; [rewrite <- app_assoc; reflexivity|].
           split; [exact Hcb|]. split; [exact H1|]. apply Forall_app.
           split; [exact H2|]. constructor; [intros _; exact Ec|constructor].
    + apply Hgo. apply picks_worst_snoc; [exact Hp|].
      intros Hx. apply (fits_candidate need ab) in Hx; try assumption. congruence.
Qed.

Lemma first_fit_run (fuel : nat) (need : Z) (st : state) (l : list (Z * mem_block)) :
  chain (heap st) (g_head st) l -> (length l <= fuel)%nat -> 0 <= need ->
  Forall (in_bounds need) l ->
  exists r, first_fit fuel need st = Ok (r, st) /\ picks_first need l r.
Proof.
  intros Hc Hf Hn Hb. unfold first_fit, bind, get_head.
  destruct (g_head st =? NULL) eqn:E.
  - apply Z.eqb_eq in E. destruct l as [|ab l].
    + exists NULL. split; [reflexivity|]. left. split; [reflexivity|constructor].
    + destruct Hc as (Hp & Hnn & _). congruence.
  - apply first_fit_loop_spec; assumption.
Qed.

Lemma best_fit_run (fuel : nat) (need : Z) (st : state) (l : list (Z * mem_block)) :
  chain (heap st) (g_head st) l -> (length l <= fuel)%nat -> 0 <= need ->
  Forall (in_bounds need) l ->
  exists r, best_fit fuel need st = Ok (r, st) /\ picks_best need l r.
Proof.
  intros Hc Hf Hn Hb. unfold best_fit, bind, get_head.
  assert (Hnone : picks_best need [] NULL) by (left; split; [reflexivity|constructor]).
  destruct (g_head st =? NULL) eqn:E.
  - apply Z.eqb_eq in E. destruct l as [|ab l].
    + exists NULL. split; [reflexivity|exact Hnone].
    + destruct Hc as (Hp & Hnn & _). congruence.
  - assert (Hd : stored (heap st) []) by constructor.
    exact (best_fit_loop_spec need st Hn l [] fuel (g_head st) NULL Hb Hd Hc Hf Hnone).
Qed.

Lemma worst_fit_run (fuel : nat) (need : Z) (st : state) (l : list (Z * mem_block)) :
  chain (heap st) (g_head st) l -> (length l <= fuel)%nat -> 0 <= need ->
  Forall (in_bounds need) l ->
  exists r, worst_fit fuel need st = Ok (r, st) /\ picks_worst need l r.
Proof.
  intros Hc Hf Hn Hb. unfold worst_fit, bind, get_head.
  assert (Hnone : picks_worst need [] NULL) by (left; split; [reflexivity|constructor]).
  destruct (g_head st =? NULL) eqn:E.
  - apply Z.eqb_eq in E. destruct l as [|ab l].
    + exists NULL. split; [reflexivity|exact Hnone].
    + destruct Hc as (Hp & Hnn & _). congruence.
  - assert (Hd : stored (heap st) []) by constructor.
    exact (worst_fit_loop_spec need st Hn l [] fuel (g_head st) NULL Hb Hd Hc Hf Hnone).
Qed.



(** ** The layout of regions *)

Hypothesis hdr_pos : 0 < hdr.

Lemma laid_out_app (bs1 bs2 : list (Z * mem_block)) (a stop : Z) :
  laid_out a stop (bs1 ++ bs2) <->
  exists m, laid_out a m bs1 /\ laid_out m stop bs2.
Proof.
  revert a. induction bs1 as [|ab bs1 IH]; intros a; simpl.
  - split; [intros H; exists a; auto|intros (m & -> & H); exact H].
  - rewrite IH. split.
    + intros (Ha & m & H1 & H2). exists m. auto.
    + intros (m & (Ha & H1) & H2). split; [exact Ha|]. exists m. auto.
Qed.

Lemma laid_out_bounds (bs : list (Z * mem_block)) (a stop : Z) :
  laid_out a stop bs ->
  Forall (fun ab => 0 < size (snd ab)) bs ->
  a <= stop
  /\ Forall (fun ab => a <= fst ab /\ fst ab + size (snd ab) <= stop) bs.
Proof.
  revert a. induction bs as [|ab bs IH]; intros a Hl Hs; simpl in Hl.
  - split; [lia|constructor].
  - destruct Hl as [Ha Hl]. inversion Hs as [|? ? Hab Hs']; subst.
    destruct (IH _ Hl Hs') as [Hle Hall]. split; [lia|].
    constructor; [lia|]. eapply Forall_impl; [exact Hall|].
    simpl. intros x Hx. lia.
Qed.

Lemma laid_out_NoDup (bs : list (Z * mem_block)) (a stop : Z) :
  laid_out a stop bs ->
  Forall (fun ab => 0 < size (snd ab)) bs ->
  List.NoDup (addrs bs).
Proof.
  revert a. induction bs as [|ab bs IH]; intros a Hl Hs; simpl in *.
  - constructor.
  - destruct Hl as [Ha Hl]. inversion Hs as [|? ? Hab Hs']; subst.
    constructor; [|eapply IH; eassumption].
    intros Hin. apply in_map_iff in Hin as (x & Hx & Hin).
    destruct (laid_out_bounds _ _ _ Hl Hs') as [_ Hall].
    rewrite List.Forall_forall in Hall. specialize (Hall _ Hin). lia.
Qed.

Lemma block_ok_size (r : region) (ab : Z * mem_block) :
  block_ok hdr r ab -> 0 < size (snd ab).
Proof. intros (_ & _ & H & _). lia. Qed.

Lemma region_sizes (r : region) :
  region_wf hdr r -> Forall (fun ab => 0 < size (snd ab)) (r_blocks r).
Proof.
  intros (_ & _ & _ & _ & H). eapply Forall_impl; [exact H|].
  intros ab. apply block_ok_size.
Qed.

Lemma region_inside (r : region) (ab : Z * mem_block) :
  region_wf hdr r -> In ab (r_blocks r) ->
  inside r (fst ab) /\ fst ab + size (snd ab) <= r_end r /\ block_ok hdr r ab.
Proof.
  intros Hw Hin. pose proof (region_sizes r Hw) as Hs.
  destruct Hw as (H0 & H1 & H2 & Hl & Hok).
  destruct (laid_out_bounds _ _ _ Hl Hs) as [_ Hall].
  rewrite List.Forall_forall in Hall, Hok, Hs.
  specialize (Hall _ Hin). specialize (Hok _ Hin). specialize (Hs _ Hin).
  unfold inside. split; [lia|]. split; [lia|exact Hok].
Qed.

Lemma region_first (r : region) :
  region_wf hdr r -> exists b bs, r_blocks r = (r_start r, b) :: bs.
Proof.
  intros (H0 & H1 & H2 & Hl & Hok). destruct (r_blocks r) as [|[a b] bs].
  - simpl in Hl. unfold r_end in Hl. lia.
  - simpl in Hl. destruct Hl as [-> _]. eauto.
Qed.

Lemma apart_sym (r1 r2 : region) : apart r1 r2 -> apart r2 r1.
Proof. unfold apart. tauto. Qed.

Lemma apart_inside (r1 r2 : region) (x : Z) :
  apart r1 r2 -> inside r1 x -> ~ inside r2 x.
Proof. unfold apart, inside. lia. Qed.

Lemma all_apart_app (R1 R2 : list region) :
  all_apart (R1 ++ R2) <->
  all_apart R1 /\ all_apart R2 /\ Forall (fun r1 => Forall (apart r1) R2) R1.
Proof.
  induction R1 as [|r R1 IH]; simpl.
  - split; [intros H; repeat split; [exact H|constructor]|tauto].
  - rewrite IH, Forall_app. split.
    + intros ((H1 & H2) & H3 & H4 & H5). repeat split; try assumption.
      constructor; assumption.
    + intros ((H1 & H2) & H3 & H4). inversion H4; subst. tauto.
Qed.

Lemma all_apart_mid (R1 R2 : list region) (r : region) :
  all_apart (R1 ++ r :: R2) <->
  all_apart (R1 ++ R2) /\ Forall (apart r) R1 /\ Forall (apart r) R2.
Proof.
  rewrite !all_apart_app. simpl. split.
  - intros (H1 & (H2 & H3) & H4). repeat split; try assumption.
    + eapply Forall_impl; [exact H4|]. intros x Hx. inversion Hx; assumption.
    + eapply Forall_impl; [exact H4|]. intros x Hx. inversion Hx; subst.
      apply apart_sym. assumption.
  - intros ((H1 & H2 & H3) & H4 & H5). repeat split; try assumption.
    rewrite List.Forall_forall in H3, H4. apply List.Forall_forall.
    intros x Hx. constructor.
    + apply apart_sym. apply H4. exact Hx.
    + apply H3. exact Hx.
Qed.

Lemma all_apart_replace (R1 R2 : list region) (r r' : region) :
  all_apart (R1 ++ r :: R2) ->
  r_start r' = r_start r -> r_size r' = r_size r ->
  all_apart (R1 ++ r' :: R2).
Proof.
  rewrite !all_apart_mid. intros (H & H1 & H2) Hs Hz.
  assert (He : forall x, apart r x -> apart r' x).
  { intros x. unfold apart, r_end. rewrite Hs, Hz. tauto. }
  repeat split; [exact H| |]; eapply Forall_impl; eauto.
Qed.

Lemma in_flat (regs : list region) (ab : Z * mem_block) :
  In ab (flat regs) <-> exists r, In r regs /\ In ab (r_blocks r).
Proof.
  induction regs as [|r regs IH]; simpl.
  - split; [tauto|intros (r & [] & _)].
  - rewrite in_app_iff, IH. split.
    + intros [H|(r' & H1 & H2)]; [exists r; auto|exists r'; auto].
    + intros (r' & [->|H1] & H2); [auto|right; exists r'; auto].
Qed.

Lemma flat_app (R1 R2 : list region) : flat (R1 ++ R2) = flat R1 ++ flat R2.
Proof.
  induction R1 as [|r R1 IH]; simpl; [reflexivity|].
  rewrite IH, app_assoc. reflexivity.
Qed.

Lemma flat_inside (regs : list region) (ab : Z * mem_block) :
  Forall (region_wf hdr) regs -> In ab (flat regs) ->
  exists r, In r regs /\ inside r (fst ab).
Proof.
  intros Hw Hin. apply in_flat in Hin as (r & Hr & Hin).
  rewrite List.Forall_forall in Hw. exists r. split; [exact Hr|].
  apply (region_inside r ab (Hw r Hr) Hin).
Qed.

(** No header of the regions [regs] lies inside a region apart from
    all of them. *)
Lemma flat_outside (regs : list region) (r : region) (ab : Z * mem_block) :
  Forall (region_wf hdr) regs -> Forall (apart r) regs ->
  In ab (flat regs) -> ~ inside r (fst ab).
Proof.
  intros Hw Ha Hin. destruct (flat_inside regs ab Hw Hin) as (r' & Hr & Hi).
  rewrite List.Forall_forall in Ha. specialize (Ha r' Hr).
  intros Hx. exact (apart_inside r r' _ Ha Hx Hi).
Qed.

Lemma wf_NoDup (regs : list region) :
  Forall (region_wf hdr) regs -> all_apart regs -> List.NoDup (addrs (flat regs)).
Proof.
  induction regs as [|r regs IH]; intros Hw Ha; simpl.
  - constructor.
  - inversion Hw as [|? ? Hr Hw']; subst. destruct Ha as [Har Ha].
    unfold addrs. rewrite map_app. apply List.NoDup_app.
    + destruct Hr as (_ & _ & _ & Hl & Hok).
      eapply laid_out_NoDup; [exact Hl|].
      eapply Forall_impl; [exact Hok|]. intros ab. apply block_ok_size.
    + apply IH; assumption.
    + intros x Hx1 Hx2.
      apply in_map_iff in Hx1 as (ab1 & <- & Hin1).
      apply in_map_iff in Hx2 as (ab2 & Heq & Hin2).
      apply (flat_outside regs r ab2 Hw' Har Hin2). rewrite Heq.
      apply (region_inside r ab1 Hr Hin1).
Qed.

(** ** Well-formed states *)

Lemma wf_intro (st : state) (regs : list region) :
  stored (heap st) (flat regs) -> linked (g_head st) (flat regs) NULL ->
  Forall (region_wf hdr) regs -> all_apart regs -> wf hdr st regs.
Proof. intros Hs Hl Hw Ha. split; [apply lseg_iff; auto|auto]. Qed.

Lemma wf_elim (st : state) (regs : list region) :
  wf hdr st regs ->
  stored (heap st) (flat regs) /\ linked (g_head st) (flat regs) NULL
  /\ Forall (region_wf hdr) regs /\ all_apart regs
  /\ List.NoDup (addrs (flat regs)).
Proof.
  intros (Hc & Hw & Ha). apply lseg_iff in Hc as [Hs Hl].
  repeat split; try assumption. apply wf_NoDup; assumption.
Qed.

Lemma flat_focus (R1 R2 : list region) (r : region) (bs : list (Z * mem_block)) :
  flat (R1 ++ with_blocks bs r :: R2) = flat R1 ++ bs ++ flat R2.
Proof. rewrite flat_app. reflexivity. Qed.

Lemma flat_focus_block (R1 R2 : list region) (r : region)
    (bs1 bs2 : list (Z * mem_block)) (ab : Z * mem_block) :
  r_blocks r = bs1 ++ ab :: bs2 ->
  flat (R1 ++ r :: R2) = (flat R1 ++ bs1) ++ ab :: (bs2 ++ flat R2).
Proof.
  intros H. rewrite flat_app. simpl. rewrite H.
  rewrite <- !app_assoc. reflexivity.
Qed.

Lemma stored_update (h : gmap Z mem_block) (l1 l2 : list (Z * mem_block))
    (a : Z) (b b' : mem_block) :
  stored h (l1 ++ (a, b) :: l2) ->
  List.NoDup (addrs (l1 ++ (a, b) :: l2)) ->
  stored (<[a := b']> h) (l1 ++ (a, b') :: l2).
Proof.
  intros Hs Hn. unfold addrs in Hn. rewrite map_app in Hn. simpl in Hn.
  apply List.NoDup_remove_2 in Hn. rewrite in_app_iff in Hn.
  apply stored_app in Hs as [Hs1 Hs2]. inversion Hs2 as [|? ? [Ha Hl] Hs2']; subst.
  apply stored_app. split.
  - apply stored_insert_other; [exact Hs1|]. unfold addrs. tauto.
  - constructor.
    + split; [exact Ha|]. apply lookup_insert_eq.
    + apply stored_insert_other; [exact Hs2'|]. unfold addrs. tauto.
Qed.

Lemma linked_update (l1 l2 : list (Z * mem_block)) (a p q : Z) (b b' : mem_block) :
  linked p (l1 ++ (a, b) :: l2) q -> next b' = next b ->
  linked p (l1 ++ (a, b') :: l2) q.
Proof.
  intros Hl Hn. apply linked_app in Hl as (m & H1 & H2). apply linked_app.
  exists m. split; [exact H1|]. simpl in *. rewrite Hn. exact H2.
Qed.

Lemma laid_out_update (bs1 bs2 : list (Z * mem_block)) (a lo hi : Z) (b b' : mem_block) :
  laid_out lo hi (bs1 ++ (a, b) :: bs2) -> size b' = size b ->
  laid_out lo hi (bs1 ++ (a, b') :: bs2).
Proof.
  intros Hl Hn. apply laid_out_app in Hl as (m & H1 & H2). apply laid_out_app.
  exists m. split; [exact H1|]. simpl in *. rewrite Hn. exact H2.
Qed.

Lemma region_wf_update (r : region) (bs1 bs2 : list (Z * mem_block))
    (a : Z) (b b' : mem_block) :
  region_wf hdr r -> r_blocks r = bs1 ++ (a, b) :: bs2 ->
  size b' = size b -> block_ok hdr r (a, b') ->
  region_wf hdr (with_blocks (bs1 ++ (a, b') :: bs2) r).
Proof.
  intros (H0 & H1 & H2 & Hl & Hok) Hr Hs Hb. rewrite Hr in Hl, Hok.
  repeat split; try assumption.
  - simpl. eapply laid_out_update; eassumption.
  - simpl. apply Forall_app in Hok as [Hok1 Hok2].
    inversion Hok2; subst. apply Forall_app. split; [assumption|].
    constructor; assumption.
Qed.

Lemma Forall_mid {A : Type} (P : A -> Prop) (l1 l2 : list A) (x : A) :
  Forall P (l1 ++ x :: l2) <-> Forall P (l1 ++ l2) /\ P x.
Proof.
  rewrite !Forall_app, Forall_cons. tauto.
Qed.

Lemma wf_update (st : state) (R1 R2 : list region) (r : region)
    (bs1 bs2 : list (Z * mem_block)) (a : Z) (b b' : mem_block) :
  wf hdr st (R1 ++ r :: R2) ->
  r_blocks r = bs1 ++ (a, b) :: bs2 ->
  next b' = next b -> size b' = size b -> block_ok hdr r (a, b') ->
  wf hdr (with_heap (<[a := b']> (heap st)) st)
     (R1 ++ with_blocks (bs1 ++ (a, b') :: bs2) r :: R2).
Proof.
  intros Hw Hr Hn Hs Hb.
  apply wf_elim in Hw as (Hst & Hl & Hrw & Ha & Hnd).
  rewrite (flat_focus_block R1 R2 r bs1 bs2 (a, b) Hr) in Hst, Hl, Hnd.
  apply wf_intro; simpl.
  - rewrite flat_focus.
    replace (flat R1 ++ (bs1 ++ (a, b') :: bs2) ++ flat R2)
      with ((flat R1 ++ bs1) ++ (a, b') :: (bs2 ++ flat R2))
      by (rewrite <- !app_assoc; reflexivity).
    eapply stored_update; eassumption.
  - rewrite flat_focus.
    replace (flat R1 ++ (bs1 ++ (a, b') :: bs2) ++ flat R2)
      with ((flat R1 ++ bs1) ++ (a, b') :: (bs2 ++ flat R2))
      by (rewrite <- !app_assoc; reflexivity).
    eapply linked_update; eassumption.
  - apply Forall_mid in Hrw as [Hrw Hr0]. apply Forall_mid. split; [exact Hrw|].
    eapply region_wf_update; eassumption.
  - eapply all_apart_replace; [exact Ha| |]; reflexivity.
Qed.

(** ** The loops of [free_unsafe] *)

Lemma region_scan_spec (st : state) (rs rend : Z) (bs : list (Z * mem_block)) :
  forall (p q : Z) (fuel : nat),
    lseg (heap st) p bs q ->
    Forall (fun ab => rs <= fst ab < rend) bs ->
    q = NULL \/ q < rs \/ rend <= q ->
    (length bs <= fuel)%nat ->
    (all_free bs -> region_scan fuel rs rend p st = Ok ((true, q), st))
    /\ (~ all_free bs -> exists c, region_scan fuel rs rend p st = Ok ((false, c), st)).
Proof.
  induction bs as [|ab bs IH]; intros p q fuel Hl Hr Hq Hf.
  - simpl in Hl. subst q. split.
    + intros _.
      assert (Hout : (p =? NULL) || negb (rs <=? p) || negb (p <? rend) = true).
      { destruct Hq as [->|[H|H]].
        - reflexivity.
        - apply Z.leb_gt in H. rewrite H. simpl. destruct (p =? NULL); reflexivity.
        - apply Z.ltb_ge in H. rewrite H. simpl. apply orb_true_r. }
      destruct fuel; simpl; rewrite Hout; reflexivity.
    + intros H. exfalso. apply H. constructor.
  - destruct Hl as (Hp & Hnn & Hlk & Hl). inversion Hr as [|? ? Hab Hr']; subst.
    destruct fuel as [|fuel]; [simpl in Hf; lia|]. simpl in Hf.
    assert (Hin : (fst ab =? NULL) || negb (rs <=? fst ab) || negb (fst ab <? rend) = false).
    { destruct (fst ab =? NULL) eqn:E; [apply Z.eqb_eq in E; contradiction|].
      destruct Hab as [H1 H2]. apply Z.leb_le in H1. apply Z.ltb_lt in H2.
      rewrite H1, H2. reflexivity. }
    simpl. rewrite Hin. rewrite (bind_ok _ _ _ _ _ (load_ok _ _ _ Hnn Hlk)).
    destruct (IH (next (snd ab)) q fuel Hl Hr' Hq ltac:(lia)) as [IH1 IH2].
    destruct (usage (snd ab) =? 0) eqn:Eu.
    + apply Z.eqb_eq in Eu. split.
      * intros Hall. inversion Hall; subst. apply IH1. assumption.
      * intros Hall. apply IH2. intros Hx. apply Hall. constructor; assumption.
    + apply Z.eqb_neq in Eu. split.
      * intros Hall. inversion Hall; subst. contradiction.
      * intros _. eexists. reflexivity.
Qed.

Lemma find_pred_spec (st : state) (rs x : Z) (bx : mem_block) :
  rs <> NULL ->
  forall (l0 : list (Z * mem_block)) (p : Z) (fuel : nat),
    lseg (heap st) p (l0 ++ [(x, bx)]) rs ->
    ~ In rs (addrs (l0 ++ [(x, bx)])) ->
    (length l0 < fuel)%nat ->
    find_pred fuel rs p st = Ok (x, st).
Proof.
  intros Hrs. induction l0 as [|ab l0 IH]; intros p fuel Hl Hn Hf.
  - simpl in Hl. destruct Hl as (-> & Hnn & Hlk & Hq). simpl in *.
    destruct fuel as [|fuel]; [lia|]. simpl.
    rewrite (bind_ok _ _ _ _ _ (load_ok _ _ _ Hnn Hlk)).
    rewrite Hq, Z.eqb_refl, orb_true_r. reflexivity.
  - simpl in Hl. destruct Hl as (-> & Hnn & Hlk & Hl).
    destruct fuel as [|fuel]; [simpl in Hf; lia|]. simpl in Hf. simpl.
    rewrite (bind_ok _ _ _ _ _ (load_ok _ _ _ Hnn Hlk)).
    assert (Hnext : next (snd ab) <> NULL /\ next (snd ab) <> rs).
    { simpl in Hn. destruct l0 as [|ab' l0]; simpl in Hl, Hn.
      - destruct Hl as (-> & Hx & _). split; [exact Hx|]. intros Hy. apply Hn. auto.
      - destruct Hl as (-> & Hx & _). split; [exact Hx|]. intros Hy. apply Hn. auto. }
    destruct Hnext as [H1 H2].
    apply Z.eqb_neq in H1, H2. rewrite H1, H2. simpl.
    apply IH; [exact Hl| |lia].
    intros Hx. apply Hn. simpl. right. exact Hx.
Qed.

Lemma stored_filter (h : gmap Z mem_block) (l : list (Z * mem_block)) (lo len : Z) :
  stored h l ->
  Forall (fun ab => in_range lo len (fst ab) = false) l ->
  stored (filter (fun kv => negb (in_range lo len (fst kv)) = true) h) l.
Proof.
  unfold stored. intros Hs Ho. rewrite List.Forall_forall in *.
  intros ab Hin. destruct (Hs ab Hin) as [Hn Hl]. split; [exact Hn|].
  apply map_lookup_filter_Some. split; [exact Hl|]. simpl.
  rewrite (Ho ab Hin). reflexivity.
Qed.

Lemma in_range_inside (r : region) (x : Z) :
  in_range (r_start r) (r_size r) x = false <-> ~ inside r x.
Proof.
  unfold in_range, inside, r_end. rewrite andb_false_iff, Z.leb_gt, Z.ltb_ge. lia.
Qed.

Lemma header_of_payload (a : Z) :
  0 <= a < two64 -> header_of hdr (payload hdr a) = a.
Proof. intros H. unfold header_of, payload. zdiv. Qed.

(** ** Release *)

Lemma block_ok_released (r : region) (a : Z) (b : mem_block) :
  block_ok hdr r (a, b) -> block_ok hdr r (a, set_usage 0 b).
Proof. intros (H1 & H2 & H3 & _). repeat split; auto. Qed.

Lemma block_ok_relinked (r : region) (a q : Z) (b : mem_block) :
  block_ok hdr r (a, b) -> block_ok hdr r (a, set_next q b).
Proof. intros H. exact H. Qed.

Lemma first_addr_outside (R2 : list region) (r : region) :
  Forall (region_wf hdr) R2 -> Forall (apart r) R2 ->
  let q := first_addr (flat R2) in
  q = NULL \/ q < r_start r \/ r_end r <= q.
Proof.
  intros Hw Ha q. subst q. destruct (flat R2) as [|ab l] eqn:E; [left; reflexivity|].
  right. simpl.
  assert (Hin : In ab (flat R2)) by (rewrite E; left; reflexivity).
  pose proof (flat_outside R2 r ab Hw Ha Hin) as Ho. unfold inside in Ho. lia.
Qed.

Lemma flat_all_outside (regs : list region) (r : region) :
  Forall (region_wf hdr) regs -> Forall (apart r) regs ->
  Forall (fun ab => in_range (r_start r) (r_size r) (fst ab) = false) (flat regs).
Proof.
  intros Hw Ha. apply List.Forall_forall. intros ab Hin.
  apply in_range_inside. eapply flat_outside; eassumption.
Qed.

(** The states [free_unsafe] ends in, on a well-formed state and the
    payload of a header [(a, b)] of the region [r]. *)
Lemma free_unsafe_run (fuel : nat) (e : env) (st : state) (R1 R2 : list region)
    (r : region) (bs1 bs2 : list (Z * mem_block)) (a : Z) (b : mem_block) :
  wf hdr st (R1 ++ r :: R2) ->
  r_blocks r = bs1 ++ (a, b) :: bs2 ->
  (length (flat (R1 ++ r :: R2)) <= fuel)%nat ->
  let released := bs1 ++ (a, set_usage 0 b) :: bs2 in
  let st1 := with_heap (<[a := set_usage 0 b]> (heap st)) st in
  let after := first_addr (flat R2) in
  let h2 := if munmap_ok e
            then filter (fun kv => negb (in_range (r_start r) (r_size r) (fst kv)) = true)
                        (heap st1)
            else heap st1 in
  let tr := (trace st ++ [EMunmap (r_start r) (r_size r) (munmap_ok e)])
              ++ (if munmap_ok e then [] else [EPerror "munmap"]) in
  payload hdr a <> NULL
  /\ wf hdr st1 (R1 ++ with_blocks released r :: R2)
  /\ (~ all_free released ->
      free_unsafe hdr fuel e (payload hdr a) st = Ok (tt, st1))
  /\ (all_free released ->
      (R1 = [] ->
       g_head st = r_start r
       /\ free_unsafe hdr fuel e (payload hdr a) st
          = Ok (tt, State after (g_allocations st) h2 tr)
       /\ wf hdr (State after (g_allocations st) h2 tr) R2)
      /\ (forall R0 rp bsp x bx,
            R1 = R0 ++ [rp] -> r_blocks rp = bsp ++ [(x, bx)] ->
            g_head st <> r_start r
            /\ next bx = r_start r
            /\ free_unsafe hdr fuel e (payload hdr a) st
               = Ok (tt, State (g_head st) (g_allocations st)
                           (<[x := set_next after bx]> h2) tr)
            /\ wf hdr (State (g_head st) (g_allocations st)
                         (<[x := set_next after bx]> h2) tr)
                  (R0 ++ with_blocks (bsp ++ [(x, set_next after bx)]) rp :: R2))).
Proof.
  intros Hw Hr Hf released st1 after h2 tr.
  pose proof (wf_elim _ _ Hw) as (Hst & Hl & Hrw & Ha & Hnd).
  pose proof Hrw as Hrw'. apply Forall_mid in Hrw' as [Hrw12 Hrwr].
  apply Forall_app in Hrw12 as [Hrw1 Hrw2].
  pose proof Ha as Ha'. apply all_apart_mid in Ha' as (Ha12 & Ha1 & Ha2).
  assert (Hin : In (a, b) (r_blocks r)) by (rewrite Hr; apply in_elt).
  destruct (region_inside r (a, b) Hrwr Hin) as (Hia & Hea & Hok). simpl in Hia, Hea.
  pose proof Hrwr as (Hr0 & Hr1 & Hr2 & _).
  assert (Hsz : hdr <= size b) by (destruct Hok as (_ & _ & H & _); exact H).
  unfold inside in Hia.
  assert (Hptr : payload hdr a = a + hdr) by (unfold payload; zdiv).
  assert (Hpn : payload hdr a <> NULL) by (rewrite Hptr; unfold NULL; lia).
  assert (Hho : header_of hdr (payload hdr a) = a)
    by (apply header_of_payload; unfold two64, half in *; lia).
  assert (Hw1 : wf hdr st1 (R1 ++ with_blocks released r :: R2)).
  { apply wf_update with (b := b); try assumption; try reflexivity.
    apply block_ok_released. exact Hok. }
  split; [exact Hpn|]. split; [exact Hw1|].
  pose proof (wf_elim _ _ Hw1) as (Hst1 & Hl1 & Hrw1' & _ & _).
  rewrite flat_focus in Hst1, Hl1.
  apply stored_app in Hst1 as [Hs1a Hst1]. apply stored_app in Hst1 as [Hs1b Hs1c].
  apply linked_app in Hl1 as (m1 & Hl1a & Hl1). apply linked_app in Hl1 as (m2 & Hl1b & Hl1c).
  assert (Hr0wf : region_wf hdr (with_blocks released r)).
  { apply Forall_mid in Hrw1' as [_ H]. exact H. }
  destruct (region_first _ Hr0wf) as (bf & rest & Hfirst). simpl in Hfirst.
  assert (Hm1 : m1 = r_start r).
  { rewrite Hfirst in Hl1b. simpl in Hl1b. apply Hl1b. }
  subst m1.
  assert (Hm2 : m2 = after).
  { unfold after. apply linked_head. exact Hl1c. }
  subst m2.
  assert (Hbf : r_start r <> NULL /\ heap st1 !! r_start r = Some bf).
  { apply (stored_in _ released); [exact Hs1b|]. rewrite Hfirst. left. reflexivity. }
  destruct Hbf as [Hrsn Hbf].
  assert (Hbfsz : region_size bf = r_size r).
  { destruct Hr0wf as (_ & _ & _ & _ & Hokall). simpl in Hokall.
    rewrite Hfirst in Hokall. inversion Hokall as [|? ? (_ & H & _) _]; subst. exact H. }
  assert (Hend : wrap (r_start r + r_size r) = r_end r) by (unfold r_end in *; zdiv).
  assert (Hscan : lseg (heap st1) (r_start r) released after)
    by (apply lseg_iff; auto).
  assert (Hrange : Forall (fun ab => r_start r <= fst ab < r_end r) released).
  { apply List.Forall_forall. intros ab Hab.
    apply (region_inside (with_blocks released r) ab Hr0wf Hab). }
  assert (Hlen : (length released <= fuel)%nat).
  { rewrite flat_app in Hf. simpl in Hf. rewrite Hr in Hf.
    unfold released. rewrite !length_app in *. simpl in *. lia. }
  destruct (region_scan_spec st1 (r_start r) (r_end r) released (r_start r) after fuel
              Hscan Hrange (first_addr_outside R2 r Hrw2 Ha2) Hlen) as [Hfree Hbusy].
  assert (Hstart : free_unsafe hdr fuel e (payload hdr a) st =
    (let* scan := region_scan fuel (r_start r) (r_end r) (r_start r) in
     let next_region := snd scan in
     if negb (fst scan) then ret tt
     else
       let* ok := munmap e (r_start r) (r_size r) in
       (if ok then ret tt else emit (EPerror "munmap")) ;;
       let* head := get_head in
       if head =? r_start r then set_head next_region
       else
         let* current := find_pred fuel (r_start r) head in
         let* cb := load current in
         if next cb =? NULL then ret tt
         else modify current (set_next next_region)) st1).
  { unfold free_unsafe.
    destruct (payload hdr a =? NULL) eqn:E; [apply Z.eqb_eq in E; contradiction|].
    rewrite Hho.
    assert (Hab : a <> NULL /\ heap st !! a = Some b).
    { apply (stored_in _ (flat (R1 ++ r :: R2))); [exact Hst|].
      apply in_flat. exists r. split; [apply in_elt|exact Hin]. }
    destruct Hab as [Han Hab].
    rewrite (bind_ok _ _ _ _ _ (modify_ok _ _ _ _ Han Hab)). fold st1.
    assert (Hab1 : heap st1 !! a = Some (set_usage 0 b)) by apply lookup_insert_eq.
    rewrite (bind_ok _ _ _ _ _ (load_ok _ _ _ Han Hab1)).
    assert (Hrs : region_start (set_usage 0 b) = r_start r)
      by (destruct Hok as (H & _); exact H).
    rewrite Hrs. rewrite (bind_ok _ _ _ _ _ (load_ok _ _ _ Hrsn Hbf)).
    rewrite Hbfsz, Hend. reflexivity. }
  split.
  - intros Hbz. destruct (Hbusy Hbz) as (c & Hc).
    rewrite Hstart. rewrite (bind_ok _ _ _ _ _ Hc). reflexivity.
  - intros Hfz. specialize (Hfree Hfz).
    assert (Hmun : forall k : bool -> M unit,
               (let* ok := munmap e (r_start r) (r_size r) in
                (if ok then ret tt else emit (EPerror "munmap")) ;; k ok) st1
               = k (munmap_ok e) (State (g_head st) (g_allocations st) h2 tr)).
    { intros k. unfold bind, munmap, emit, ret, tr, h2. simpl.
      destruct (munmap_ok e); simpl; [rewrite app_nil_r|]; reflexivity. }
    assert (Hs2 : forall regs, Forall (region_wf hdr) regs -> Forall (apart r) regs ->
                          stored (heap st1) (flat regs) -> stored h2 (flat regs)).
    { intros regs Hwr Har Hsr. unfold h2. destruct (munmap_ok e); [|exact Hsr].
      apply stored_filter; [exact Hsr|]. apply flat_all_outside; assumption. }
    split.
    + intros ->. simpl in Hl1a.
      assert (Hhead : g_head st = r_start r) by exact Hl1a.
      split; [exact Hhead|]. split.
      * rewrite Hstart. rewrite (bind_ok _ _ _ _ _ Hfree).
        cbv beta zeta. cbn [fst snd negb].
        rewrite (Hmun (fun _ => let* head := get_head in
                        if head =? r_start r then set_head after
                        else let* current := find_pred fuel (r_start r) head in
                             let* cb := load current in
                             if next cb =? NULL then ret tt
                             else modify current (set_next after))).
        unfold bind at 1. unfold get_head. simpl g_head.
        rewrite Hhead, Z.eqb_refl. reflexivity.
      * apply wf_intro; simpl; try assumption.
        -- apply Hs2; assumption.
    + intros R0 rp bsp x bx -> Hrp.
      assert (Hflat1 : flat (R0 ++ [rp]) = (flat R0 ++ bsp) ++ [(x, bx)]).
      { rewrite flat_app. simpl. rewrite Hrp, app_nil_r, app_assoc. reflexivity. }
      rewrite Hflat1 in Hs1a, Hl1a.
      assert (Hout1 : forall ab, In ab ((flat R0 ++ bsp) ++ [(x, bx)]) ->
                           ~ inside r (fst ab)).
      { intros ab Hab. rewrite <- Hflat1 in Hab.
        exact (flat_outside _ r ab Hrw1 Ha1 Hab). }
      assert (Hrsin : inside r (r_start r)) by (unfold inside, r_end; lia).
      assert (Hhead : g_head st <> r_start r).
      { intros Heq. apply linked_app in Hl1a as (m & Hla & Hlb).
        destruct (flat R0 ++ bsp) as [|ab l] eqn:El.
        - simpl in Hla, Hlb. destruct Hlb as [Hx _]. subst m.
          apply (Hout1 (x, bx)); [apply in_elt|]. simpl. rewrite <- Hx, Heq. exact Hrsin.
        - simpl in Hla. destruct Hla as [Hx _].
          apply (Hout1 ab); [left; reflexivity|]. rewrite <- Hx, Heq. exact Hrsin. }
      assert (Hnbx : next bx = r_start r).
      { apply linked_app in Hl1a as (m & Hla & Hlb). simpl in Hlb. apply Hlb. }
      assert (Hs1a2 : stored h2 ((flat R0 ++ bsp) ++ [(x, bx)])).
      { rewrite <- Hflat1. apply Hs2; try assumption. rewrite Hflat1. exact Hs1a. }
      assert (Hxl : x <> NULL /\ h2 !! x = Some bx).
      { apply (stored_in _ _ _ _ Hs1a2). apply in_elt. }
      destruct Hxl as [Hxn Hxl].
      assert (Hnotin : ~ In (r_start r) (addrs ((flat R0 ++ bsp) ++ [(x, bx)]))).
      { intros Hx. apply in_map_iff in Hx as (ab & Heq & Hab).
        apply (Hout1 ab Hab). rewrite Heq. exact Hrsin. }
      assert (Hfp : find_pred fuel (r_start r) (g_head st)
                      (State (g_head st) (g_allocations st) h2 tr)
                    = Ok (x, State (g_head st) (g_allocations st) h2 tr)).
      { apply (find_pred_spec _ _ x bx Hrsn (flat R0 ++ bsp)).
        - apply lseg_iff. split; [exact Hs1a2|exact Hl1a].
        - exact Hnotin.
        - rewrite flat_app in Hf. simpl in Hf. rewrite Hflat1, Hr in Hf.
          rewrite !length_app in Hf. simpl in Hf. rewrite length_app. lia. }
      split; [exact Hhead|]. split; [exact Hnbx|]. split.
      * rewrite Hstart. rewrite (bind_ok _ _ _ _ _ Hfree).
        cbv beta zeta. cbn [fst snd negb].
        rewrite (Hmun (fun _ => let* head := get_head in
                        if head =? r_start r then set_head after
                        else let* current := find_pred fuel (r_start r) head in
                             let* cb := load current in
                             if next cb =? NULL then ret tt
                             else modify current (set_next after))).
        unfold bind at 1. unfold get_head. cbn [g_head].
        destruct (g_head st =? r_start r) eqn:E; [apply Z.eqb_eq in E; contradiction|].
        rewrite (bind_ok _ _ _ _ _ Hfp).
        rewrite (bind_ok _ _ _ _ _
                   (load_ok x bx (State (g_head st) (g_allocations st) h2 tr) Hxn Hxl)).
        rewrite Hnbx.
        destruct (r_start r =? NULL) eqn:E2; [apply Z.eqb_eq in E2; contradiction|].
        rewrite (modify_ok x _ bx (State (g_head st) (g_allocations st) h2 tr) Hxn Hxl).
        reflexivity.
      * assert (Hnd2 : List.NoDup (addrs (((flat R0 ++ bsp) ++ [(x, bx)]) ++ flat R2))).
        { rewrite <- Hflat1, <- flat_app. apply wf_NoDup; [|exact Ha12].
          apply Forall_app. split; assumption. }
        assert (Hre : forall y, (flat R0 ++ (bsp ++ [y]) ++ flat R2)
                                = (flat R0 ++ bsp) ++ y :: flat R2).
        { intros y. rewrite <- !app_assoc. reflexivity. }
        rewrite <- app_assoc in Hnd2. simpl in Hnd2.
        apply wf_intro; simpl.
        -- rewrite flat_focus, Hre. apply stored_update with (b := bx); [|exact Hnd2].
           apply stored_app. apply stored_app in Hs1a2 as [Hp1 Hp2]. split; [exact Hp1|].
           inversion Hp2; subst. constructor; [assumption|]. apply Hs2; assumption.
        -- rewrite flat_focus, Hre. apply linked_app in Hl1a as (m & Hla & Hlb).
           apply linked_app. exists m. split; [exact Hla|]. simpl in *.
           split; [apply Hlb|exact Hl1c].
        -- apply Forall_mid. apply Forall_app in Hrw1 as [Hrw0 Hrwp].
           split; [apply Forall_app; split; assumption|].
           inversion Hrwp as [|? ? Hrpw _]; subst.
           apply (region_wf_update rp bsp [] x bx (set_next after bx) Hrpw Hrp);
             [reflexivity|].
           apply block_ok_relinked.
           apply (region_inside rp (x, bx) Hrpw). rewrite Hrp. apply in_elt.
        -- rewrite <- app_assoc in Ha12. simpl in Ha12.
           eapply all_apart_replace; [exact Ha12| |]; reflexivity.
Qed.

Lemma regions_last (R1 : list region) :
  R1 <> [] -> Forall (region_wf hdr) R1 ->
  exists R0 rp bsp x bx, R1 = R0 ++ [rp] /\ r_blocks rp = bsp ++ [(x, bx)].
Proof.
  intros Hne Hw. destruct (exists_last Hne) as (R0 & rp & ->).
  apply Forall_app in Hw as [_ Hw]. inversion Hw as [|? ? Hrp _]; subst.
  destruct (region_first rp Hrp) as (b0 & bs & Hb).
  assert (Hbn : r_blocks rp <> []) by (rewrite Hb; discriminate).
  destruct (exists_last Hbn) as (bsp & [x bx] & Hl).
  exists R0, rp, bsp, x, bx. auto.
Qed.


(** ** Allocation on a well-formed state *)

Lemma chain_unique (h : gmap Z mem_block) (l1 : list (Z * mem_block)) :
  forall (l2 : list (Z * mem_block)) (p : Z),
    chain h p l1 -> chain h p l2 -> l1 = l2.
Proof.
  unfold chain. induction l1 as [|[a b] l1 IH]; intros l2 p H1 H2.
  - simpl in H1. subst p. destruct l2 as [|ab l2]; [reflexivity|].
    destruct H2 as (Hp & Hn & _). congruence.
  - destruct H1 as (Hp & Hn & Hl & H1). simpl in *. subst p.
    destruct l2 as [|[a2 b2] l2]; [simpl in H2; congruence|].
    destruct H2 as (Hp2 & _ & Hl2 & H2). simpl in *. subst a2.
    rewrite Hl in Hl2. injection Hl2 as <-. f_equal. eapply IH; eassumption.
Qed.

Lemma in_flat_split (regs : list region) (a : Z) (b : mem_block) :
  In (a, b) (flat regs) ->
  exists R1 r R2 bs1 bs2,
    regs = R1 ++ r :: R2 /\ r_blocks r = bs1 ++ (a, b) :: bs2.
Proof.
  intros Hin. apply in_flat in Hin as (r & Hr & Hin).
  apply in_split in Hr as (R1 & R2 & ->). apply in_split in Hin as (bs1 & bs2 & Hb).
  exists R1, r, R2, bs1, bs2. auto.
Qed.

Lemma laid_out_split_bounds (bs1 bs2 : list (Z * mem_block)) (c lo hi : Z) (b : mem_block) :
  laid_out lo hi (bs1 ++ (c, b) :: bs2) ->
  Forall (fun ab => 0 < size (snd ab)) (bs1 ++ (c, b) :: bs2) ->
  Forall (fun ab => fst ab < c) bs1
  /\ Forall (fun ab => c + size b <= fst ab) bs2.
Proof.
  intros Hl Hs. apply laid_out_app in Hl as (m & H1 & H2).
  apply Forall_app in Hs as [Hs1 Hs2]. inversion Hs2 as [|? ? Hb Hs2']; subst.
  simpl in H2. destruct H2 as [Hm H2]. simpl in Hm. subst m.
  destruct (laid_out_bounds _ _ _ H1 Hs1) as [_ Ha1].
  destruct (laid_out_bounds _ _ _ H2 Hs2') as [_ Ha2].
  split.
  - rewrite List.Forall_forall in *. intros x Hx.
    specialize (Ha1 x Hx). specialize (Hs1 x Hx). simpl in *. lia.
  - eapply Forall_impl; [exact Ha2|]. simpl. intros x Hx. lia.
Qed.

Lemma find_tail_spec (st : state) (t : Z) (bt : mem_block) :
  forall (l0 : list (Z * mem_block)) (p : Z) (fuel : nat),
    lseg (heap st) p (l0 ++ [(t, bt)]) NULL ->
    (length l0 < fuel)%nat ->
    find_tail fuel p st = Ok (t, st).
Proof.
  induction l0 as [|ab l0 IH]; intros p fuel Hl Hf.
  - simpl in Hl. destruct Hl as (-> & Hnn & Hlk & Hq). simpl in *.
    destruct fuel as [|fuel]; [lia|]. simpl.
    rewrite (bind_ok _ _ _ _ _ (load_ok _ _ _ Hnn Hlk)).
    rewrite Hq. reflexivity.
  - simpl in Hl. destruct Hl as (-> & Hnn & Hlk & Hl).
    destruct fuel as [|fuel]; [simpl in Hf; lia|]. simpl in Hf. simpl.
    rewrite (bind_ok _ _ _ _ _ (load_ok _ _ _ Hnn Hlk)).
    assert (Hnext : next (snd ab) <> NULL).
    { destruct l0 as [|ab' l0]; simpl in Hl; destruct Hl as (-> & Hx & _); exact Hx. }
    apply Z.eqb_neq in Hnext. rewrite Hnext.
    apply IH; [exact Hl|lia].
Qed.

Lemma map_length_ge (e : env) (need : Z) :
  0 < getpagesize e < 2147483648 -> 0 <= need < half ->
  need <= map_length e need /\ map_length e need < need + getpagesize e.
Proof.
  intros Hp Hn. unfold map_length.
  destruct (need mod getpagesize e =? 0) eqn:E.
  - apply Z.eqb_eq in E.
    assert (need / getpagesize e * getpagesize e = need).
    { rewrite (Z.div_mod need (getpagesize e)) at 2 by lia. lia. }
    unfold wrap, two64, half in *. rewrite Z.mod_small; lia.
  - apply Z.eqb_neq in E.
    pose proof (Z.div_mod need (getpagesize e) ltac:(lia)) as Hd.
    pose proof (Z.mod_pos_bound need (getpagesize e) ltac:(lia)) as Hm.
    assert (Hq : 0 <= need / getpagesize e) by (apply Z.div_pos; lia).
    assert (Hq2 : need / getpagesize e <= need).
    { apply Z.div_le_upper_bound; [lia|]. nia. }
    unfold wrap, two64, half in *.
    rewrite (Z.mod_small (need / getpagesize e + 1)) by lia.
    assert (Hx : (need / getpagesize e + 1) * getpagesize e
                 = need - need mod getpagesize e + getpagesize e) by lia.
    rewrite Hx. rewrite Z.mod_small; lia.
Qed.

Lemma wf_in_bounds (st : state) (regs : list region) (need : Z) :
  wf hdr st regs -> 0 <= need < half ->
  Forall (in_bounds need) (flat regs).
Proof.
  intros Hw Hn. apply wf_elim in Hw as (_ & _ & Hrw & _ & _).
  apply List.Forall_forall. intros ab Hin.
  apply in_flat in Hin as (r & Hr & Hin).
  rewrite List.Forall_forall in Hrw. specialize (Hrw r Hr).
  destruct (region_inside r ab Hrw Hin) as (Hi & He & (_ & _ & Hs & Hu)).
  destruct Hrw as (H0 & _ & H2 & _). unfold inside in Hi.
  unfold in_bounds, two64, half in *. lia.
Qed.

Lemma picks_first_weak (need : Z) (l : list (Z * mem_block)) (r : Z) :
  picks_first need l r -> r = NULL \/ exists b, In (r, b) l /\ candidate need b.
Proof.
  intros [(-> & _)|(l1 & b & l2 & -> & Hc & _)]; [left; reflexivity|].
  right. exists b. split; [apply in_elt|exact Hc].
Qed.

Lemma picks_best_weak (need : Z) (l : list (Z * mem_block)) (r : Z) :
  picks_best need l r -> r = NULL \/ exists b, In (r, b) l /\ candidate need b.
Proof.
  intros [(-> & _)|(l1 & b & l2 & -> & Hc & _)]; [left; reflexivity|].
  right. exists b. split; [apply in_elt|exact Hc].
Qed.

Lemma picks_worst_weak (need : Z) (l : list (Z * mem_block)) (r : Z) :
  picks_worst need l r -> r = NULL \/ exists b, In (r, b) l /\ candidate need b.
Proof.
  intros [(-> & _)|(l1 & b & l2 & -> & Hc & _)]; [left; reflexivity|].
  right. exists b. split; [apply in_elt|exact Hc].
Qed.

Lemma reuse_run (fuel : nat) (e : env) (need : Z) (st : state)
    (l : list (Z * mem_block)) :
  chain (heap st) (g_head st) l -> (length l <= fuel)%nat -> 0 <= need ->
  Forall (in_bounds need) l ->
  exists r, reuse fuel e need st = Ok (r, st)
            /\ (r = NULL \/ exists b, In (r, b) l /\ candidate need b).
Proof.
  intros Hc Hf Hn Hb. unfold reuse.
  destruct (String.eqb _ "first_fit").
  { destruct (first_fit_run fuel need st l Hc Hf Hn Hb) as (r & Hr & Hp).
    exists r. split; [exact Hr|]. eapply picks_first_weak; exact Hp. }
  destruct (String.eqb _ "best_fit").
  { destruct (best_fit_run fuel need st l Hc Hf Hn Hb) as (r & Hr & Hp).
    exists r. split; [exact Hr|]. eapply picks_best_weak; exact Hp. }
  destruct (String.eqb _ "worst_fit").
  { destruct (worst_fit_run fuel need st l Hc Hf Hn Hb) as (r & Hr & Hp).
    exists r. split; [exact Hr|]. eapply picks_worst_weak; exact Hp. }
  exists NULL. split; [reflexivity|left; reflexivity].
Qed.

Lemma wf_same_heap (st st' : state) (regs : list region) :
  heap st' = heap st -> g_head st' = g_head st ->
  wf hdr st regs -> wf hdr st' regs.
Proof. unfold wf. intros -> ->. tauto. Qed.

Lemma wf_scribbled (e : env) (p len : Z) (st : state) (regs : list region) :
  wf hdr st regs -> wf hdr (scribbled e p len st) regs.
Proof.
  intros H. unfold scribbled. destruct (scribble_on e); [|exact H].
  eapply wf_same_heap; [| |exact H]; reflexivity.
Qed.

Lemma keeps_live_refl (l : list (Z * mem_block)) : keeps_live l l.
Proof. intros a b Hin Hu. exists b. auto. Qed.

(** Replacing one header by headers that keep its address in use. *)
Lemma keeps_live_replace (l1 l2 new : list (Z * mem_block)) (a : Z) (b : mem_block) :
  (usage b <> 0 -> exists b', In (a, b') new /\ usage b' <> 0) ->
  keeps_live (l1 ++ (a, b) :: l2) (l1 ++ new ++ l2).
Proof.
  intros Hnew x y Hin Hu. apply in_app_iff in Hin as [Hin|[Heq|Hin]].
  - exists y. split; [|exact Hu]. apply in_app_iff. auto.
  - injection Heq as <- <-. destruct (Hnew Hu) as (b' & Hin' & Hu').
    exists b'. split; [|exact Hu']. rewrite !in_app_iff. auto.
  - exists y. split; [|exact Hu]. rewrite !in_app_iff. auto.
Qed.

Lemma wf_split (st st' : state) (R1 R2 : list region) (r : region)
    (bs1 bs2 : list (Z * mem_block)) (c id need : Z) (b : mem_block) :
  wf hdr st (R1 ++ r :: R2) ->
  r_blocks r = bs1 ++ (c, b) :: bs2 ->
  usage b <> 0 -> hdr <= need -> need <= size b - usage b ->
  let new := c + usage b in
  let nb := MemBlock id EmptyString (size b - usage b) need
                     (region_start b) (region_size b) (next b) in
  let b1 := set_next new (set_size (usage b) b) in
  heap st' = <[c := b1]> (<[new := nb]> (heap st)) ->
  g_head st' = g_head st ->
  wf hdr st' (R1 ++ with_blocks (bs1 ++ (c, b1) :: (new, nb) :: bs2) r :: R2).
Proof.
  intros Hw Hr Hu Hn Hfit new nb b1 Hheap Hhead.
  pose proof (wf_elim _ _ Hw) as (Hst & Hl & Hrw & Ha & Hnd).
  pose proof Hrw as Hrw'. apply Forall_mid in Hrw' as [Hrw12 Hrwr].
  apply Forall_app in Hrw12 as [Hrw1 Hrw2].
  pose proof Ha as Ha'. apply all_apart_mid in Ha' as (Ha12 & Ha1 & Ha2).
  assert (Hin : In (c, b) (r_blocks r)) by (rewrite Hr; apply in_elt).
  destruct (region_inside r (c, b) Hrwr Hin) as (Hic & Hec & Hok). simpl in Hic, Hec.
  destruct Hok as (Hrs & Hrz & Hsz & Hus). simpl in Hrs, Hrz, Hsz, Hus.
  assert (Hub : hdr <= usage b <= size b) by (destruct Hus; [contradiction|assumption]).
  pose proof Hrwr as (Hr0 & Hr1 & Hr2 & Hlo & Hokall).
  rewrite Hr in Hlo, Hokall.
  pose proof (region_sizes r Hrwr) as Hsizes. rewrite Hr in Hsizes.
  destruct (laid_out_split_bounds _ _ _ _ _ _ Hlo Hsizes) as [Hb1 Hb2].
  unfold inside in Hic.
  assert (Hnew_in : inside r new) by (unfold inside, new; lia).
  assert (Hcn : c <> new) by (unfold new; lia).
  assert (Hfresh : ~ In new (addrs (flat (R1 ++ r :: R2)))).
  { intros Hx. apply in_map_iff in Hx as (ab & Heq & Hab).
    rewrite flat_app in Hab. simpl in Hab. rewrite Hr in Hab.
    rewrite !in_app_iff in Hab. simpl in Hab.
    destruct Hab as [Hab|[[Hab|[Hab|Hab]]|Hab]].
    - apply (flat_outside R1 r ab Hrw1 Ha1 Hab). rewrite Heq. exact Hnew_in.
    - rewrite List.Forall_forall in Hb1. specialize (Hb1 ab Hab). unfold new in *. lia.
    - subst ab. simpl in Heq. contradiction.
    - rewrite List.Forall_forall in Hb2. specialize (Hb2 ab Hab). unfold new in *. lia.
    - apply (flat_outside R2 r ab Hrw2 Ha2 Hab). rewrite Heq. exact Hnew_in. }
  rewrite (flat_focus_block R1 R2 r bs1 bs2 (c, b) Hr) in Hst, Hl, Hnd, Hfresh.
  assert (Hre : flat R1 ++ (bs1 ++ (c, b1) :: (new, nb) :: bs2) ++ flat R2
                = (flat R1 ++ bs1) ++ (c, b1) :: (new, nb) :: (bs2 ++ flat R2)).
  { rewrite <- !app_assoc. reflexivity. }
  unfold addrs in Hfresh, Hnd. rewrite map_app in Hfresh, Hnd. simpl in Hfresh, Hnd.
  pose proof (List.NoDup_remove_2 _ _ _ Hnd) as Hcfresh.
  rewrite in_app_iff in Hfresh, Hcfresh. simpl in Hfresh.
  apply stored_app in Hst as [HsX HsY]. inversion HsY as [|? ? [Hcn0 Hcl] HsY']; subst.
  simpl in Hcn0, Hcl.
  apply wf_intro.
  - rewrite flat_focus, Hre, Hheap. apply stored_app. split.
    + apply stored_insert_other; [apply stored_insert_other; [exact HsX|]|];
        unfold addrs; tauto.
    + constructor; [split; [exact Hcn0|apply lookup_insert_eq]|].
      constructor.
      * simpl. split; [unfold new, NULL in *; lia|].
        rewrite lookup_insert_ne by exact Hcn. apply lookup_insert_eq.
      * apply stored_insert_other; [apply stored_insert_other; [exact HsY'|]|];
          unfold addrs; tauto.
  - rewrite flat_focus, Hre, Hhead.
    apply linked_app in Hl as (m & H1 & H2). apply linked_app. exists m.
    split; [exact H1|]. simpl in *. destruct H2 as [Hm H2]. auto.
  - apply Forall_mid. split; [apply Forall_app; split; assumption|].
    repeat split; try assumption.
    + simpl. apply laid_out_app in Hlo as (m & H1 & H2). apply laid_out_app.
      exists m. split; [exact H1|]. simpl in *. destruct H2 as [Hm H2].
      split; [exact Hm|]. split; [unfold new; lia|].
      replace (m + usage b + (size b - usage b)) with (m + size b) by lia. exact H2.
    + simpl. apply Forall_app in Hokall as [Hk1 Hk2]. inversion Hk2; subst.
      apply Forall_app. split; [assumption|].
      constructor; [|constructor; [|assumption]].
      * unfold block_ok. simpl. split; [assumption|]. split; [assumption|].
        split; [lia|right; lia].
      * unfold block_ok. simpl. split; [assumption|]. split; [assumption|].
        split; [lia|right; lia].
  - eapply all_apart_replace; [exact Ha| |]; reflexivity.
Qed.

Lemma need_bounds (sz : Z) :
  0 <= sz -> sz + 8 + hdr <= half ->
  wrap (align8 sz + hdr) = align8 sz + hdr
  /\ hdr <= align8 sz + hdr /\ align8 sz + hdr < half.
Proof.
  intros H0 H1. unfold align8. destruct (sz mod 8 =? 0) eqn:E.
  - zdiv.
  - apply Z.eqb_neq in E. zdiv.
Qed.

Lemma take_block_run (fuel : nat) (e : env) (sz : Z) (st st1 : state)
    (R1 R2 : list region) (r : region) (bs1 bs2 : list (Z * mem_block))
    (c : Z) (b : mem_block) :
  choose_block fuel e (wrap (align8 sz + hdr)) st = Ok (c, st1) ->
  wf hdr st1 (R1 ++ r :: R2) ->
  r_blocks r = bs1 ++ (c, b) :: bs2 ->
  0 <= sz -> sz + 8 + hdr <= half ->
  candidate (wrap (align8 sz + hdr)) b ->
  exists c' b' blocks' st',
    malloc_unsafe hdr fuel e sz st = Ok (payload hdr c', st')
    /\ wf hdr st' (R1 ++ with_blocks blocks' r :: R2)
    /\ In (c', b') blocks' /\ usage b' <> 0
    /\ keeps_live (r_blocks r) blocks'
    /\ (length blocks' <= S (length (r_blocks r)))%nat
    /\ (usage b = 0 -> length blocks' = length (r_blocks r)).
Proof.
  intros Hch Hw Hr Hsz0 Hsz1 Hcand.
  destruct (need_bounds sz Hsz0 Hsz1) as (Hneed & Hn1 & Hn2).
  rewrite Hneed in Hcand. unfold candidate, tail_slack in Hcand.
  pose proof (wf_elim _ _ Hw) as (Hst & _ & Hrw & _ & _).
  apply Forall_mid in Hrw as [_ Hrwr].
  assert (Hin : In (c, b) (r_blocks r)) by (rewrite Hr; apply in_elt).
  destruct (region_inside r (c, b) Hrwr Hin) as (Hic & Hec & Hok). simpl in Hic, Hec.
  pose proof Hok as (Hrs & Hrz & Hsize & Hus). simpl in Hrs, Hrz, Hsize, Hus.
  pose proof Hrwr as (Hr0 & Hr1 & Hr2 & _). unfold inside in Hic.
  assert (Hcl : c <> NULL /\ heap st1 !! c = Some b).
  { apply (stored_in _ _ _ _ Hst). apply in_flat. exists r. split; [apply in_elt|exact Hin]. }
  destruct Hcl as [Hcn Hcl].
  assert (Hu0 : 0 <= usage b) by lia.
  assert (Hcu : c + usage b < two64) by (unfold two64, half in *; lia).
  destruct (malloc_unsafe_result fuel e sz c st st1 b Hch Hcn Hcl ltac:(lia) Hu0 Hcu)
    as [Hzero Hsplit].
  rewrite Hneed in Hzero, Hsplit.
  destruct (Z.eq_dec (usage b) 0) as [Hz|Hnz].
  - exists c, (set_usage (align8 sz + hdr) b),
      (bs1 ++ (c, set_usage (align8 sz + hdr) b) :: bs2). eexists.
    split; [apply Hzero; exact Hz|]. split.
    { apply wf_scribbled. apply wf_update with (b := b); try assumption; try reflexivity.
      unfold block_ok. simpl. split; [assumption|]. split; [assumption|].
      split; [assumption|]. right. lia. }
    split; [apply in_elt|]. split; [simpl; lia|]. split.
    { rewrite Hr. apply (keeps_live_replace bs1 bs2 [(c, set_usage (align8 sz + hdr) b)]).
      intros _. eexists. split; [left; reflexivity|]. simpl. lia. }
    rewrite Hr, !length_app. simpl. split; [lia|intros _; reflexivity].
  - assert (Hw1 : wrap (c + usage b) = c + usage b) by zdiv.
    assert (Hw2 : wrap (size b - usage b) = size b - usage b) by zdiv.
    rewrite Hw1, Hw2 in Hsplit.
    exists (c + usage b),
      (MemBlock (g_allocations st1) EmptyString (size b - usage b) (align8 sz + hdr)
         (region_start b) (region_size b) (next b)),
      (bs1 ++ (c, set_next (c + usage b) (set_size (usage b) b))
           :: (c + usage b,
               MemBlock (g_allocations st1) EmptyString (size b - usage b) (align8 sz + hdr)
                 (region_start b) (region_size b) (next b)) :: bs2).
    eexists. split; [apply Hsplit; exact Hnz|]. split.
    { apply wf_scribbled.
      apply (wf_split st1 _ R1 R2 r bs1 bs2 c (g_allocations st1) (align8 sz + hdr) b);
        try assumption; reflexivity. }
    split; [apply in_app_iff; right; right; left; reflexivity|].
    split; [simpl; lia|]. split.
    { rewrite Hr.
      apply (keeps_live_replace bs1 bs2
               [(c, set_next (c + usage b) (set_size (usage b) b));
                (c + usage b,
                 MemBlock (g_allocations st1) EmptyString (size b - usage b) (align8 sz + hdr)
                   (region_start b) (region_size b) (next b))]).
      intros Hu. eexists. split; [left; reflexivity|]. exact Hu. }
    rewrite Hr, !length_app. simpl. split; [lia|intros Hx; contradiction].
Qed.

Lemma has_live_relink (rp : region) (bsp : list (Z * mem_block)) (t q : Z) (bt : mem_block) :
  r_blocks rp = bsp ++ [(t, bt)] -> has_live rp ->
  has_live (with_blocks (bsp ++ [(t, set_next q bt)]) rp).
Proof.
  unfold has_live. intros -> H. simpl. apply Exists_app in H as [H|H].
  - apply Exists_app. left. exact H.
  - apply Exists_app. right. inversion H as [? ? Hu|? ? Hx]; subst.
    + left. exact Hu.
    + inversion Hx.
Qed.

Lemma keeps_live_relink (l0 : list (Z * mem_block)) (t q : Z) (bt : mem_block) :
  keeps_live (l0 ++ [(t, bt)]) (l0 ++ [(t, set_next q bt)]).
Proof.
  apply (keeps_live_replace l0 [] [(t, set_next q bt)]).
  intros Hu. eexists. split; [left; reflexivity|exact Hu].
Qed.

Lemma keeps_live_app (x l l' y : list (Z * mem_block)) :
  keeps_live l l' -> keeps_live (x ++ l ++ y) (x ++ l' ++ y).
Proof.
  intros H a b Hin Hu. rewrite !in_app_iff in Hin. destruct Hin as [Hin|[Hin|Hin]].
  - exists b. rewrite !in_app_iff. auto.
  - destruct (H a b Hin Hu) as (b' & Hin' & Hu'). exists b'. rewrite !in_app_iff. auto.
  - exists b. rewrite !in_app_iff. auto.
Qed.

(** A region the operating system just mapped is apart from the
    regions of the list. *)
Lemma fresh_apart (st : state) (e : env) (regs : list region) (len rr : Z) :
  wf hdr st regs -> env_ok st e -> mmap_result e len = Some rr ->
  forall blocks, Forall (fun r => apart r (Region rr len blocks)) regs.
Proof.
  intros Hw (_ & Henv) Hm blocks. destruct (Henv len rr Hm) as (_ & _ & _ & Hfresh).
  pose proof (wf_elim _ _ Hw) as (Hst & _ & Hrw & _ & _).
  apply List.Forall_forall. intros r Hr.
  rewrite List.Forall_forall in Hrw. specialize (Hrw r Hr).
  destruct (region_first r Hrw) as (b0 & bs & Hb).
  assert (Hin : In (r_start r, b0) (r_blocks r)) by (rewrite Hb; left; reflexivity).
  destruct (region_inside r _ Hrw Hin) as (_ & _ & (Hrs & Hrz & _)). simpl in Hrs, Hrz.
  assert (Hl : heap st !! r_start r = Some b0).
  { apply (stored_in _ _ _ _ Hst). apply in_flat. exists r. auto. }
  specialize (Hfresh _ _ Hl). rewrite Hrs, Hrz in Hfresh.
  unfold apart, r_end. simpl. lia.
Qed.

Lemma expand_heap_run (fuel : nat) (e : env) (need : Z) (st : state)
    (regs : list region) (rr : Z) :
  wf hdr st regs -> env_ok st e -> hdr <= need -> need < half ->
  (length (flat regs) <= fuel)%nat ->
  mmap_result e (map_length e need) = Some rr ->
  let len := map_length e need in
  let blk := MemBlock (g_allocations st) EmptyString len 0 rr len NULL in
  exists st' regs',
    expand_heap fuel e need st = Ok (rr, st')
    /\ wf hdr st' (regs' ++ [Region rr len [(rr, blk)]])
    /\ need <= len
    /\ (Forall has_live regs -> Forall has_live regs')
    /\ keeps_live (flat regs) (flat regs')
    /\ length (flat regs') = length (flat regs).
Proof.
  intros Hw Henv Hn1 Hn2 Hf Hm len blk.
  pose proof (fresh_apart st e regs len rr Hw Henv Hm [(rr, blk)]) as Hap.
  destruct Henv as (Hpage & Henv). destruct (Henv len rr Hm) as (Hlen & Hrr & Hend & _).
  destruct (map_length_ge e need Hpage ltac:(lia)) as [Hge _]. fold len in Hge.
  pose proof (wf_elim _ _ Hw) as (Hst & Hl & Hrw & Ha & Hnd).
  set (rnew := Region rr len [(rr, blk)]) in *.
  assert (Hrnew : region_wf hdr rnew).
  { unfold region_wf, r_end. simpl. split; [lia|]. split; [lia|]. split; [lia|].
    split; [split; [reflexivity|lia]|].
    constructor; [|constructor]. unfold block_ok. simpl.
    split; [reflexivity|]. split; [reflexivity|]. split; [lia|left; reflexivity]. }
  assert (Hrrin : inside rnew rr) by (unfold inside, r_end; simpl; lia).
  assert (Hfresh : ~ In rr (addrs (flat regs))).
  { intros Hx. apply in_map_iff in Hx as (ab & Heq & Hab).
    destruct (flat_inside regs ab Hrw Hab) as (r' & Hr' & Hi).
    rewrite List.Forall_forall in Hap. specialize (Hap r' Hr').
    apply (apart_inside r' rnew (fst ab) Hap Hi). rewrite Heq. exact Hrrin. }
  assert (Hrrn : rr <> NULL) by (unfold NULL; lia).
  set (st1 := State (g_head st) (wrap (g_allocations st + 1))
                    (<[rr := blk]> (heap st)) (trace st ++ [EMmap len (Some rr)])).
  assert (Hstart : expand_heap fuel e need st =
    (let* head := get_head in
     (if head =? NULL then set_head rr
      else let* curr := find_tail fuel head in modify curr (set_next rr)) ;;
     ret rr) st1).
  { unfold expand_heap. fold (map_length e need). fold len.
    assert (Hm' : mmap_result e len = Some rr) by exact Hm.
    unfold mmap, bind at 1, bind at 1, emit at 1, ret at 1. rewrite Hm'.
    unfold bind at 1, next_alloc_id. unfold bind at 1, store.
    destruct (rr =? NULL) eqn:E; [apply Z.eqb_eq in E; contradiction|].
    reflexivity. }
  assert (Hst1 : stored (heap st1) (flat regs))
    by (apply stored_insert_other; assumption).
  assert (Hrrl : heap st1 !! rr = Some blk) by apply lookup_insert_eq.
  destruct regs as [|r0 regs0] eqn:Eregs.
  - simpl in Hl. exists (State rr (wrap (g_allocations st + 1))
                              (<[rr := blk]> (heap st)) (trace st ++ [EMmap len (Some rr)])), [].
    split.
    { rewrite Hstart. unfold st1, bind, get_head. cbn [g_head]. rewrite Hl. reflexivity. }
    split.
    { apply wf_intro; simpl.
      - constructor; [split; [exact Hrrn|exact Hrrl]|constructor].
      - split; reflexivity.
      - constructor; [exact Hrnew|constructor].
      - split; [constructor|exact I]. }
    split; [exact Hge|]. split; [auto|]. split; [apply keeps_live_refl|reflexivity].
  - rewrite <- Eregs in *.
    destruct (regions_last regs ltac:(rewrite Eregs; discriminate) Hrw)
      as (R0 & rp & bsp & t & bt & HR & Hrp).
    assert (Hflat : flat regs = (flat R0 ++ bsp) ++ [(t, bt)]).
    { rewrite HR, flat_app. simpl. rewrite Hrp, app_nil_r, app_assoc. reflexivity. }
    rewrite Hflat in Hst1, Hl, Hnd, Hfresh, Hf.
    assert (Hhead : g_head st <> NULL).
    { destruct (flat R0 ++ bsp) as [|ab l]; simpl in Hl, Hst1.
      - destruct Hl as [-> _]. inversion Hst1 as [|? ? [Hx _] _]; subst. exact Hx.
      - destruct Hl as [-> _]. inversion Hst1 as [|? ? [Hx _] _]; subst. exact Hx. }
    assert (Htl : t <> NULL /\ heap st1 !! t = Some bt).
    { apply (stored_in _ _ _ _ Hst1). apply in_elt. }
    destruct Htl as [Htn Htl].
    assert (Hft : find_tail fuel (g_head st) st1 = Ok (t, st1)).
    { apply (find_tail_spec st1 t bt (flat R0 ++ bsp)).
      - apply lseg_iff. split; [exact Hst1|exact Hl].
      - rewrite length_app in Hf. simpl in Hf. lia. }
    set (rp' := with_blocks (bsp ++ [(t, set_next rr bt)]) rp).
    exists (with_heap (<[t := set_next rr bt]> (heap st1)) st1), (R0 ++ [rp']).
    split.
    { rewrite Hstart. unfold bind at 1, get_head.
      change (g_head st1) with (g_head st).
      destruct (g_head st =? NULL) eqn:E; [apply Z.eqb_eq in E; contradiction|].
      unfold bind at 1. rewrite (bind_ok _ _ _ _ _ Hft).
      rewrite (modify_ok t _ bt st1 Htn Htl). reflexivity. }
    assert (Hrw0 : Forall (region_wf hdr) R0 /\ region_wf hdr rp).
    { rewrite HR in Hrw. apply Forall_app in Hrw as [H0 Hp].
      inversion Hp; subst. auto. }
    destruct Hrw0 as [Hrw0 Hrwp].
    split.
    { assert (Hre : flat ((R0 ++ [rp']) ++ [rnew])
                    = (flat R0 ++ bsp) ++ (t, set_next rr bt) :: [(rr, blk)]).
      { rewrite !flat_app. simpl. rewrite <- !app_assoc. reflexivity. }
      apply wf_intro.
      - rewrite Hre. simpl heap.
        apply stored_update with (b := bt).
        + apply stored_app. apply stored_app in Hst1 as [H1 H2]. split; [exact H1|].
          inversion H2; subst. constructor; [assumption|].
          constructor; [split; [exact Hrrn|exact Hrrl]|constructor].
        + unfold addrs in *. rewrite map_app in *. simpl in *.
          replace (map fst (flat R0 ++ bsp) ++ [t; rr])
            with ((map fst (flat R0 ++ bsp) ++ [t]) ++ [rr])
            by (rewrite <- app_assoc; reflexivity).
          apply List.NoDup_app; [exact Hnd|constructor; [intros []|constructor]|].
          intros x Hx [<-|[]]. contradiction.
      - rewrite Hre. simpl g_head. apply linked_app in Hl as (m & H1 & H2).
        apply linked_app. exists m. split; [exact H1|]. simpl in *.
        destruct H2 as [Hmt _]. repeat split; assumption.
      - apply Forall_app. split; [|constructor; [exact Hrnew|constructor]].
        apply Forall_app. split; [exact Hrw0|].
        constructor; [|constructor].
        apply (region_wf_update rp bsp [] t bt (set_next rr bt) Hrwp Hrp); [reflexivity|].
        apply block_ok_relinked. apply (region_inside rp (t, bt) Hrwp).
        rewrite Hrp. apply in_elt.
      - apply all_apart_app. split; [|split].
        + rewrite HR in Ha.
          apply (all_apart_replace R0 [] rp rp' Ha); reflexivity.
        + simpl. split; [constructor|exact I].
        + rewrite HR in Hap. apply Forall_app in Hap as [Hap0 Happ].
          apply Forall_app. split.
          * eapply Forall_impl; [exact Hap0|]. intros x Hx. constructor; [exact Hx|constructor].
          * inversion Happ; subst. constructor; [|constructor].
            constructor; [|constructor]. assumption. }
    split; [exact Hge|]. split.
    { intros Hlive. rewrite HR in Hlive. apply Forall_app in Hlive as [H0 Hp].
      inversion Hp; subst. apply Forall_app. split; [exact H0|].
      constructor; [|constructor]. apply has_live_relink; assumption. }
    split.
    { rewrite Hflat. rewrite flat_app. simpl. rewrite app_nil_r, app_assoc.
      apply keeps_live_relink. }
    rewrite Hflat, flat_app. simpl. rewrite app_nil_r.
    repeat rewrite length_app. simpl. lia.
Qed.

(** [malloc_unsafe] on a well-formed state: it fails only when there is
    no candidate and the operating system has no memory, and else
    leaves a well-formed state in which the block it returned is in
    use. *)
Lemma malloc_unsafe_run (fuel : nat) (e : env) (sz : Z) (st : state)
    (regs : list region) :
  wf hdr st regs -> Forall has_live regs -> env_ok st e ->
  0 <= sz -> sz + 8 + hdr <= half ->
  (length (flat regs) <= fuel)%nat ->
  (malloc_unsafe hdr fuel e sz st = Fault
   /\ mmap_result e (map_length e (wrap (align8 sz + hdr))) = None)
  \/ exists c b regs' st',
      malloc_unsafe hdr fuel e sz st = Ok (payload hdr c, st')
      /\ wf hdr st' regs' /\ Forall has_live regs'
      /\ keeps_live (flat regs) (flat regs')
      /\ (length (flat regs') <= S (length (flat regs)))%nat
      /\ In (c, b) (flat regs') /\ usage b <> 0.
Proof.
  intros Hw Hlive Henv Hsz0 Hsz1 Hf.
  destruct (need_bounds sz Hsz0 Hsz1) as (Hneed & Hn1 & Hn2).
  set (need := wrap (align8 sz + hdr)) in *.
  assert (Hnb : 0 <= need < half) by lia.
  pose proof (wf_in_bounds st regs need Hw Hnb) as Hb.
  pose proof Hw as (Hchain & _).
  destruct (reuse_run fuel e need st (flat regs) Hchain Hf ltac:(lia) Hb)
    as (found & Hreuse & Hfound).
  destruct Hfound as [->|(b & Hin & Hcand)].
  - destruct (mmap_result e (map_length e need)) as [rr|] eqn:Hm.
    + right.
      destruct (expand_heap_run fuel e need st regs rr Hw Henv ltac:(lia) ltac:(lia) Hf Hm)
        as (st1 & regs1 & Hex & Hw1 & Hge & Hlive1 & Hkeep1 & Hlen1).
      assert (Hch : choose_block fuel e need st = Ok (rr, st1)).
      { unfold choose_block. rewrite (bind_ok _ _ _ _ _ Hreuse). exact Hex. }
      set (blk := MemBlock (g_allocations st) EmptyString (map_length e need) 0 rr
                           (map_length e need) NULL) in *.
      destruct (take_block_run fuel e sz st st1 regs1 []
                  (Region rr (map_length e need) [(rr, blk)]) [] [] rr blk
                  Hch Hw1 eq_refl Hsz0 Hsz1)
        as (c' & b' & blocks' & st' & Hrun & Hw' & Hin' & Hu' & _ & _ & Hlen');
        [unfold candidate, tail_slack; simpl; fold need; lia|].
      exists c', b', (regs1 ++ [with_blocks blocks' (Region rr (map_length e need) [(rr, blk)])]),
        st'.
      split; [exact Hrun|]. split; [exact Hw'|]. split.
      { apply Forall_app. split; [apply Hlive1; exact Hlive|].
        constructor; [|constructor]. unfold has_live. simpl.
        apply List.Exists_exists. exists (c', b'). auto. }
      split.
      { intros a0 b0 Ha0 Hu0. destruct (Hkeep1 a0 b0 Ha0 Hu0) as (b0' & Hi & Hu).
        exists b0'. split; [|exact Hu]. rewrite flat_app. apply in_app_iff. auto. }
      split.
      { rewrite flat_app, length_app. simpl. rewrite app_nil_r.
        rewrite (Hlen' eq_refl). simpl. lia. }
      split; [|exact Hu'].
      rewrite flat_app. apply in_app_iff. right. simpl. rewrite app_nil_r. exact Hin'.
    + left. split; [|reflexivity]. apply malloc_unsafe_no_memory; assumption.
  - right.
    destruct (in_flat_split regs found b Hin) as (R1 & r & R2 & bs1 & bs2 & -> & Hr).
    assert (Hfn : found <> NULL).
    { pose proof (wf_elim _ _ Hw) as (Hst & _). apply (stored_in _ _ _ _ Hst Hin). }
    assert (Hch : choose_block fuel e need st = Ok (found, st)).
    { unfold choose_block. rewrite (bind_ok _ _ _ _ _ Hreuse).
      destruct (found =? NULL) eqn:E; [apply Z.eqb_eq in E; contradiction|reflexivity]. }
    destruct (take_block_run fuel e sz st st R1 R2 r bs1 bs2 found b
                Hch Hw Hr Hsz0 Hsz1 Hcand)
      as (c' & b' & blocks' & st' & Hrun & Hw' & Hin' & Hu' & Hkeep & Hlen' & _).
    apply Forall_mid in Hlive as [Hlive12 _].
    exists c', b', (R1 ++ with_blocks blocks' r :: R2), st'.
    split; [exact Hrun|]. split; [exact Hw'|]. split.
    { apply Forall_mid. split; [exact Hlive12|]. unfold has_live. simpl.
      apply List.Exists_exists. exists (c', b'). auto. }
    split.
    { rewrite flat_focus. rewrite flat_app. simpl. apply keeps_live_app. exact Hkeep. }
    split.
    { rewrite flat_focus. rewrite flat_app. simpl. rewrite !length_app in *. lia. }
    split; [|exact Hu'].
    rewrite flat_focus. rewrite !in_app_iff. auto.
Qed.

(** ** The invariant of the public calls *)

Lemma free_unsafe_inv (fuel : nat) (e : env) (st : state) (regs : list region)
    (a : Z) (b : mem_block) :
  wf hdr st regs -> Forall has_live regs -> In (a, b) (flat regs) ->
  (length (flat regs) <= fuel)%nat ->
  exists st' regs',
    free_unsafe hdr fuel e (payload hdr a) st = Ok (tt, st')
    /\ wf hdr st' regs' /\ Forall has_live regs'.
Proof.
  intros Hw Hlive Hin Hf.
  destruct (in_flat_split regs a b Hin) as (R1 & r & R2 & bs1 & bs2 & -> & Hr).
  destruct (free_unsafe_run fuel e st R1 R2 r bs1 bs2 a b Hw Hr Hf)
    as (_ & Hw1 & Hbusy & Hfree).
  apply Forall_mid in Hlive as [Hlive12 _].
  apply Forall_app in Hlive12 as [Hlive1 Hlive2].
  set (released := bs1 ++ (a, set_usage 0 b) :: bs2) in *.
  destruct (List.Forall_Exists_dec (fun ab : Z * mem_block => usage (snd ab) = 0)
              (fun ab => Z.eq_dec (usage (snd ab)) 0) released) as [Hall|Hex].
  - destruct (Hfree Hall) as [Hnil Hcons].
    destruct R1 as [|r1 R1'].
    + destruct (Hnil eq_refl) as (_ & Hrun & Hwf).
      eexists. exists R2. split; [exact Hrun|]. split; [exact Hwf|exact Hlive2].
    + pose proof (wf_elim _ _ Hw) as (_ & _ & Hrw & _ & _).
      apply Forall_mid in Hrw as [Hrw12 _]. apply Forall_app in Hrw12 as [Hrw1 _].
      destruct (regions_last (r1 :: R1') ltac:(discriminate) Hrw1)
        as (R0 & rp & bsp & x & bx & HR1 & Hrp).
      destruct (Hcons R0 rp bsp x bx HR1 Hrp) as (_ & _ & Hrun & Hwf).
      eexists. eexists. split; [exact Hrun|]. split; [exact Hwf|].
      rewrite HR1 in Hlive1. apply Forall_app in Hlive1 as [H0 Hp].
      inversion Hp; subst. apply Forall_mid. split; [apply Forall_app; auto|].
      apply has_live_relink; assumption.
  - assert (Hnot : ~ all_free released).
    { intros Hall. apply List.Exists_exists in Hex as (ab & Hab & Hne).
      unfold all_free in Hall. rewrite List.Forall_forall in Hall. exact (Hne (Hall ab Hab)). }
    eexists. eexists. split; [exact (Hbusy Hnot)|]. split; [exact Hw1|].
    apply Forall_mid. split; [apply Forall_app; auto|]. exact Hex.
Qed.

Lemma wf_address (st : state) (regs : list region) (a : Z) (b : mem_block) :
  wf hdr st regs -> In (a, b) (flat regs) ->
  a <> NULL /\ heap st !! a = Some b /\ 0 < a /\ a + size b <= half
  /\ hdr <= size b /\ header_of hdr (payload hdr a) = a
  /\ payload hdr a <> NULL.
Proof.
  intros Hw Hin. pose proof (wf_elim _ _ Hw) as (Hst & _ & Hrw & _ & _).
  destruct (stored_in _ _ _ _ Hst Hin) as [Hn Hl].
  apply in_flat in Hin as (r & Hr & Hin).
  rewrite List.Forall_forall in Hrw. specialize (Hrw r Hr).
  destruct (region_inside r (a, b) Hrw Hin) as (Hi & He & (_ & _ & Hs & _)).
  simpl in *. destruct Hrw as (H0 & _ & H2 & _). unfold inside in Hi.
  repeat split; try assumption; try lia.
  - apply header_of_payload. unfold two64, half in *. lia.
  - unfold payload. zdiv.
Qed.

Lemma live_in_flat (st : state) (regs : list region) (ptr : Z) :
  wf hdr st regs -> live hdr st ptr ->
  exists a b, In (a, b) (flat regs) /\ usage b <> 0 /\ ptr = payload hdr a.
Proof.
  intros Hw (l & a & b & Hc & Hin & Hu & Hp).
  destruct Hw as (Hc' & _). rewrite (chain_unique _ _ _ _ Hc Hc') in Hin.
  exists a, b. auto.
Qed.

Lemma malloc_unsafe_aligned (fuel : nat) (e : env) (sz : Z) :
  malloc_unsafe hdr fuel e (align8 sz) = malloc_unsafe hdr fuel e sz.
Proof. unfold malloc_unsafe. rewrite align8_idem. reflexivity. Qed.

Lemma malloc_unsafe_monotone (e : env) (sz : Z) :
  fuel_monotone (fun fuel => malloc_unsafe hdr fuel e sz).
Proof.
  unfold malloc_unsafe. cbv zeta.
  apply monotone_bind; [apply reuse_monotone|]. intros found.
  apply monotone_bind; [|intros allocated; apply monotone_const].
  apply monotone_if; [apply expand_heap_monotone|apply monotone_const].
Qed.

Lemma free_unsafe_monotone (e : env) (ptr : Z) :
  fuel_monotone (fun fuel => free_unsafe hdr fuel e ptr).
Proof.
  unfold free_unsafe. cbv zeta.
  apply monotone_if; [apply monotone_const|].
  apply monotone_bind; [apply monotone_const|]. intros _.
  apply monotone_bind; [apply monotone_const|]. intros c.
  apply monotone_bind; [apply monotone_const|]. intros rh.
  apply monotone_bind; [apply region_scan_monotone|]. intros scan.
  apply monotone_if; [apply monotone_const|].
  apply monotone_bind; [apply monotone_const|]. intros ok.
  apply monotone_bind; [apply monotone_const|]. intros _.
  apply monotone_bind; [apply monotone_const|]. intros head.
  apply monotone_if; [apply monotone_const|].
  apply monotone_bind; [apply find_pred_monotone|]. intros current.
  apply monotone_const.
Qed.

Lemma realloc_unsafe_monotone (e : env) (ptr sz : Z) :
  fuel_monotone (fun fuel => realloc_unsafe hdr fuel e ptr sz).
Proof.
  unfold realloc_unsafe. cbv zeta.
  apply monotone_if; [apply malloc_unsafe_monotone|].
  apply monotone_if.
  { apply monotone_bind; [apply free_unsafe_monotone|]. intros _. apply monotone_const. }
  apply monotone_bind; [apply monotone_const|]. intros c.
  apply monotone_if; [apply monotone_const|].
  apply monotone_bind; [apply malloc_unsafe_monotone|]. intros new.
  apply monotone_bind; [apply monotone_const|]. intros _.
  apply monotone_bind; [apply free_unsafe_monotone|]. intros _. apply monotone_const.
Qed.

Lemma exec_monotone (e : env) (c : call) :
  fuel_monotone (fun fuel => exec hdr fuel e c).
Proof.
  destruct c as [sz|sz nm|nmemb sz|ptr sz|ptr]; simpl.
  - apply malloc_unsafe_monotone.
  - unfold malloc_name, malloc_name_unsafe. cbv zeta.
    apply monotone_bind; [apply malloc_unsafe_monotone|]. intros p. apply monotone_const.
  - unfold calloc. apply monotone_bind; [apply malloc_unsafe_monotone|].
    intros p. apply monotone_const.
  - apply realloc_unsafe_monotone.
  - apply monotone_bind; [|intros _; apply monotone_const].
    unfold free. apply monotone_if; [apply monotone_const|apply free_unsafe_monotone].
Qed.

Variable name_cap : Z.

Lemma exec_inv_fuel (fuel : nat) (e : env) (c : call) (st st' : state) (res : Z) :
  inv hdr st -> env_ok st e -> legal hdr name_cap st c -> enough_fuel st fuel ->
  exec hdr fuel e c st = Ok (res, st') ->
  inv hdr st'.
Proof.
  intros (regs & Hw & Hlive) Henv Hlegal Hfuel Hex.
  assert (Hf : (length (flat regs) < fuel)%nat) by (apply Hfuel; apply Hw).
  assert (Hmalloc : forall sz p s,
             0 <= sz -> sz + 8 + hdr <= half ->
             malloc_unsafe hdr fuel e sz st = Ok (p, s) ->
             exists c b regs',
               p = payload hdr c /\ wf hdr s regs' /\ Forall has_live regs'
               /\ keeps_live (flat regs) (flat regs')
               /\ (length (flat regs') <= fuel)%nat
               /\ In (c, b) (flat regs') /\ usage b <> 0).
  { intros sz p s H0 H1 Hm.
    destruct (malloc_unsafe_run fuel e sz st regs Hw Hlive Henv H0 H1 ltac:(lia))
      as [[Hfault _]|(c0 & b0 & regs' & s' & Hrun & Hw' & Hl' & Hk & Hlen & Hin & Hu)].
    - congruence.
    - rewrite Hrun in Hm. injection Hm as <- <-.
      exists c0, b0, regs'. split; [reflexivity|]. split; [exact Hw'|].
      split; [exact Hl'|]. split; [exact Hk|]. split; [lia|]. split; assumption. }
  destruct c as [sz|sz nm|nmemb sz|ptr sz|ptr]; simpl in Hex, Hlegal.
  - destruct Hlegal as [H0 H1]. unfold malloc in Hex.
    destruct (Hmalloc sz res st' H0 H1 Hex) as (c0 & b0 & regs' & _ & Hw' & Hl' & _).
    exists regs'. auto.
  - destruct Hlegal as [[H0 H1] _]. unfold malloc_name, malloc_name_unsafe in Hex.
    apply bind_inv in Hex as (p & s & Hm & Hex).
    destruct (Hmalloc sz p s H0 H1 Hm) as (c0 & b0 & regs' & -> & Hw' & Hl' & _ & _ & Hin & Hu).
    destruct (wf_address s regs' c0 b0 Hw' Hin) as (Hn & Hl & _ & _ & _ & Hho & _).
    rewrite Hho in Hex. rewrite (bind_ok _ _ _ _ _ (modify_ok _ _ _ _ Hn Hl)) in Hex.
    injection Hex as <- <-.
    destruct (in_flat_split regs' c0 b0 Hin) as (R1 & r & R2 & bs1 & bs2 & -> & Hr).
    exists (R1 ++ with_blocks (bs1 ++ (c0, set_name nm b0) :: bs2) r :: R2). split.
    + apply wf_update with (b := b0); try assumption; try reflexivity.
      pose proof (wf_elim _ _ Hw') as (_ & _ & Hrw & _).
      apply Forall_mid in Hrw as [_ Hrwr].
      apply (region_inside r (c0, b0) Hrwr). rewrite Hr. apply in_elt.
    + apply Forall_mid in Hl' as [Hl12 _]. apply Forall_mid. split; [exact Hl12|].
      unfold has_live. simpl. apply Exists_app. right. left. exact Hu.
  - destruct Hlegal as (_ & _ & [H0 H1]). unfold calloc in Hex.
    apply bind_inv in Hex as (p & s & Hm & Hex).
    destruct (Hmalloc _ p s H0 H1 Hm) as (c0 & b0 & regs' & _ & Hw' & Hl' & _).
    unfold bind, emit, ret in Hex. injection Hex as <- <-.
    exists regs'. split; [|exact Hl'].
    eapply wf_same_heap; [| |exact Hw']; reflexivity.
  - destruct Hlegal as [[H0 H1] Hptr]. unfold realloc, realloc_unsafe in Hex.
    destruct Hptr as [->|Hlv].
    + change (NULL =? NULL) with true in Hex. cbv iota in Hex.
      destruct (Hmalloc sz res st' H0 H1 Hex) as (c0 & b0 & regs' & _ & Hw' & Hl' & _).
      exists regs'. auto.
    + destruct (live_in_flat st regs ptr Hw Hlv) as (a & b & Hin & Hu & ->).
      destruct (wf_address st regs a b Hw Hin) as (Hn & Hl & _ & _ & Hsz & Hho & Hpn).
      destruct (payload hdr a =? NULL) eqn:E; [apply Z.eqb_eq in E; contradiction|].
      destruct (sz =? 0).
      * apply bind_inv in Hex as ([] & s & Hfr & Hex). injection Hex as _ <-.
        destruct (free_unsafe_inv fuel e st regs a b Hw Hlive Hin ltac:(lia))
          as (s' & regs' & Hrun & Hw' & Hl').
        rewrite Hrun in Hfr. injection Hfr as <-. exists regs'. auto.
      * rewrite Hho in Hex. rewrite (bind_ok _ _ _ _ _ (load_ok _ _ _ Hn Hl)) in Hex.
        destruct (need_bounds sz H0 H1) as (Hneed & Hn1 & Hn2).
        destruct (wrap (align8 sz + hdr) <=? size b) eqn:Efit.
        -- apply Z.leb_le in Efit.
           rewrite (bind_ok _ _ _ _ _ (modify_ok _ _ _ _ Hn Hl)) in Hex.
           injection Hex as _ <-.
           destruct (in_flat_split regs a b Hin) as (R1 & r & R2 & bs1 & bs2 & -> & Hr).
           exists (R1 ++ with_blocks
                     (bs1 ++ (a, set_usage (wrap (align8 sz + hdr)) b) :: bs2) r :: R2).
           split.
           ++ apply wf_update with (b := b); try assumption; try reflexivity.
              pose proof (wf_elim _ _ Hw) as (_ & _ & Hrw & _).
              apply Forall_mid in Hrw as [_ Hrwr].
              assert (Hok : block_ok hdr r (a, b)).
              { apply (region_inside r (a, b) Hrwr). rewrite Hr. apply in_elt. }
              destruct Hok as (Hk1 & Hk2 & Hk3 & _).
              unfold block_ok. simpl. split; [assumption|]. split; [assumption|].
              split; [assumption|]. right. simpl in *. lia.
           ++ apply Forall_mid in Hlive as [Hl12 _]. apply Forall_mid.
              split; [exact Hl12|]. unfold has_live. simpl.
              apply Exists_app. right. left. simpl. lia.
        -- rewrite malloc_unsafe_aligned in Hex.
           apply bind_inv in Hex as (new & s & Hm & Hex).
           destruct (Hmalloc sz new s H0 H1 Hm)
             as (c0 & b0 & regs' & _ & Hw' & Hl' & Hk & Hlen & _).
           apply bind_inv in Hex as ([] & s1 & Hem & Hex).
           unfold emit in Hem. injection Hem as <-.
           apply bind_inv in Hex as ([] & s2 & Hfr & Hex). injection Hex as _ <-.
           destruct (Hk a b Hin Hu) as (b' & Hin' & _).
           set (s1 := State (g_head s) (g_allocations s) (heap s)
                            (trace s ++ [EMemcpy new (payload hdr a) (align8 sz)])) in *.
           assert (Hw1 : wf hdr s1 regs')
             by (eapply wf_same_heap; [| |exact Hw']; reflexivity).
           destruct (free_unsafe_inv fuel e s1 regs' a b' Hw1 Hl' Hin' Hlen)
             as (s' & regs'' & Hrun & Hw'' & Hl'').
           rewrite Hrun in Hfr. injection Hfr as <-. exists regs''. auto.
  - apply bind_inv in Hex as ([] & s & Hfr & Hex). injection Hex as _ <-.
    unfold free in Hfr. destruct Hlegal as [->|Hlv].
    + change (NULL =? NULL) with true in Hfr. injection Hfr as <-.
      exists regs. auto.
    + destruct (live_in_flat st regs ptr Hw Hlv) as (a & b & Hin & Hu & ->).
      destruct (wf_address st regs a b Hw Hin) as (_ & _ & _ & _ & _ & _ & Hpn).
      destruct (payload hdr a =? NULL) eqn:E; [apply Z.eqb_eq in E; contradiction|].
      destruct (free_unsafe_inv fuel e st regs a b Hw Hlive Hin ltac:(lia))
        as (s' & regs' & Hrun & Hw' & Hl').
      rewrite Hrun in Hfr. injection Hfr as <-. exists regs'. auto.
Qed.

Lemma exec_inv (fuel : nat) (e : env) (c : call) (st st' : state) (res : Z) :
  inv hdr st -> env_ok st e -> legal hdr name_cap st c ->
  exec hdr fuel e c st = Ok (res, st') ->
  inv hdr st'.
Proof.
  intros Hinv Henv Hlegal Hex.
  pose proof Hinv as (regs & Hw & _).
  apply (exec_inv_fuel (fuel + S (length (flat regs))) e c st st' res Hinv Henv Hlegal).
  - intros l Hl. destruct Hw as (Hc & _). rewrite (chain_unique _ _ _ _ Hl Hc). lia.
  - apply (exec_monotone e c fuel); [lia|exact Hex].
Qed.

Lemma inv_live_header (st : state) (l : list (Z * mem_block)) (a : Z) (b : mem_block) :
  inv hdr st -> chain (heap st) (g_head st) l -> In (a, b) l ->
  exists a' b', In (a', b') l /\ region_start b' = region_start b /\ usage b' <> 0.
Proof.
  intros (regs & Hw & Hlive) Hc Hin.
  pose proof Hw as (Hc' & Hrw & _). rewrite (chain_unique _ _ _ _ Hc Hc') in *.
  apply in_flat in Hin as (r & Hr & Hin).
  rewrite List.Forall_forall in Hrw, Hlive.
  pose proof (Hlive r Hr) as Hex. apply List.Exists_exists in Hex as ([a' b'] & Hin' & Hu).
  destruct (region_inside r (a, b) (Hrw r Hr) Hin) as (_ & _ & (Hs & _)).
  destruct (region_inside r (a', b') (Hrw r Hr) Hin') as (_ & _ & (Hs' & _)).
  simpl in *. exists a', b'. split; [|split; [congruence|exact Hu]].
  apply in_flat. exists r. auto.
Qed.

(** C6 (amended): in every state a correct client can reach, the list
    is made of pairwise disjoint regions tiled by their headers, and
    each region holds at least one header in use: every header of the
    list has a header of the same region with [usage] not zero.  (Free
    headers are released blocks left where they are; a region can hold
    several, in any position.) *)
Theorem reachable_regions_live (st : state) :
  reachable hdr name_cap st ->
  inv hdr st
  /\ forall l a b,
      chain (heap st) (g_head st) l -> In (a, b) l ->
      exists a' b', In (a', b') l /\ region_start b' = region_start b /\ usage b' <> 0.
Proof.
  intros Hreach.
  assert (Hinv : inv hdr st).
  { induction Hreach as [|st fuel e c r st' Hreach IH Henv Hlegal Hex].
    - exists []. split; [|constructor].
      apply wf_intro; simpl; first [constructor | reflexivity | exact I].
    - eapply exec_inv; eassumption. }
  split; [exact Hinv|]. intros l a b Hc Hin. eapply inv_live_header; eassumption.
Qed.

End Proofs.

(** * Runs of the allocator *)

(** C5 (the code departs from the claim): with an empty list and an
    operating system that refuses to map memory, [malloc] does not
    return null; [expand_heap] returns null after [perror] and
    [malloc_unsafe] reads [allocated->size] through it. *)
Theorem malloc_faults_when_mmap_fails :
  malloc sizeof_mem_block 8 env_no_memory 16 initial_state = Fault
  /\ exists st, expand_heap 8 env_no_memory 96 initial_state = Ok (NULL, st)
             /\ trace st = [EMmap 4096 None; EPerror "mmap"].
Proof.
  split; [reflexivity|]. eexists. split; reflexivity.
Qed.

(** C7 (the code departs from the claim): after
    [malloc(16); malloc(16); free(first)], [malloc(8)] takes the
    released first header as it is, so the three successful allocations
    return blocks with allocation ids 0, 1 and 0. *)
Theorem alloc_id_not_increasing :
  exists st, reuse_script initial_state = Ok ([0; 1; 0], st).
Proof. eexists. vm_compute. reflexivity. Qed.

(** C8 (the code departs from the claim): [malloc_name] stores every
    character of the name it is given, however long: a name of forty
    characters is in the header in full, and so is every other name;
    nothing is truncated to the capacity of the array. *)
Theorem name_not_truncated :
  (exists p st b,
     malloc_name sizeof_mem_block 8 (env_at 4096) 8 long_name initial_state = Ok (p, st)
     /\ heap st !! header_of sizeof_mem_block p = Some b
     /\ name b = long_name
     /\ String.length (name b) = 40%nat)
  /\ forall nm : string,
      exists p st b,
        malloc_name sizeof_mem_block 8 (env_at 4096) 8 nm initial_state = Ok (p, st)
        /\ heap st !! header_of sizeof_mem_block p = Some b
        /\ name b = nm.
Proof.
  assert (Hall : forall nm : string,
             exists p st b,
               malloc_name sizeof_mem_block 8 (env_at 4096) 8 nm initial_state = Ok (p, st)
               /\ heap st !! header_of sizeof_mem_block p = Some b
               /\ name b = nm).
  { intros nm.
    set (blk := MemBlock 0 EmptyString 4096 88 4096 4096 NULL).
    set (s1 := State 4096 1 (<[4096 := blk]> ∅) [EMmap 4096 (Some 4096)]).
    assert (Hm : malloc_unsafe sizeof_mem_block 8 (env_at 4096) 8 initial_state
                 = Ok (4176, s1)) by (vm_compute; reflexivity).
    assert (Hn : 4096 <> NULL) by discriminate.
    assert (Hl : heap s1 !! 4096 = Some blk) by reflexivity.
    eexists. eexists. eexists. split.
    - unfold malloc_name, malloc_name_unsafe.
      rewrite (bind_ok _ _ _ _ _ Hm).
      change (header_of sizeof_mem_block 4176) with 4096.
      rewrite (bind_ok _ _ _ _ _ (modify_ok 4096 (set_name nm) blk s1 Hn Hl)).
      reflexivity.
    - split; [apply lookup_insert_eq|reflexivity]. }
  split; [|exact Hall].
  destruct (Hall long_name) as (p & st & b & H1 & H2 & H3).
  exists p, st, b. repeat split; try assumption. rewrite H3. reflexivity.
Qed.

(** C9 (the code departs from the claim): on the state after
    [malloc(16); malloc(16)] the dump gives the first block, which ends
    at 0x1060, the bounds 0x1000-0x2000: the end printed on a [[BLOCK]]
    line is the start plus [region_size], not plus [size]. *)
Theorem block_line_prints_region_size :
  write_memory sizeof_mem_block 8 two_blocks =
    Ok (("-- Current Memory State --" ++ newline
         ++ "[REGION] 0x1000-0x2000 4096" ++ newline
         ++ "[BLOCK]  0x1000-0x2000 (0) '' 96 96 16" ++ newline
         ++ "[BLOCK]  0x1060-0x2060 (1) '' 4000 96 16" ++ newline)%string,
        two_blocks)
  /\ heap two_blocks !! 4096 = Some block_a
  /\ write_pointer (wrap (4096 + size block_a)) = "0x1060"%string.
Proof. split; [vm_compute; reflexivity|]. split; reflexivity. Qed.

(** ** The example states *)

Ltac lookups := repeat split; solve [reflexivity | discriminate | vm_compute; reflexivity].

Lemma one_block_run :
  malloc sizeof_mem_block 8 (env_at 4096) 16 initial_state = Ok (4176, one_block).
Proof. vm_compute. reflexivity. Qed.

Lemma two_blocks_run :
  malloc sizeof_mem_block 8 env_no_memory 16 one_block = Ok (4272, two_blocks).
Proof. vm_compute. reflexivity. Qed.

Lemma first_released_run :
  free sizeof_mem_block 8 env_no_memory 4176 two_blocks = Ok (tt, first_released).
Proof. vm_compute. reflexivity. Qed.

Lemma one_block_chain :
  chain (heap one_block) (g_head one_block) [(4096, block_whole)].
Proof. unfold chain. simpl. lookups. Qed.

Lemma two_blocks_chain :
  chain (heap two_blocks) (g_head two_blocks) [(4096, block_a); (4192, block_b)].
Proof. unfold chain. simpl. lookups. Qed.

Lemma first_released_chain :
  chain (heap first_released) (g_head first_released)
        [(4096, set_usage 0 block_a); (4192, block_b)].
Proof. unfold chain. simpl. lookups. Qed.

Lemma three_regions_chain :
  chain (heap three_regions) (g_head three_regions) three_list.
Proof. unfold chain. simpl. lookups. Qed.


Lemma header_size_positive : 0 < sizeof_mem_block.
Proof. reflexivity. Qed.

Lemma no_memory_ok (st : state) : env_ok st env_no_memory.
Proof. split; [simpl; lia|]. intros len r H. discriminate. Qed.

Lemma env_at_ok : env_ok initial_state (env_at 4096).
Proof.
  split; [simpl; lia|]. intros len r H. simpl in H.
  destruct ((0 <? len) && (len <=? 1048576)) eqn:E; [|discriminate].
  injection H as <-. apply andb_true_iff in E as [E1 E2].
  apply Z.ltb_lt in E1. apply Z.leb_le in E2. unfold half.
  split; [lia|]. split; [lia|]. split; [lia|].
  intros a b Hl. simpl in Hl. rewrite lookup_empty in Hl. discriminate.
Qed.

Lemma one_block_reachable : reachable sizeof_mem_block 32 one_block.
Proof.
  apply (reach_step _ _ initial_state 8%nat (env_at 4096) (CMalloc 16) 4176).
  - apply reach_init.
  - apply env_at_ok.
  - unfold legal, size_ok, sizeof_mem_block, half. lia.
  - exact one_block_run.
Qed.

Lemma two_blocks_reachable : reachable sizeof_mem_block 32 two_blocks.
Proof.
  apply (reach_step _ _ one_block 8%nat env_no_memory (CMalloc 16) 4272).
  - apply one_block_reachable.
  - apply no_memory_ok.
  - unfold legal, size_ok, sizeof_mem_block, half. lia.
  - exact two_blocks_run.
Qed.

Lemma first_released_reachable : reachable sizeof_mem_block 32 first_released.
Proof.
  apply (reach_step _ _ two_blocks 8%nat env_no_memory (CFree 4176) NULL).
  - apply two_blocks_reachable.
  - apply no_memory_ok.
  - right. exists [(4096, block_a); (4192, block_b)], 4096, block_a.
    split; [exact two_blocks_chain|]. split; [left; reflexivity|].
    split; [discriminate|reflexivity].
  - vm_compute. reflexivity.
Qed.

(** [free] of the only block in use unmaps the region and empties the
    list. *)
Lemma free_unmaps_drained_region :
  free sizeof_mem_block 8 env_no_memory 4176 one_block
  = Ok (tt, State NULL 1 ∅ [EMmap 4096 (Some 4096); EMunmap 4096 4096 true]).
Proof. vm_compute. reflexivity. Qed.

(** The three policies on regions with slack 64, 32 and 96. *)
Lemma policies_differ :
  reuse 8 (env_policy "first_fit") 16 three_regions = Ok (4096, three_regions)
  /\ reuse 8 (env_policy "best_fit") 16 three_regions = Ok (8192, three_regions)
  /\ reuse 8 (env_policy "worst_fit") 16 three_regions = Ok (12288, three_regions)
  /\ reuse 8 (env_policy "next_fit") 16 three_regions = Ok (NULL, three_regions).
Proof. repeat split; vm_compute; reflexivity. Qed.

(** ** Instances of the theorems *)





Lemma reachable_regions_live_witness :
  reachable sizeof_mem_block 32 first_released
  /\ inv sizeof_mem_block first_released.
Proof.
  split; [exact first_released_reachable|].
  exact (proj1 (reachable_regions_live sizeof_mem_block header_size_positive 32
                  first_released first_released_reachable)).
Defined.

Lemma calloc_spec_witness :
  (0 <= 9223372036854775808 < two64 /\ 0 <= 2 < two64)
  /\ (exists st,
        calloc sizeof_mem_block 8 (env_at 4096) 9223372036854775808 2 initial_state
        = Ok (4176, st)
        /\ trace st = [EMmap 4096 (Some 4096); EMemset 4176 0 0])
  /\ (9223372036854775808 * 2) mod two64 < 9223372036854775808 * 2.
Proof.
  assert (H1 : 0 <= 9223372036854775808 < two64) by (unfold two64; lia).
  assert (H2 : 0 <= 2 < two64) by (unfold two64; lia).
  split; [split; assumption|].
  destruct (calloc_spec sizeof_mem_block 8 (env_at 4096) 9223372036854775808 2
              initial_state H1 H2) as (Heq & _ & Hov).
  split.
  - rewrite Heq. eexists. split; vm_compute; reflexivity.
  - apply Hov. unfold two64. lia.
Defined.

(** ** Inputs on which the claims fail *)


(** C6 (as stated) fails: after [malloc(16); malloc(16); free(first)]
    the first header of the region is free and the second, in the same
    region, is in use. *)
Lemma free_header_not_last :
  reachable sizeof_mem_block 32 first_released
  /\ chain (heap first_released) (g_head first_released)
           [(4096, set_usage 0 block_a); (4192, block_b)]
  /\ ~ free_is_last [(4096, set_usage 0 block_a); (4192, block_b)].
Proof.
  split; [exact first_released_reachable|]. split; [exact first_released_chain|].
  intros H.
  specialize (H [] 4096 (set_usage 0 block_a) [(4192, block_b)] eq_refl eq_refl).
  inversion H as [|? ? Hne _]; subst. apply Hne. reflexivity.
Qed.

(** * Further properties of the routines *)

(** ** The numerals of the introspection writer *)

Lemma digit_char_value (d : Z) :
  0 <= d < 10 -> digit_value (ascii_of_nat (48 + Z.to_nat d)) = d.
Proof.
  intros Hd. unfold digit_value. rewrite nat_ascii_embedding by lia. lia.
Qed.

Lemma largest_power_spec (n : Z) :
  0 < n < two64 ->
  forall (fuel : nat) (j : Z),
    0 <= j -> 10 ^ j <= n -> n < 10 ^ (j + Z.of_nat fuel) ->
    exists k, j <= k /\ largest_power fuel n (10 ^ j) = 10 ^ k
              /\ 10 ^ k <= n < 10 ^ (k + 1).
Proof.
  intros Hn fuel. induction fuel as [|fuel IH]; intros j Hj Hlo Hhi.
  - rewrite Z.add_0_r in Hhi. lia.
  - simpl. assert (Hp : 0 < 10 ^ j) by (apply Z.pow_pos_nonneg; lia).
    destruct (n / 10 ^ j / 10 =? 0) eqn:E.
    + apply Z.eqb_eq in E. exists j. split; [lia|]. split; [reflexivity|].
      split; [exact Hlo|].
      rewrite Z.pow_add_r by lia. change (10 ^ 1) with 10.
      rewrite Z.div_div in E by lia.
      apply Z.div_small_iff in E; lia.
    + apply Z.eqb_neq in E. rewrite Z.div_div in E by lia.
      assert (Hge : 10 ^ j * 10 <= n).
      { destruct (Z_lt_le_dec n (10 ^ j * 10)) as [Hlt|Hle]; [|exact Hle].
        exfalso. apply E. apply Z.div_small. lia. }
      assert (Hw : wrap (10 ^ j * 10) = 10 ^ (j + 1)).
      { rewrite Z.pow_add_r by lia. change (10 ^ 1) with 10.
        unfold wrap. apply Z.mod_small. lia. }
      rewrite Hw.
      destruct (IH (j + 1)) as (k & Hk1 & Hk2 & Hk3).
      * lia.
      * rewrite Z.pow_add_r by lia. change (10 ^ 1) with 10. exact Hge.
      * replace (j + 1 + Z.of_nat fuel) with (j + Z.of_nat (S fuel)) by lia. exact Hhi.
      * exists k. split; [lia|]. split; assumption.
Qed.

Lemma write_digits_zero (fuel : nat) (n : Z) : write_digits fuel n 0 = EmptyString.
Proof. destruct fuel; reflexivity. Qed.

Lemma write_digits_spec (n : Z) :
  0 <= n ->
  forall (k fuel : nat) (acc : Z),
    (k < fuel)%nat ->
    read_decimal acc (write_digits fuel n (10 ^ Z.of_nat k))
    = acc * 10 ^ (Z.of_nat k + 1) + n mod 10 ^ (Z.of_nat k + 1)
    /\ all_digits (write_digits fuel n (10 ^ Z.of_nat k)) = true
    /\ exists rest,
         write_digits fuel n (10 ^ Z.of_nat k)
         = String (ascii_of_nat (48 + Z.to_nat ((n / 10 ^ Z.of_nat k) mod 10))) rest.
Proof.
  intros Hn k. induction k as [|k IH]; intros fuel acc Hf.
  - destruct fuel as [|fuel]; [lia|].
    change (Z.of_nat 0) with 0. change (10 ^ 0) with 1. change (10 ^ (0 + 1)) with 10.
    cbn [write_digits]. change (0 <? 1) with true. cbv iota.
    change (1 / 10) with 0. rewrite write_digits_zero.
    assert (Hd : 0 <= (n / 1) mod 10 < 10) by (apply Z.mod_pos_bound; lia).
    cbn [read_decimal all_digits].
    rewrite digit_char_value by exact Hd.
    rewrite nat_ascii_embedding by lia.
    rewrite Z.div_1_r in *. split; [lia|]. split; [|eexists; reflexivity].
    apply andb_true_iff. split; [|reflexivity].
    apply andb_true_iff. split; [apply Nat.leb_le; lia|apply Nat.leb_le; lia].
  - destruct fuel as [|fuel]; [lia|].
    assert (Hp : 0 < 10 ^ Z.of_nat k) by (apply Z.pow_pos_nonneg; lia).
    assert (Hs : 10 ^ Z.of_nat (S k) = 10 ^ Z.of_nat k * 10).
    { rewrite Nat2Z.inj_succ, Z.pow_succ_r by lia. lia. }
    cbn [write_digits]. rewrite Hs.
    assert (Hpos : (0 <? 10 ^ Z.of_nat k * 10) = true) by (apply Z.ltb_lt; lia).
    rewrite Hpos. rewrite Z.div_mul by lia.
    destruct (IH fuel (acc * 10 + (n / (10 ^ Z.of_nat k * 10)) mod 10)
                ltac:(lia)) as (Hread & Hall & _).
    assert (Hd : 0 <= (n / (10 ^ Z.of_nat k * 10)) mod 10 < 10)
      by (apply Z.mod_pos_bound; lia).
    split; [|split; [|eexists; reflexivity]].
    + cbn [read_decimal]. rewrite digit_char_value by exact Hd.
      rewrite Hread.
      replace (Z.of_nat (S k) + 1) with (Z.of_nat k + 1 + 1) by lia.
      rewrite (Z.pow_add_r 10 (Z.of_nat k + 1) 1) by lia. change (10 ^ 1) with 10.
      rewrite (Z.rem_mul_r n (10 ^ (Z.of_nat k + 1)) 10)
        by (try apply Z.pow_nonzero; lia).
      rewrite (Z.pow_add_r 10 (Z.of_nat k) 1) by lia. change (10 ^ 1) with 10.
      ring.
    + cbn [all_digits]. rewrite Hall.
      rewrite nat_ascii_embedding by lia.
      apply andb_true_iff. split; [|reflexivity].
      apply andb_true_iff. split; apply Nat.leb_le; lia.
Qed.

(** X1: [write_unsigned] writes the decimal numeral of a [size_t]:
    the characters are digits, they read back as the number, and there
    is no leading zero; zero is written as one ['0']. *)
Theorem write_unsigned_read_back (n : Z) :
  0 <= n < two64 ->
  read_decimal 0 (write_unsigned n) = n
  /\ all_digits (write_unsigned n) = true
  /\ (0 < n -> no_leading_zero (write_unsigned n))
  /\ (n = 0 -> write_unsigned n = "0"%string).
Proof.
  intros Hn. unfold write_unsigned.
  destruct (n =? 0) eqn:E.
  - apply Z.eqb_eq in E. subst n.
    split; [reflexivity|]. split; [reflexivity|]. split; [lia|reflexivity].
  - apply Z.eqb_neq in E.
    destruct (largest_power_spec n ltac:(lia) 20 0 ltac:(lia) ltac:(simpl; lia)
                ltac:(unfold two64 in Hn; simpl; lia)) as (k & Hk & Hlp & Hlo & Hhi).
    change (10 ^ 0) with 1 in Hlp. rewrite Hlp.
    assert (Hk20 : k < 20).
    { apply (Z.pow_lt_mono_r_iff 10); [lia|lia|]. unfold two64 in Hn. simpl. lia. }
    destruct (write_digits_spec n ltac:(lia) (Z.to_nat k) 20 0 ltac:(lia))
      as (Hread & Hall & rest & Hrest).
    rewrite Z2Nat.id in * by lia.
    split; [|split; [exact Hall|split; [|lia]]].
    + rewrite Hread. rewrite Z.mod_small by lia. lia.
    + intros _. exists (ascii_of_nat (48 + Z.to_nat ((n / 10 ^ k) mod 10))), rest.
      split; [exact Hrest|].
      assert (Hq : 1 <= n / 10 ^ k < 10).
      { assert (Hp : 0 < 10 ^ k) by (apply Z.pow_pos_nonneg; lia).
        split.
        - apply Z.div_le_lower_bound; lia.
        - apply Z.div_lt_upper_bound; [lia|].
          rewrite Z.pow_add_r in Hhi by lia. change (10 ^ 1) with 10 in Hhi. lia. }
      rewrite Z.mod_small by lia.
      intros Hc. apply (f_equal nat_of_ascii) in Hc.
      rewrite nat_ascii_embedding in Hc by lia.
      change (nat_of_ascii "0") with 48%nat in Hc. lia.
Qed.

Lemma write_unsigned_read_back_witness :
  0 <= 4096 < two64
  /\ write_unsigned 4096 = "4096"%string
  /\ read_decimal 0 (write_unsigned 4096) = 4096.
Proof.
  assert (H : 0 <= 4096 < two64) by (unfold two64; lia).
  split; [exact H|]. split; [vm_compute; reflexivity|].
  exact (proj1 (write_unsigned_read_back 4096 H)).
Defined.

Lemma hex_digit_value (d : Z) :
  0 <= d < 16 ->
  hex_value (hex_digit d) = d /\ (d <> 0 -> hex_digit d <> "0"%char).
Proof.
  intros Hd.
  assert (H : d = 0 \/ d = 1 \/ d = 2 \/ d = 3 \/ d = 4 \/ d = 5 \/ d = 6 \/ d = 7
              \/ d = 8 \/ d = 9 \/ d = 10 \/ d = 11 \/ d = 12 \/ d = 13 \/ d = 14
              \/ d = 15) by lia.
  assert (Hz : d <> 0 -> hex_digit d <> "0"%char).
  { intros Hnz. repeat (destruct H as [H|H]; [subst d; try lia; discriminate|]).
    subst d. discriminate. }
  split; [|exact Hz].
  repeat (destruct H as [H|H]; [subst d; reflexivity|]).
  subst d. reflexivity.
Qed.

Lemma nibble_value (p : Z) (i : nat) :
  0 <= p ->
  Z.land (Z.shiftr p (4 * Z.of_nat i)) 15 = (p / 16 ^ Z.of_nat i) mod 16.
Proof.
  intros Hp. rewrite Z.shiftr_div_pow2 by lia.
  change 15 with (Z.ones 4). rewrite Z.land_ones by lia.
  rewrite Z.pow_mul_r by lia. reflexivity.
Qed.

Lemma mod_next_nibble (p : Z) (m : nat) :
  p mod 16 ^ Z.of_nat (S m)
  = ((p / 16 ^ Z.of_nat m) mod 16) * 16 ^ Z.of_nat m + p mod 16 ^ Z.of_nat m.
Proof.
  assert (Hp : 0 < 16 ^ Z.of_nat m) by (apply Z.pow_pos_nonneg; lia).
  rewrite Nat2Z.inj_succ, Z.pow_succ_r by lia.
  rewrite (Z.mul_comm 16). rewrite Z.rem_mul_r by lia. ring.
Qed.

Lemma write_pointer_loop_printed (p : Z) :
  0 <= p ->
  forall (m : nat) (acc : Z),
    read_hex acc (write_pointer_loop (shifts_from m) p true)
    = acc * 16 ^ Z.of_nat m + p mod 16 ^ Z.of_nat m.
Proof.
  intros Hp m. induction m as [|m IH]; intros acc.
  - cbn [shifts_from write_pointer_loop read_hex].
    change (16 ^ Z.of_nat 0) with 1. rewrite Z.mod_1_r. lia.
  - cbn [shifts_from write_pointer_loop]. rewrite nibble_value by exact Hp.
    rewrite andb_false_r. cbn [read_hex].
    assert (Hd : 0 <= (p / 16 ^ Z.of_nat m) mod 16 < 16) by (apply Z.mod_pos_bound; lia).
    rewrite (proj1 (hex_digit_value _ Hd)). rewrite IH, mod_next_nibble.
    rewrite Nat2Z.inj_succ, Z.pow_succ_r by lia. ring.
Qed.

Lemma write_pointer_loop_leading (p : Z) :
  0 <= p ->
  forall m : nat,
    read_hex 0 (write_pointer_loop (shifts_from m) p false) = p mod 16 ^ Z.of_nat m
    /\ (p mod 16 ^ Z.of_nat m <> 0 ->
        no_leading_zero (write_pointer_loop (shifts_from m) p false)).
Proof.
  intros Hp m. induction m as [|m [IH1 IH2]].
  - cbn [shifts_from write_pointer_loop read_hex].
    change (16 ^ Z.of_nat 0) with 1. rewrite Z.mod_1_r. split; [reflexivity|lia].
  - cbn [shifts_from write_pointer_loop]. rewrite nibble_value by exact Hp.
    rewrite mod_next_nibble.
    assert (Hd : 0 <= (p / 16 ^ Z.of_nat m) mod 16 < 16) by (apply Z.mod_pos_bound; lia).
    destruct ((p / 16 ^ Z.of_nat m) mod 16 =? 0) eqn:E.
    + apply Z.eqb_eq in E. cbn [negb andb]. rewrite E.
      split; [rewrite IH1; lia|]. intros Hnz. apply IH2. lia.
    + apply Z.eqb_neq in E. cbn [negb andb]. split.
      * cbn [read_hex]. rewrite (proj1 (hex_digit_value _ Hd)).
        rewrite write_pointer_loop_printed by exact Hp. ring.
      * intros _. eexists _, _. split; [reflexivity|].
        apply (proj2 (hex_digit_value _ Hd)). exact E.
Qed.

(** X2: [write_pointer] writes ["(nil)"] for the null pointer and
    otherwise ["0x"] followed by the hexadecimal numeral of the
    address: the digits read back as the address and there is no
    leading zero. *)
Theorem write_pointer_read_back (p : Z) :
  0 <= p < two64 ->
  (p = NULL -> write_pointer p = "(nil)"%string)
  /\ (p <> NULL ->
      exists ds, write_pointer p = ("0x" ++ ds)%string
                 /\ read_hex 0 ds = p /\ no_leading_zero ds).
Proof.
  intros Hp. split.
  - intros ->. reflexivity.
  - intros Hnz. unfold write_pointer.
    destruct (p =? NULL) eqn:E; [apply Z.eqb_eq in E; contradiction|].
    exists (write_pointer_loop nibble_shifts p false).
    split; [reflexivity|].
    change nibble_shifts with (shifts_from 16).
    destruct (write_pointer_loop_leading p ltac:(lia) 16) as [H1 H2].
    assert (Hm : p mod 16 ^ Z.of_nat 16 = p).
    { apply Z.mod_small. change (16 ^ Z.of_nat 16) with two64. exact Hp. }
    rewrite Hm in *. split; [exact H1|]. apply H2. exact Hnz.
Qed.

Lemma write_pointer_read_back_witness :
  0 <= 4192 < two64
  /\ write_pointer 4192 = "0x1060"%string
  /\ exists ds, write_pointer 4192 = ("0x" ++ ds)%string
                /\ read_hex 0 ds = 4192 /\ no_leading_zero ds.
Proof.
  assert (H : 0 <= 4192 < two64) by (unfold two64; lia).
  split; [exact H|]. split; [vm_compute; reflexivity|].
  apply (proj2 (write_pointer_read_back 4192 H)). discriminate.
Defined.

(** ** The searches only read *)

Lemma first_fit_loop_reads (need : Z) (st : state) :
  forall (fuel : nat) (current r : Z) (st' : state),
    first_fit_loop fuel need current st = Ok (r, st') ->
    st' = st /\ null_or_fits need st r.
Proof.
  induction fuel as [|fuel IH]; intros current r st' H; simpl in H.
  - destruct (current =? NULL); [|discriminate].
    injection H as <- <-. split; [reflexivity|left; reflexivity].
  - destruct (current =? NULL).
    { injection H as <- <-. split; [reflexivity|left; reflexivity]. }
    apply bind_inv in H as (b & s1 & Hl & H).
    apply load_inv in Hl as (-> & Hnn & Hb).
    destruct (fits need b) eqn:Hf.
    + injection H as <- <-. split; [reflexivity|]. right. exists b. auto.
    + apply IH in H. exact H.
Qed.

Lemma best_fit_loop_reads (need : Z) (st : state) :
  forall (fuel : nat) (current best r : Z) (st' : state),
    null_or_fits need st best ->
    best_fit_loop fuel need current best st = Ok (r, st') ->
    st' = st /\ null_or_fits need st r.
Proof.
  induction fuel as [|fuel IH]; intros current best r st' Hbest H; simpl in H.
  - destruct (current =? NULL); [|discriminate].
    injection H as <- <-. split; [reflexivity|exact Hbest].
  - destruct (current =? NULL).
    { injection H as <- <-. split; [reflexivity|exact Hbest]. }
    apply bind_inv in H as (b & s1 & Hl & H).
    apply load_inv in Hl as (-> & Hnn & Hb).
    assert (Hcur : fits need b = true -> null_or_fits need st current).
    { intros Hf. right. exists b. auto. }
    destruct (fits need b) eqn:Hf; [|exact (IH _ _ _ _ Hbest H)].
    destruct (best =? NULL); [exact (IH _ _ _ _ (Hcur eq_refl) H)|].
    apply bind_inv in H as (bb & s1 & Hl & H).
    apply load_inv in Hl as (-> & _ & _).
    destruct (slack b <? slack bb).
    + exact (IH _ _ _ _ (Hcur eq_refl) H).
    + exact (IH _ _ _ _ Hbest H).
Qed.

Lemma worst_fit_loop_reads (need : Z) (st : state) :
  forall (fuel : nat) (current worst r : Z) (st' : state),
    null_or_fits need st worst ->
    worst_fit_loop fuel need current worst st = Ok (r, st') ->
    st' = st /\ null_or_fits need st r.
Proof.
  induction fuel as [|fuel IH]; intros current worst r st' Hworst H; simpl in H.
  - destruct (current =? NULL); [|discriminate].
    injection H as <- <-. split; [reflexivity|exact Hworst].
  - destruct (current =? NULL).
    { injection H as <- <-. split; [reflexivity|exact Hworst]. }
    apply bind_inv in H as (b & s1 & Hl & H).
    apply load_inv in Hl as (-> & Hnn & Hb).
    assert (Hcur : fits need b = true -> null_or_fits need st current).
    { intros Hf. right. exists b. auto. }
    destruct (fits need b) eqn:Hf; [|exact (IH _ _ _ _ Hworst H)].
    destruct (worst =? NULL); [exact (IH _ _ _ _ (Hcur eq_refl) H)|].
    apply bind_inv in H as (wb & s1 & Hl & H).
    apply load_inv in Hl as (-> & _ & _).
    destruct (slack wb <? slack b).
    + exact (IH _ _ _ _ (Hcur eq_refl) H).
    + exact (IH _ _ _ _ Hworst H).
Qed.

Lemma reuse_reads (fuel : nat) (e : env) (need r : Z) (st st' : state) :
  reuse fuel e need st = Ok (r, st') -> st' = st /\ null_or_fits need st r.
Proof.
  assert (Hnull : null_or_fits need st NULL) by (left; reflexivity).
  unfold reuse, first_fit, best_fit, worst_fit, get_head.
  destruct (String.eqb _ "first_fit"); [|destruct (String.eqb _ "best_fit");
    [|destruct (String.eqb _ "worst_fit")]]; unfold bind; intros H.
  - destruct (g_head st =? NULL); [injection H as <- <-; auto|].
    exact (first_fit_loop_reads _ _ _ _ _ _ H).
  - destruct (g_head st =? NULL); [injection H as <- <-; auto|].
    exact (best_fit_loop_reads _ _ _ _ _ _ _ Hnull H).
  - destruct (g_head st =? NULL); [injection H as <- <-; auto|].
    exact (worst_fit_loop_reads _ _ _ _ _ _ _ Hnull H).
  - injection H as <- <-. auto.
Qed.

(** X3: the placement search only reads: whatever the policy and
    whatever the list looks like, [reuse] leaves the state as it found
    it, and what it returns is null or the address of a header in
    memory for which the test of the code,
    [size >= need + usage] in [size_t], holds. *)
Theorem reuse_read_only (fuel : nat) (e : env) (need r : Z) (st st' : state) :
  reuse fuel e need st = Ok (r, st') ->
  st' = st
  /\ (r = NULL
      \/ exists b, heap st !! r = Some b /\ wrap (need + usage b) <= size b).
Proof.
  intros H. apply reuse_reads in H as [-> [Hr|(b & Hb & Hf)]].
  - auto.
  - split; [reflexivity|]. right. exists b. split; [exact Hb|].
    unfold fits in Hf. apply Z.leb_le in Hf. exact Hf.
Qed.

Lemma reuse_read_only_witness :
  reuse 8 (env_policy "best_fit") 16 three_regions = Ok (8192, three_regions)
  /\ exists b, heap three_regions !! 8192 = Some b /\ wrap (16 + usage b) <= size b.
Proof.
  assert (H : reuse 8 (env_policy "best_fit") 16 three_regions = Ok (8192, three_regions))
    by (vm_compute; reflexivity).
  split; [exact H|].
  destruct (reuse_read_only 8 (env_policy "best_fit") 16 8192 three_regions three_regions H)
    as [_ [Hn|Hb]]; [discriminate|exact Hb].
Defined.

(** ** What a call of [expand_heap] leaves behind *)

Lemma find_tail_inv (st : state) :
  forall (fuel : nat) (p t : Z) (st' : state),
    find_tail fuel p st = Ok (t, st') ->
    st' = st /\ t <> NULL /\ exists bt, heap st !! t = Some bt /\ next bt = NULL.
Proof.
  induction fuel as [|fuel IH]; intros p t st' H; simpl in H; [discriminate|].
  apply bind_inv in H as (b & s1 & Hl & H).
  apply load_inv in Hl as (-> & Hnn & Hb).
  destruct (next b =? NULL) eqn:E.
  - injection H as <- <-. apply Z.eqb_eq in E. split; [reflexivity|].
    split; [exact Hnn|]. exists b. auto.
  - exact (IH _ _ _ H).
Qed.

Lemma expand_heap_inv (fuel : nat) (e : env) (need r : Z) (st st' : state) :
  expand_heap fuel e need st = Ok (r, st') ->
  let len := map_length e need in
  let blk := MemBlock (g_allocations st) EmptyString len 0 r len NULL in
  (mmap_result e len = None /\ r = NULL
   /\ st' = State (g_head st) (g_allocations st) (heap st)
                  (trace st ++ [EMmap len None; EPerror "mmap"]))
  \/ (mmap_result e len = Some r /\ r <> NULL
      /\ trace st' = trace st ++ [EMmap len (Some r)]
      /\ g_allocations st' = wrap (g_allocations st + 1)
      /\ ((g_head st = NULL /\ g_head st' = r /\ heap st' = <[r := blk]> (heap st))
          \/ (g_head st <> NULL /\ g_head st' = g_head st
              /\ exists t bt,
                   t <> NULL /\ <[r := blk]> (heap st) !! t = Some bt /\ next bt = NULL
                   /\ heap st' = <[t := set_next r bt]> (<[r := blk]> (heap st))))).
Proof.
  intros H len blk. unfold expand_heap in H. fold (map_length e need) in H. fold len in H.
  unfold mmap in H. apply bind_inv in H as (m & s1 & Hm & H).
  apply bind_inv in Hm as ([] & s0 & Hemit & Hret).
  unfold emit in Hemit. injection Hemit as <-. unfold ret in Hret. injection Hret as <- <-.
  destruct (mmap_result e len) as [block|] eqn:Em.
  - right. apply bind_inv in H as (id & s1 & Hid & H).
    unfold next_alloc_id in Hid. cbn [g_head g_allocations heap trace] in Hid.
    injection Hid as <- <-.
    apply bind_inv in H as ([] & s1 & Hs & H).
    unfold store in Hs. destruct (block =? NULL) eqn:Eb; [discriminate|].
    apply Z.eqb_neq in Eb. cbn [g_head g_allocations heap trace] in Hs.
    injection Hs as <-.
    apply bind_inv in H as (head & s1 & Hh & H).
    unfold get_head in Hh. cbn [g_head] in Hh. injection Hh as <- <-.
    apply bind_inv in H as ([] & s1 & Hlink & H).
    unfold ret in H. injection H as <- <-.
    destruct (g_head st =? NULL) eqn:Eh.
    + apply Z.eqb_eq in Eh. unfold set_head in Hlink.
      cbn [g_head g_allocations heap trace] in Hlink. injection Hlink as <-.
      cbn [g_head g_allocations heap trace].
      split; [reflexivity|]. split; [exact Eb|]. split; [reflexivity|].
      split; [reflexivity|]. left. auto.
    + apply Z.eqb_neq in Eh.
      apply bind_inv in Hlink as (t & s2 & Ht & Hmod).
      apply find_tail_inv in Ht as (-> & Htn & bt & Hbt & Hnext).
      match type of Hmod with
      | modify _ _ ?s = _ => rewrite (modify_ok t _ bt s Htn Hbt) in Hmod
      end.
      injection Hmod as <-. cbn [heap] in Hbt.
      cbn [g_head g_allocations heap trace with_heap].
      split; [reflexivity|]. split; [exact Eb|]. split; [reflexivity|].
      split; [reflexivity|]. right. split; [exact Eh|]. split; [reflexivity|].
      exists t, bt. auto.
  - left. apply bind_inv in H as ([] & s1 & Hemit & Hret).
    unfold emit in Hemit. cbn [g_head g_allocations heap trace] in Hemit.
    injection Hemit as <-. unfold ret in Hret. injection Hret as <- <-.
    split; [reflexivity|]. split; [reflexivity|].
    rewrite <- app_assoc. reflexivity.
Qed.




Lemma lseg_app (h : gmap Z mem_block) (l1 l2 : list (Z * mem_block)) (p q : Z) :
  lseg h p (l1 ++ l2) q <-> exists m, lseg h p l1 m /\ lseg h m l2 q.
Proof.
  rewrite lseg_iff, stored_app, linked_app. split.
  - intros ((H1 & H2) & m & H3 & H4). exists m.
    split; apply lseg_iff; split; assumption.
  - intros (m & H1 & H2). apply lseg_iff in H1 as [H1 H3]. apply lseg_iff in H2 as [H2 H4].
    split; [split; assumption|]. exists m. split; assumption.
Qed.

(** A null-terminated list visits no header twice. *)
Lemma chain_NoDup (h : gmap Z mem_block) (l : list (Z * mem_block)) :
  forall p : Z, chain h p l -> List.NoDup (addrs l).
Proof.
  induction l as [|ab l IH]; intros p Hc; [constructor|].
  pose proof Hc as Hc0. destruct Hc as (Hp & Hnn & Hb & Hrest).
  simpl. constructor; [|exact (IH _ Hrest)].
  intros Hin. apply in_map_iff in Hin as (x & Hx & Hin).
  apply in_split in Hin as (l1 & l2 & ->).
  apply lseg_app in Hrest as (m & _ & Hm).
  assert (Hm' : chain h p (x :: l2)).
  { destruct Hm as (Hmx & Hm). split; [|exact Hm]. rewrite Hp, <- Hx. reflexivity. }
  pose proof (chain_unique h _ _ _ Hc0 Hm') as Heq.
  apply (f_equal (@length _)) in Heq. simpl in Heq. rewrite length_app in Heq.
  simpl in Heq. lia.
Qed.

Lemma relink_last_snoc (q t : Z) (bt : mem_block) (l0 : list (Z * mem_block)) :
  relink_last q (l0 ++ [(t, bt)]) = l0 ++ [(t, set_next q bt)].
Proof.
  induction l0 as [|ab l0 IH]; [reflexivity|].
  simpl. rewrite IH. destruct l0; reflexivity.
Qed.

Lemma expand_heap_tail (fuel : nat) (e : env) (need r : Z) (st : state)
    (l : list (Z * mem_block)) :
  chain (heap st) (g_head st) l -> (length l <= fuel)%nat ->
  mmap_result e (map_length e need) = Some r -> r <> NULL -> ~ In r (addrs l) ->
  let len := map_length e need in
  let blk := MemBlock (g_allocations st) EmptyString len 0 r len NULL in
  exists st',
    expand_heap fuel e need st = Ok (r, st')
    /\ chain (heap st') (g_head st') (relink_last r l ++ [(r, blk)])
    /\ g_allocations st' = wrap (g_allocations st + 1).
Proof.
  intros Hc Hf Hm Hrn Hfresh len blk.
  pose proof (chain_NoDup _ _ _ Hc) as Hnd.
  apply lseg_iff in Hc as [Hst Hl].
  set (st1 := State (g_head st) (wrap (g_allocations st + 1))
                    (<[r := blk]> (heap st)) (trace st ++ [EMmap len (Some r)])).
  assert (Hstart : expand_heap fuel e need st =
    (let* head := get_head in
     (if head =? NULL then set_head r
      else let* curr := find_tail fuel head in modify curr (set_next r)) ;;
     ret r) st1).
  { unfold expand_heap. fold (map_length e need). fold len.
    assert (Hm' : mmap_result e len = Some r) by exact Hm.
    unfold mmap, bind at 1, bind at 1, emit at 1, ret at 1. rewrite Hm'.
    unfold bind at 1, next_alloc_id. unfold bind at 1, store.
    destruct (r =? NULL) eqn:E; [apply Z.eqb_eq in E; contradiction|].
    reflexivity. }
  assert (Hst1 : stored (heap st1) l) by (apply stored_insert_other; assumption).
  assert (Hrl : heap st1 !! r = Some blk) by apply lookup_insert_eq.
  assert (Hcase : l = [] \/ exists l0 t bt, l = l0 ++ [(t, bt)]).
  { destruct l as [|ab l'] using rev_ind; [left; reflexivity|].
    right. destruct ab as [t bt]. exists l', t, bt. reflexivity. }
  destruct Hcase as [->|(l0 & t & bt & ->)].
  - simpl in Hl.
    exists (State r (wrap (g_allocations st + 1)) (<[r := blk]> (heap st))
                  (trace st ++ [EMmap len (Some r)])).
    split.
    { rewrite Hstart. unfold st1, bind, get_head. cbn [g_head]. rewrite Hl. reflexivity. }
    split; [|reflexivity].
    simpl. split; [reflexivity|]. split; [exact Hrn|]. split; [exact Hrl|reflexivity].
  - assert (Hhead : g_head st <> NULL).
    { destruct l0 as [|ab l0]; simpl in Hl, Hst1.
      - destruct Hl as [-> _]. inversion Hst1 as [|? ? [Hx _] _]; subst. exact Hx.
      - destruct Hl as [-> _]. inversion Hst1 as [|? ? [Hx _] _]; subst. exact Hx. }
    destruct (stored_in _ _ t bt Hst1 ltac:(apply in_elt)) as [Htn Htl].
    assert (Hft : find_tail fuel (g_head st) st1 = Ok (t, st1)).
    { apply (find_tail_spec st1 t bt l0).
      - apply lseg_iff. split; [exact Hst1|exact Hl].
      - rewrite length_app in Hf. simpl in Hf. lia. }
    exists (with_heap (<[t := set_next r bt]> (heap st1)) st1).
    split.
    { rewrite Hstart. unfold bind at 1, get_head.
      change (g_head st1) with (g_head st).
      destruct (g_head st =? NULL) eqn:E; [apply Z.eqb_eq in E; contradiction|].
      unfold bind at 1. rewrite (bind_ok _ _ _ _ _ Hft).
      rewrite (modify_ok t _ bt st1 Htn Htl). reflexivity. }
    split; [|reflexivity].
    rewrite relink_last_snoc, <- app_assoc. apply lseg_iff. split.
    + simpl heap. apply stored_update with (b := bt).
      * apply stored_app. apply stored_app in Hst1 as [H1 H2]. split; [exact H1|].
        inversion H2; subst. constructor; [assumption|].
        constructor; [split; [exact Hrn|exact Hrl]|constructor].
      * unfold addrs in *. rewrite map_app in *. simpl in *.
        replace (map fst l0 ++ [t; r]) with ((map fst l0 ++ [t]) ++ [r])
          by (rewrite <- app_assoc; reflexivity).
        apply List.NoDup_app; [exact Hnd|constructor; [intros []|constructor]|].
        intros x Hx [<-|[]]. contradiction.
    + simpl g_head. apply linked_app in Hl as (m & H1 & H2).
      apply linked_app. exists m. split; [exact H1|]. simpl in *.
      destruct H2 as [Hmt _]. repeat split; assumption.
Qed.

(** X5: [expand_heap] appends: on a null-terminated list that does not
    hold the mapped address, a successful call leaves the same headers
    in the same order, the last of them now pointing to the new header,
    which ends the list; the new header is free, spans the mapped
    length and is its own region start. *)
Theorem expand_heap_appends (fuel : nat) (e : env) (need r : Z) (st : state)
    (l : list (Z * mem_block)) :
  chain (heap st) (g_head st) l -> (length l <= fuel)%nat ->
  mmap_result e (map_length e need) = Some r -> r <> NULL -> ~ In r (addrs l) ->
  let len := map_length e need in
  let blk := MemBlock (g_allocations st) EmptyString len 0 r len NULL in
  exists st',
    expand_heap fuel e need st = Ok (r, st')
    /\ chain (heap st') (g_head st') (relink_last r l ++ [(r, blk)])
    /\ g_allocations st' = wrap (g_allocations st + 1).
Proof. exact (expand_heap_tail fuel e need r st l). Qed.

Lemma expand_heap_appends_witness :
  (chain (heap one_block) (g_head one_block) [(4096, block_whole)]
   /\ (length [(4096, block_whole)] <= 8)%nat
   /\ mmap_result (env_at 8192) (map_length (env_at 8192) 96) = Some 8192
   /\ 8192 <> NULL
   /\ ~ In 8192 (addrs [(4096, block_whole)]))
  /\ exists st',
       expand_heap 8 (env_at 8192) 96 one_block = Ok (8192, st')
       /\ chain (heap st') (g_head st')
            [(4096, set_next 8192 block_whole);
             (8192, MemBlock 1 EmptyString 4096 0 8192 4096 NULL)]
       /\ g_allocations st' = 2.
Proof.
  assert (H1 : chain (heap one_block) (g_head one_block) [(4096, block_whole)])
    by exact one_block_chain.
  assert (H2 : (length [(4096, block_whole)] <= 8)%nat) by (simpl; lia).
  assert (H3 : mmap_result (env_at 8192) (map_length (env_at 8192) 96) = Some 8192)
    by (vm_compute; reflexivity).
  assert (H4 : 8192 <> NULL) by discriminate.
  assert (H5 : ~ In 8192 (addrs [(4096, block_whole)])).
  { simpl. intros [H|[]]. discriminate. }
  split; [exact (conj H1 (conj H2 (conj H3 (conj H4 H5))))|].
  exact (expand_heap_appends 8 (env_at 8192) 96 8192 one_block [(4096, block_whole)]
           H1 H2 H3 H4 H5).
Defined.

(** ** The states a client can reach *)

Section Safety.

Variable hdr : Z.
Hypothesis hdr_pos : 0 < hdr.
Variable name_cap : Z.

Lemma reachable_inv (st : state) : reachable hdr name_cap st -> inv hdr st.
Proof.
  induction 1 as [|st fuel e c r st' _ IH Henv Hlegal Hexec].
  - exists []. split; [|constructor].
    split; [reflexivity|]. split; [constructor|exact I].
  - exact (exec_inv hdr hdr_pos name_cap fuel e c st st' r IH Henv Hlegal Hexec).
Qed.

Lemma other_region_disjoint (r : region) (R : list region) (a a' : Z) (b b' : mem_block) :
  region_wf hdr r -> Forall (region_wf hdr) R -> Forall (apart r) R ->
  In (a, b) (r_blocks r) -> In (a', b') (flat R) ->
  a + size b <= a' \/ a' + size b' <= a.
Proof.
  intros Hr HR Hap Hin Hin'.
  apply in_flat in Hin' as (r' & Hr' & Hin').
  rewrite List.Forall_forall in HR, Hap.
  destruct (region_inside hdr hdr_pos r (a, b) Hr Hin) as ([H1 H2] & H3 & _).
  destruct (region_inside hdr hdr_pos r' (a', b') (HR r' Hr') Hin') as ([H4 H5] & H6 & _).
  pose proof (block_ok_size hdr hdr_pos r (a, b)
                (proj2 (proj2 (region_inside hdr hdr_pos r (a, b) Hr Hin)))) as Hs.
  pose proof (block_ok_size hdr hdr_pos r' (a', b')
                (proj2 (proj2 (region_inside hdr hdr_pos r' (a', b') (HR r' Hr') Hin'))))
    as Hs'.
  simpl in *. destruct (Hap r' Hr') as [Hd|Hd]; lia.
Qed.

Lemma wf_blocks_disjoint (st : state) (regs : list region) (a a' : Z) (b b' : mem_block) :
  wf hdr st regs -> In (a, b) (flat regs) -> In (a', b') (flat regs) -> a <> a' ->
  a + size b <= a' \/ a' + size b' <= a.
Proof.
  intros Hw Hin Hin' Hne.
  destruct (wf_elim hdr hdr_pos _ _ Hw) as (_ & _ & Hrw & Ha & _).
  destruct (in_flat_split regs a b Hin) as (R1 & r & R2 & bs1 & bs2 & -> & Hbs).
  rewrite (flat_focus_block R1 R2 r bs1 bs2 (a, b) Hbs) in Hin'.
  apply Forall_app in Hrw as [Hrw1 Hrw2]. inversion Hrw2 as [|? ? Hr HrwR2]; subst.
  apply all_apart_mid in Ha as (_ & Ha1 & Ha2).
  assert (Hmine : In (a, b) (r_blocks r)) by (rewrite Hbs; apply in_elt).
  pose proof (region_sizes hdr hdr_pos r Hr) as Hsz.
  pose proof Hr as Hr0. destruct Hr as (_ & _ & _ & Hlay & _).
  apply in_app_or in Hin' as [Hin'|[Heq|Hin']].
  - apply in_app_or in Hin' as [Hin'|Hin'].
    + exact (other_region_disjoint r R1 a a' b b' Hr0 Hrw1 Ha1 Hmine Hin').
    + apply in_split in Hin' as (c1 & c2 & ->).
      rewrite <- app_assoc in Hbs. simpl in Hbs. rewrite Hbs in Hlay, Hsz.
      destruct (laid_out_split_bounds _ _ _ _ _ _ Hlay Hsz) as [_ Hafter].
      rewrite List.Forall_forall in Hafter.
      right. exact (Hafter (a, b) ltac:(apply in_elt)).
  - injection Heq as Heq _. congruence.
  - apply in_app_or in Hin' as [Hin'|Hin'].
    + rewrite Hbs in Hlay, Hsz.
      destruct (laid_out_split_bounds _ _ _ _ _ _ Hlay Hsz) as [_ Hafter].
      rewrite List.Forall_forall in Hafter.
      left. exact (Hafter (a', b') Hin').
    + exact (other_region_disjoint r R2 a a' b b' Hr0 HrwR2 Ha2 Hmine Hin').
Qed.

(** X6: in every state a client can reach, the blocks of the list do
    not overlap: every header lies in user space with its whole block,
    is at least as large as a header, is free or uses between a header
    and its whole size, and the blocks of two different headers are
    disjoint address ranges.  So the payloads of two live allocations
    never share a byte. *)
Theorem reachable_blocks_disjoint (st : state) (l : list (Z * mem_block)) :
  reachable hdr name_cap st -> chain (heap st) (g_head st) l ->
  List.NoDup (addrs l)
  /\ (forall a b, In (a, b) l ->
        0 < a /\ a + size b <= half /\ hdr <= size b
        /\ (usage b = 0 \/ hdr <= usage b <= size b))
  /\ (forall a b a' b', In (a, b) l -> In (a', b') l -> a <> a' ->
        a + size b <= a' \/ a' + size b' <= a).
Proof.
  intros Hreach Hc. destruct (reachable_inv st Hreach) as (regs & Hw & _).
  assert (Hl : l = flat regs) by exact (chain_unique _ _ _ _ Hc (proj1 Hw)).
  subst l. split; [exact (proj2 (proj2 (proj2 (proj2 (wf_elim hdr hdr_pos _ _ Hw)))))|].
  split.
  - intros a b Hin.
    destruct (wf_address hdr hdr_pos st regs a b Hw Hin) as (_ & _ & Ha & Hend & Hsz & _).
    split; [exact Ha|]. split; [exact Hend|]. split; [exact Hsz|].
    apply in_flat in Hin as (r & Hr & Hin).
    destruct (wf_elim hdr hdr_pos _ _ Hw) as (_ & _ & Hrw & _).
    rewrite List.Forall_forall in Hrw.
    destruct (region_inside hdr hdr_pos r (a, b) (Hrw r Hr) Hin) as (_ & _ & Hok).
    destruct Hok as (_ & _ & _ & Hu). exact Hu.
  - intros a b a' b' Hin Hin' Hne.
    exact (wf_blocks_disjoint st regs a a' b b' Hw Hin Hin' Hne).
Qed.

Lemma laid_out_total (bs : list (Z * mem_block)) :
  forall lo hi : Z, laid_out lo hi bs -> total_size bs = hi - lo.
Proof.
  induction bs as [|ab bs IH]; intros lo hi H; simpl in *.
  - lia.
  - destruct H as [<- H]. rewrite (IH _ _ H). lia.
Qed.

Lemma apart_starts (r r' : region) :
  region_wf hdr r -> region_wf hdr r' -> apart r r' -> r_start r <> r_start r'.
Proof.
  intros (_ & H1 & _) (_ & H2 & _) Hap. unfold apart, r_end in Hap. lia.
Qed.

Lemma region_headers_own (r : region) :
  region_wf hdr r -> region_headers (r_start r) (r_blocks r) = r_blocks r.
Proof.
  intros (_ & _ & _ & _ & Hok). unfold region_headers.
  induction Hok as [|ab bs Hab _ IH]; [reflexivity|].
  simpl. destruct Hab as (-> & _). rewrite Z.eqb_refl, IH. reflexivity.
Qed.

Lemma region_headers_other (rs : Z) (R : list region) :
  Forall (region_wf hdr) R -> Forall (fun r' => rs <> r_start r') R ->
  region_headers rs (flat R) = [].
Proof.
  intros HR Hne. unfold region_headers.
  induction HR as [|r' R Hr' _ IH]; [reflexivity|].
  inversion Hne as [|? ? Hn Hne']; subst.
  simpl. rewrite List.filter_app, (IH Hne'), app_nil_r.
  destruct Hr' as (_ & _ & _ & _ & Hok).
  induction Hok as [|ab bs Hab _ IHb]; [reflexivity|].
  simpl. destruct Hab as (Hs & _). rewrite Hs.
  destruct (r_start r' =? rs) eqn:E; [apply Z.eqb_eq in E; congruence|exact IHb].
Qed.

Lemma region_headers_flat (R1 R2 : list region) (r : region) :
  Forall (region_wf hdr) (R1 ++ r :: R2) -> all_apart (R1 ++ r :: R2) ->
  region_headers (r_start r) (flat (R1 ++ r :: R2)) = r_blocks r.
Proof.
  intros Hrw Ha. apply all_apart_mid in Ha as (_ & Ha1 & Ha2).
  apply Forall_app in Hrw as [Hrw1 Hrw2]. inversion Hrw2 as [|? ? Hr HrwR2]; subst.
  rewrite flat_app. simpl. unfold region_headers. rewrite !List.filter_app.
  fold (region_headers (r_start r) (flat R1)).
  fold (region_headers (r_start r) (flat R2)).
  fold (region_headers (r_start r) (r_blocks r)).
  rewrite region_headers_own by exact Hr.
  rewrite (region_headers_other (r_start r) R1), (region_headers_other (r_start r) R2).
  - rewrite app_nil_r. reflexivity.
  - exact HrwR2.
  - rewrite List.Forall_forall in *. intros r' Hr'.
    exact (apart_starts r r' Hr (HrwR2 r' Hr') (Ha2 r' Hr')).
  - exact Hrw1.
  - rewrite List.Forall_forall in *. intros r' Hr'.
    exact (apart_starts r r' Hr (Hrw1 r' Hr') (Ha1 r' Hr')).
Qed.

(** X7: in every state a client can reach, each region is tiled by
    its headers: for a header of the list, the sizes of the headers
    that name its region add up to [region_size], the region start is
    itself a header of the list, and the block of the header lies
    inside the region. *)
Theorem reachable_regions_tiled (st : state) (l : list (Z * mem_block))
    (a : Z) (b : mem_block) :
  reachable hdr name_cap st -> chain (heap st) (g_head st) l -> In (a, b) l ->
  total_size (region_headers (region_start b) l) = region_size b
  /\ (exists b0, In (region_start b, b0) l
                 /\ region_start b0 = region_start b /\ region_size b0 = region_size b)
  /\ region_start b <= a /\ a + size b <= region_start b + region_size b.
Proof.
  intros Hreach Hc Hin. destruct (reachable_inv st Hreach) as (regs & Hw & _).
  assert (Hl : l = flat regs) by exact (chain_unique _ _ _ _ Hc (proj1 Hw)).
  subst l. destruct (wf_elim hdr hdr_pos _ _ Hw) as (_ & _ & Hrw & Ha & _).
  destruct (in_flat_split regs a b Hin) as (R1 & r & R2 & bs1 & bs2 & -> & Hbs).
  assert (Hr : region_wf hdr r).
  { apply Forall_app in Hrw as [_ Hrw2]. inversion Hrw2; subst. assumption. }
  assert (Hmine : In (a, b) (r_blocks r)) by (rewrite Hbs; apply in_elt).
  destruct (region_inside hdr hdr_pos r (a, b) Hr Hmine) as ([Hlo Hhi] & Hend & Hok).
  destruct Hok as (Hrs & Hrsz & _). simpl in *.
  rewrite Hrs, Hrsz. split.
  - rewrite (region_headers_flat R1 R2 r Hrw Ha).
    destruct Hr as (_ & _ & _ & Hlay & _).
    rewrite (laid_out_total _ _ _ Hlay). unfold r_end. lia.
  - split; [|unfold r_end in *; lia].
    destruct (region_first hdr r Hr) as (b0 & bs & Hfirst).
    assert (Hin0 : In (r_start r, b0) (r_blocks r)) by (rewrite Hfirst; left; reflexivity).
    exists b0. split.
    + apply in_flat. exists r. split; [apply in_elt|exact Hin0].
    + destruct (region_inside hdr hdr_pos r _ Hr Hin0) as (_ & _ & H1 & H2 & _).
      simpl in *. auto.
Qed.

(** *** The three ways of an allocation *)

Lemma mapped_fresh (st : state) (e : env) (regs : list region) (len rr : Z) :
  wf hdr st regs -> env_ok st e -> mmap_result e len = Some rr ->
  rr <> NULL /\ ~ In rr (addrs (flat regs)).
Proof.
  intros Hw Henv Hm.
  pose proof (fresh_apart hdr hdr_pos st e regs len rr Hw Henv Hm []) as Hap.
  destruct Henv as (_ & Henv). destruct (Henv len rr Hm) as (Hlen & Hrr & _).
  split; [unfold NULL; lia|].
  destruct (wf_elim hdr hdr_pos _ _ Hw) as (_ & _ & Hrw & _).
  intros Hx. apply in_map_iff in Hx as (ab & Heq & Hab).
  destruct (flat_inside hdr hdr_pos regs ab Hrw Hab) as (r' & Hr' & Hi).
  rewrite List.Forall_forall in Hap. specialize (Hap r' Hr').
  apply (apart_inside r' _ (fst ab) Hap Hi). rewrite Heq.
  unfold inside, r_end. simpl. lia.
Qed.

Lemma malloc_unsafe_cases (fuel : nat) (e : env) (sz p : Z) (st st' : state)
    (regs : list region) :
  wf hdr st regs -> env_ok st e -> 0 <= sz -> sz + 8 + hdr <= half ->
  (length (flat regs) <= fuel)%nat ->
  malloc_unsafe hdr fuel e sz st = Ok (p, st') ->
  let need := align8 sz + hdr in
  (exists l1 c a0 l2,
      flat regs = l1 ++ (c, a0) :: l2 /\ usage a0 = 0 /\ need <= size a0
      /\ reuse fuel e need st = Ok (c, st)
      /\ p = payload hdr c
      /\ st' = scribbled e p (align8 sz)
                 (with_heap (<[c := set_usage need a0]> (heap st)) st)
      /\ exists regs',
           wf hdr st' regs' /\ flat regs' = take_free need l1 c a0 l2
           /\ exists R1 rg R2 bs1 bs2,
                regs = R1 ++ rg :: R2 /\ r_blocks rg = bs1 ++ (c, a0) :: bs2
                /\ l1 = flat R1 ++ bs1 /\ l2 = bs2 ++ flat R2
                /\ regs' = R1 ++ with_blocks (bs1 ++ (c, set_usage need a0) :: bs2) rg
                               :: R2)
  \/ (exists l1 c a0 l2,
      flat regs = l1 ++ (c, a0) :: l2 /\ usage a0 <> 0 /\ need <= size a0 - usage a0
      /\ reuse fuel e need st = Ok (c, st)
      /\ p = payload hdr (c + usage a0)
      /\ ~ In (c + usage a0) (addrs (flat regs))
      /\ st' = scribbled e p (align8 sz)
                 (State (g_head st) (wrap (g_allocations st + 1))
                    (<[c := set_next (c + usage a0) (set_size (usage a0) a0)]>
                       (<[c + usage a0 :=
                            MemBlock (g_allocations st) EmptyString (size a0 - usage a0)
                              need (region_start a0) (region_size a0) (next a0)]>
                          (heap st)))
                    (trace st))
      /\ exists regs',
           wf hdr st' regs' /\ flat regs' = carve (g_allocations st) need l1 c a0 l2
           /\ exists R1 rg R2 bs1 bs2,
                regs = R1 ++ rg :: R2 /\ r_blocks rg = bs1 ++ (c, a0) :: bs2
                /\ l1 = flat R1 ++ bs1 /\ l2 = bs2 ++ flat R2
                /\ regs' = R1 ++ with_blocks
                                  (bs1 ++ (c, set_next (c + usage a0) (set_size (usage a0) a0))
                                       :: (c + usage a0,
                                           MemBlock (g_allocations st) EmptyString
                                             (size a0 - usage a0) need
                                             (region_start a0) (region_size a0) (next a0))
                                       :: bs2) rg :: R2)
  \/ (exists rr st1,
      mmap_result e (map_length e need) = Some rr
      /\ expand_heap fuel e need st = Ok (rr, st1)
      /\ rr <> NULL /\ ~ In rr (addrs (flat regs))
      /\ need <= map_length e need
      /\ p = payload hdr rr
      /\ st' = scribbled e p (align8 sz)
                 (with_heap (<[rr := MemBlock (g_allocations st) EmptyString
                                        (map_length e need) need rr (map_length e need) NULL]>
                               (heap st1)) st1)
      /\ exists regs',
           wf hdr st' regs'
           /\ flat regs' = append_region (g_allocations st) need (map_length e need) rr
                             (flat regs)
           /\ exists regs0,
                regs' = regs0 ++ [Region rr (map_length e need)
                                    [(rr, MemBlock (g_allocations st) EmptyString
                                            (map_length e need) need rr
                                            (map_length e need) NULL)]]
                /\ flat regs0 = relink_last rr (flat regs)
                /\ (Forall has_live regs -> Forall has_live regs0)).
Proof.
  intros Hw Henv Hsz0 Hsz1 Hf H need.
  destruct (need_bounds hdr hdr_pos sz Hsz0 Hsz1) as (Hneed & Hn1 & Hn2).
  fold need in Hneed, Hn1, Hn2.
  pose proof (proj1 Hw) as Hc.
  pose proof (wf_in_bounds hdr hdr_pos st regs need Hw ltac:(lia)) as Hib.
  destruct (reuse_run fuel e need st (flat regs) Hc Hf ltac:(lia) Hib)
    as (r & Hreuse & Hr).
  destruct Hr as [->|(a0 & Hin & Hcand)].
  - (* nothing to reuse *)
    right. right.
    assert (Hch : choose_block fuel e (wrap (align8 sz + hdr)) st
                  = expand_heap fuel e need st).
    { unfold choose_block. fold need. rewrite Hneed.
      rewrite (bind_ok _ _ _ _ _ Hreuse). reflexivity. }
    destruct (mmap_result e (map_length e need)) as [rr|] eqn:Hm.
    2:{ exfalso.
        rewrite (malloc_unsafe_no_memory hdr fuel e sz st) in H; [discriminate| |].
        - fold need. rewrite Hneed. exact Hreuse.
        - fold need. rewrite Hneed. exact Hm. }
    destruct (mapped_fresh st e regs _ rr Hw Henv Hm) as [Hrrn Hfresh].
    destruct (expand_heap_run hdr hdr_pos fuel e need st regs rr Hw Henv Hn1 Hn2 Hf Hm)
      as (st1 & regs0 & Hexp & Hw1 & Hge & Hlive0 & _ & _).
    destruct (expand_heap_tail fuel e need rr st (flat regs) Hc Hf Hm Hrrn Hfresh)
      as (st1' & Hexp' & Hchain1 & _).
    rewrite Hexp in Hexp'. injection Hexp' as <-.
    set (len := map_length e need) in *.
    set (blk := MemBlock (g_allocations st) EmptyString len 0 rr len NULL) in *.
    assert (Hflat0 : flat regs0 = relink_last rr (flat regs)).
    { pose proof (chain_unique _ _ _ _ (proj1 Hw1) Hchain1) as Heq.
      rewrite flat_app in Heq. simpl in Heq.
      apply app_inj_tail in Heq as [Heq _]. exact Heq. }
    assert (Hin : In (rr, blk) (flat (regs0 ++ [Region rr len [(rr, blk)]]))).
    { rewrite flat_app. simpl. apply in_app_iff. right. left. reflexivity. }
    destruct (wf_address hdr hdr_pos st1 _ rr blk Hw1 Hin) as (_ & Hlook & Hpos & Hend & _).
    rewrite Hexp in Hch. unfold blk in Hend. simpl in Hend.
    destruct (malloc_unsafe_result hdr fuel e sz rr st st1 blk Hch Hrrn Hlook
                ltac:(lia) ltac:(unfold blk; simpl; lia)
                ltac:(unfold blk; simpl; unfold two64, half in *; lia))
      as [Hzero _].
    rewrite (Hzero eq_refl) in H. injection H as <- <-.
    fold need. rewrite Hneed.
    exists rr, st1. split; [reflexivity|]. split; [exact Hexp|].
    split; [exact Hrrn|]. split; [exact Hfresh|]. split; [exact Hge|].
    split; [reflexivity|]. split; [reflexivity|].
    exists (regs0 ++ with_blocks [(rr, set_usage need blk)] (Region rr len [(rr, blk)]) :: []).
    split.
    + apply wf_scribbled.
      apply (wf_update hdr hdr_pos st1 regs0 [] (Region rr len [(rr, blk)]) [] [] rr blk
               (set_usage need blk) Hw1); [reflexivity|reflexivity|reflexivity|].
      unfold block_ok. simpl. split; [reflexivity|]. split; [reflexivity|].
      split; [lia|right; lia].
    + split; [rewrite flat_focus; simpl; rewrite Hflat0; reflexivity|].
      exists regs0. split; [reflexivity|]. split; [exact Hflat0|exact Hlive0].
  - (* a header of the list is taken *)
    destruct (wf_address hdr hdr_pos st regs r a0 Hw Hin)
      as (Hrn & Hlook & Hpos & Hend & Hsize & _).
    assert (Hch : choose_block fuel e (wrap (align8 sz + hdr)) st = Ok (r, st)).
    { unfold choose_block. fold need. rewrite Hneed.
      rewrite (bind_ok _ _ _ _ _ Hreuse).
      destruct (r =? NULL) eqn:E; [apply Z.eqb_eq in E; contradiction|reflexivity]. }
    destruct (in_flat_split regs r a0 Hin) as (R1 & rg & R2 & bs1 & bs2 & -> & Hbs).
    destruct (wf_elim hdr hdr_pos _ _ Hw) as (_ & _ & Hrw & _ & _).
    apply Forall_mid in Hrw as [_ Hrg].
    assert (Hmine : In (r, a0) (r_blocks rg)) by (rewrite Hbs; apply in_elt).
    destruct (region_inside hdr hdr_pos rg (r, a0) Hrg Hmine) as (_ & _ & Hok).
    pose proof Hok as (Hrs & Hrz & _ & Hus). simpl in Hrs, Hrz, Hus.
    unfold candidate, tail_slack in Hcand.
    destruct (malloc_unsafe_result hdr fuel e sz r st st a0 Hch Hrn Hlook
                ltac:(lia) ltac:(lia) ltac:(unfold two64, half in *; lia))
      as [Hzero Hsplit].
    fold need in Hzero, Hsplit. rewrite Hneed in Hzero, Hsplit.
    rewrite (flat_focus_block R1 R2 rg bs1 bs2 (r, a0) Hbs).
    destruct (Z.eq_dec (usage a0) 0) as [Hz|Hnz].
    + left. rewrite (Hzero Hz) in H. injection H as <- <-.
      exists (flat R1 ++ bs1), r, a0, (bs2 ++ flat R2).
      split; [reflexivity|]. split; [exact Hz|]. split; [lia|]. split; [exact Hreuse|].
      split; [reflexivity|]. split; [reflexivity|].
      exists (R1 ++ with_blocks (bs1 ++ (r, set_usage need a0) :: bs2) rg :: R2).
      split.
      * apply wf_scribbled.
        apply (wf_update hdr hdr_pos st R1 R2 rg bs1 bs2 r a0 (set_usage need a0) Hw Hbs);
          [reflexivity|reflexivity|].
        unfold block_ok. simpl. split; [exact Hrs|]. split; [exact Hrz|].
        split; [exact Hsize|right; lia].
      * split; [rewrite flat_focus; unfold take_free; rewrite <- !app_assoc; reflexivity|].
        exists R1, rg, R2, bs1, bs2. repeat split; assumption.
    + right. left.
      assert (Hw1 : wrap (r + usage a0) = r + usage a0) by zdiv.
      assert (Hw2 : wrap (size a0 - usage a0) = size a0 - usage a0) by zdiv.
      rewrite Hw1, Hw2 in Hsplit.
      rewrite (Hsplit Hnz) in H. injection H as <- <-.
      exists (flat R1 ++ bs1), r, a0, (bs2 ++ flat R2).
      split; [reflexivity|]. split; [exact Hnz|]. split; [lia|]. split; [exact Hreuse|].
      split; [reflexivity|]. split.
      { rewrite <- (flat_focus_block R1 R2 rg bs1 bs2 (r, a0) Hbs).
        intros Hx. apply in_map_iff in Hx as ([x bx] & Heq & Hx). simpl in Heq. subst x.
        destruct (wf_address hdr hdr_pos st _ _ bx Hw Hx) as (_ & _ & _ & _ & Hsx & _).
        destruct (wf_blocks_disjoint st _ r (r + usage a0) a0 bx Hw Hin Hx ltac:(lia)); lia. }
      split; [reflexivity|].
      exists (R1 ++ with_blocks
                      (bs1 ++ (r, set_next (r + usage a0) (set_size (usage a0) a0))
                           :: (r + usage a0,
                               MemBlock (g_allocations st) EmptyString
                                 (size a0 - usage a0) need
                                 (region_start a0) (region_size a0) (next a0)) :: bs2)
                      rg :: R2).
      split.
      * apply wf_scribbled.
        apply (wf_split hdr hdr_pos st _ R1 R2 rg bs1 bs2 r (g_allocations st) need a0 Hw Hbs);
          [exact Hnz|lia|lia|reflexivity|reflexivity].
      * split; [rewrite flat_focus; unfold carve; rewrite <- !app_assoc; reflexivity|].
        exists R1, rg, R2, bs1, bs2. repeat split; assumption.
Qed.

Lemma same_block_refl (b : mem_block) : same_block b b.
Proof. repeat split. Qed.

Lemma relink_last_in (q : Z) (l : list (Z * mem_block)) (a : Z) (b : mem_block) :
  In (a, b) l -> exists b', In (a, b') (relink_last q l) /\ same_block b b'.
Proof.
  induction l as [|ab l IH]; intros Hin; [destruct Hin|].
  destruct l as [|ab' l].
  - destruct Hin as [->|[]]. exists (set_next q b). split; [left; reflexivity|].
    repeat split.
  - destruct Hin as [->|Hin].
    + exists b. split; [left; reflexivity|apply same_block_refl].
    + destruct (IH Hin) as (b' & Hb' & Hs). exists b'. split; [right; exact Hb'|exact Hs].
Qed.

Lemma scribbled_heap (e : env) (p len : Z) (st : state) :
  heap (scribbled e p len st) = heap st /\ g_head (scribbled e p len st) = g_head st
  /\ g_allocations (scribbled e p len st) = g_allocations st.
Proof. unfold scribbled. destruct (scribble_on e); repeat split. Qed.

Lemma malloc_effect (fuel : nat) (e : env) (sz p : Z) (st st' : state)
    (l : list (Z * mem_block)) :
  inv hdr st -> env_ok st e -> size_ok hdr sz ->
  chain (heap st) (g_head st) l ->
  malloc_unsafe hdr fuel e sz st = Ok (p, st') ->
  let need := align8 sz + hdr in
  exists l' st0,
    chain (heap st') (g_head st') l'
    /\ st' = scribbled e p (align8 sz) st0
    /\ ((exists l1 c a0 l2,
           l = l1 ++ (c, a0) :: l2 /\ usage a0 = 0 /\ need <= size a0
           /\ l' = take_free need l1 c a0 l2 /\ p = payload hdr c
           /\ g_allocations st0 = g_allocations st /\ trace st0 = trace st)
        \/ (exists l1 c a0 l2,
           l = l1 ++ (c, a0) :: l2 /\ usage a0 <> 0 /\ need <= size a0 - usage a0
           /\ ~ In (c + usage a0) (addrs l)
           /\ l' = carve (g_allocations st) need l1 c a0 l2
           /\ p = payload hdr (c + usage a0)
           /\ g_allocations st0 = wrap (g_allocations st + 1) /\ trace st0 = trace st)
        \/ (exists rr len,
           mmap_result e len = Some rr /\ need <= len < need + getpagesize e
           /\ rr <> NULL /\ ~ In rr (addrs l)
           /\ l' = append_region (g_allocations st) need len rr l
           /\ p = payload hdr rr
           /\ g_allocations st0 = wrap (g_allocations st + 1)
           /\ trace st0 = trace st ++ [EMmap len (Some rr)])).
Proof.
  intros (regs & Hw & _) Henv [Hsz0 Hsz1] Hc H need.
  assert (Hl : l = flat regs) by exact (chain_unique _ _ _ _ Hc (proj1 Hw)).
  subst l.
  apply (malloc_unsafe_monotone hdr e sz fuel (Nat.max fuel (length (flat regs))))
    in H; [|lia].
  destruct (malloc_unsafe_cases (Nat.max fuel (length (flat regs))) e sz p st st' regs
              Hw Henv Hsz0 Hsz1 ltac:(lia) H)
    as [(l1 & c & a0 & l2 & Heq & Hu & Hfit & _ & Hp & Hst' & regs' & Hw' & Hflat & _)
       |[(l1 & c & a0 & l2 & Heq & Hu & Hfit & _ & Hp & Hfresh & Hst' & regs' & Hw' & Hflat & _)
        |(rr & st1 & Hm & Hexp & Hrrn & Hfresh & Hge & Hp & Hst' & regs' & Hw' & Hflat & _)]];
    fold need in Hfit || fold need in Hge.
  - exists (flat regs'). eexists. split; [exact (proj1 Hw')|]. split; [exact Hst'|].
    left. exists l1, c, a0, l2. repeat split; assumption.
  - exists (flat regs'). eexists. split; [exact (proj1 Hw')|]. split; [exact Hst'|].
    right. left. exists l1, c, a0, l2. repeat split; assumption.
  - exists (flat regs'). eexists. split; [exact (proj1 Hw')|]. split; [exact Hst'|].
    right. right. exists rr, (map_length e need).
    destruct (need_bounds hdr hdr_pos sz Hsz0 Hsz1) as (_ & Hn1 & Hn2).
    pose proof (map_length_ge e need (proj1 Henv) ltac:(fold need in Hn1, Hn2; lia)) as Hlen.
    pose proof (expand_heap_inv _ _ _ _ _ _ Hexp) as Hinv. cbv zeta in Hinv.
    destruct Hinv as [(Hnone & _)|(_ & _ & Htr & Hid & _)];
      [rewrite Hm in Hnone; discriminate|].
    split; [exact Hm|]. split; [exact Hlen|]. split; [exact Hrrn|].
    split; [exact Hfresh|]. split; [exact Hflat|]. split; [exact Hp|].
    split; [exact Hid|exact Htr].
Qed.


Lemma inv_header (st : state) (l : list (Z * mem_block)) (a : Z) (b : mem_block) :
  inv hdr st -> chain (heap st) (g_head st) l -> In (a, b) l ->
  0 < a /\ a + size b <= half /\ hdr <= size b
  /\ (usage b = 0 \/ hdr <= usage b <= size b)
  /\ heap st !! a = Some b
  /\ header_of hdr (payload hdr a) = a /\ payload hdr a <> NULL.
Proof.
  intros (regs & Hw & _) Hc Hin.
  assert (Hl : l = flat regs) by exact (chain_unique _ _ _ _ Hc (proj1 Hw)).
  subst l.
  destruct (wf_address hdr hdr_pos st regs a b Hw Hin)
    as (_ & Hlook & Ha & Hend & Hsz & Hhp & Hpn).
  apply in_flat in Hin as (r & Hr & Hin).
  destruct (wf_elim hdr hdr_pos _ _ Hw) as (_ & _ & Hrw & _).
  rewrite List.Forall_forall in Hrw.
  destruct (region_inside hdr hdr_pos r (a, b) (Hrw r Hr) Hin) as (_ & _ & Hok).
  destruct Hok as (_ & _ & _ & Hu). auto 10.
Qed.

Lemma live_header (st : state) (l : list (Z * mem_block)) (p : Z) :
  chain (heap st) (g_head st) l -> live hdr st p ->
  exists a b, In (a, b) l /\ usage b <> 0 /\ p = payload hdr a.
Proof.
  intros Hc (l0 & a & b & Hc0 & Hin & Hu & Hp).
  rewrite (chain_unique _ _ _ _ Hc Hc0). exists a, b. auto.
Qed.

Lemma payload_same_header (st : state) (l : list (Z * mem_block))
    (a c : Z) (b : mem_block) :
  inv hdr st -> chain (heap st) (g_head st) l -> In (a, b) l ->
  0 <= c < two64 -> payload hdr a = payload hdr c -> a = c.
Proof.
  intros Hinv Hc Hin Hcb Heq.
  destruct (inv_header st l a b Hinv Hc Hin) as (_ & _ & _ & _ & _ & Hh & _).
  rewrite <- Hh, Heq. apply header_of_payload. exact Hcb.
Qed.

Lemma keeps_blocks_replace (l1 l2 new : list (Z * mem_block)) (a : Z) (b : mem_block) :
  (usage b <> 0 -> exists b', In (a, b') new /\ same_block b b') ->
  keeps_blocks (l1 ++ (a, b) :: l2) (l1 ++ new ++ l2).
Proof.
  intros Hb x bx Hin Hu. apply in_app_or in Hin as [Hin|[Heq|Hin]].
  - exists bx. split; [apply in_or_app; left; exact Hin|apply same_block_refl].
  - injection Heq as <- <-. destruct (Hb Hu) as (b' & Hb' & Hs).
    exists b'. split; [|exact Hs]. apply in_or_app. right. apply in_or_app. left. exact Hb'.
  - exists bx. split; [|apply same_block_refl].
    apply in_or_app. right. apply in_or_app. right. exact Hin.
Qed.

Lemma malloc_fresh (fuel : nat) (e : env) (sz p : Z) (st st' : state)
    (l : list (Z * mem_block)) :
  inv hdr st -> env_ok st e -> size_ok hdr sz ->
  chain (heap st) (g_head st) l ->
  malloc_unsafe hdr fuel e sz st = Ok (p, st') ->
  inv hdr st' /\ p <> NULL /\ ~ live hdr st p
  /\ exists l' c b,
       chain (heap st') (g_head st') l' /\ In (c, b) l' /\ p = payload hdr c
       /\ usage b = align8 sz + hdr /\ usage b <= size b
       /\ keeps_blocks l l'.
Proof.
  intros Hinv Henv Hsz Hc H.
  assert (Hinv' : inv hdr st').
  { exact (exec_inv hdr hdr_pos name_cap fuel e (CMalloc sz) st st' p Hinv Henv Hsz H). }
  destruct (need_bounds hdr hdr_pos sz (proj1 Hsz) (proj2 Hsz)) as (_ & Hn1 & Hn2).
  split; [exact Hinv'|].
  destruct (malloc_effect fuel e sz p st st' l Hinv Henv Hsz Hc H)
    as (l' & st0 & Hc' & _ & Hcase).
  assert (Hnotlive : forall c, 0 <= c < two64 -> p = payload hdr c ->
            (forall b, In (c, b) l -> usage b = 0) -> ~ live hdr st p).
  { intros c Hcb Hp Hfree Hlive.
    destruct (live_header st l p Hc Hlive) as (a & b & Hin & Hu & Hpa).
    assert (a = c).
    { apply (payload_same_header st l a c b Hinv Hc Hin Hcb). congruence. }
    subst a. exact (Hu (Hfree b Hin)). }
  destruct Hcase as [(l1 & c & a0 & l2 & -> & Hu & Hfit & -> & -> & _)
                    |[(l1 & c & a0 & l2 & -> & Hu & Hfit & Hfresh & -> & -> & _)
                     |(rr & len & _ & Hlen & _ & Hfresh & -> & -> & _)]].
  - assert (Hin' : In (c, set_usage (align8 sz + hdr) a0)
                      (take_free (align8 sz + hdr) l1 c a0 l2)) by apply in_elt.
    destruct (inv_header st' _ _ _ Hinv' Hc' Hin') as (Hpos & Hend & Hs & _ & _ & _ & Hpn).
    simpl in Hend.
    split; [exact Hpn|]. split.
    + apply (Hnotlive c); [unfold two64, half in *; lia|reflexivity|].
      intros b Hin.
      destruct (inv_header st _ _ _ Hinv Hc Hin) as (_ & _ & _ & _ & Hl1 & _).
      destruct (inv_header st _ c a0 Hinv Hc ltac:(apply in_elt))
        as (_ & _ & _ & _ & Hl2 & _).
      rewrite Hl1 in Hl2. injection Hl2 as ->. exact Hu.
    + eexists _, c, _. split; [exact Hc'|]. split; [exact Hin'|]. split; [reflexivity|].
      split; [reflexivity|]. split; [simpl; lia|].
      apply (keeps_blocks_replace l1 l2 [(c, set_usage (align8 sz + hdr) a0)]).
      intros Hx. contradiction.
  - set (new := c + usage a0) in *.
    set (nb := MemBlock (g_allocations st) EmptyString (size a0 - usage a0)
                 (align8 sz + hdr) (region_start a0) (region_size a0) (next a0)).
    assert (Hin' : In (new, nb) (carve (g_allocations st) (align8 sz + hdr) l1 c a0 l2)).
    { unfold carve. apply in_or_app. right. right. left. reflexivity. }
    destruct (inv_header st' _ _ _ Hinv' Hc' Hin') as (Hpos & Hend & Hs & _ & _ & _ & Hpn).
    simpl in Hend.
    split; [exact Hpn|]. split.
    + apply (Hnotlive new); [unfold two64, half in *; lia|reflexivity|].
      intros b Hin. exfalso. apply Hfresh.
      apply in_map_iff. exists (new, b). split; [reflexivity|exact Hin].
    + eexists _, new, nb. split; [exact Hc'|]. split; [exact Hin'|].
      split; [reflexivity|]. split; [reflexivity|]. split; [simpl; lia|].
      apply (keeps_blocks_replace l1 l2
               [(c, set_next new (set_size (usage a0) a0)); (new, nb)]).
      intros _. eexists. split; [left; reflexivity|]. repeat split.
  - set (nb := MemBlock (g_allocations st) EmptyString len (align8 sz + hdr) rr len NULL).
    assert (Hin' : In (rr, nb) (append_region (g_allocations st) (align8 sz + hdr) len rr l)).
    { unfold append_region. apply in_or_app. right. left. reflexivity. }
    destruct (inv_header st' _ _ _ Hinv' Hc' Hin') as (Hpos & Hend & Hs & _ & _ & _ & Hpn).
    simpl in Hend.
    split; [exact Hpn|]. split.
    + apply (Hnotlive rr); [unfold two64, half in *; lia|reflexivity|].
      intros b Hin. exfalso. apply Hfresh.
      apply in_map_iff. exists (rr, b). split; [reflexivity|exact Hin].
    + eexists _, rr, nb. split; [exact Hc'|]. split; [exact Hin'|].
      split; [reflexivity|]. split; [reflexivity|]. split; [simpl; lia|].
      intros a b Hin Hub. destruct (relink_last_in rr l a b Hin) as (b' & Hb' & Hsame).
      exists b'. split; [|exact Hsame]. unfold append_region. apply in_or_app. left. exact Hb'.
Qed.


(** *** What a release leaves of the list *)

Lemma keeps_blocks_refl (l : list (Z * mem_block)) : keeps_blocks l l.
Proof. intros a b Hin _. exists b. split; [exact Hin|apply same_block_refl]. Qed.

Lemma keeps_blocks_app (l1 l1' l2 l2' : list (Z * mem_block)) :
  keeps_blocks l1 l1' -> keeps_blocks l2 l2' -> keeps_blocks (l1 ++ l2) (l1' ++ l2').
Proof.
  intros H1 H2 a b Hin Hu. apply in_app_or in Hin as [Hin|Hin].
  - destruct (H1 a b Hin Hu) as (b' & Hb' & Hs). exists b'.
    split; [apply in_or_app; left; exact Hb'|exact Hs].
  - destruct (H2 a b Hin Hu) as (b' & Hb' & Hs). exists b'.
    split; [apply in_or_app; right; exact Hb'|exact Hs].
Qed.

Lemma keeps_blocks_free (l l' : list (Z * mem_block)) : all_free l -> keeps_blocks l l'.
Proof.
  intros Hall a b Hin Hu. unfold all_free in Hall. rewrite List.Forall_forall in Hall.
  exfalso. exact (Hu (Hall (a, b) Hin)).
Qed.

Lemma keeps_blocks_relink (l0 : list (Z * mem_block)) (t q : Z) (bt : mem_block) :
  keeps_blocks (l0 ++ [(t, bt)]) (l0 ++ [(t, set_next q bt)])
  /\ keeps_blocks (l0 ++ [(t, set_next q bt)]) (l0 ++ [(t, bt)]).
Proof.
  split; (apply keeps_blocks_app; [apply keeps_blocks_refl|]);
    intros a b [Heq|[]] _; injection Heq as <- <-; eexists;
    (split; [left; reflexivity|repeat split]).
Qed.

Lemma wf_entry_unique (st : state) (regs : list region) (x : Z) (b1 b2 : mem_block) :
  wf hdr st regs -> In (x, b1) (flat regs) -> In (x, b2) (flat regs) -> b1 = b2.
Proof.
  intros Hw H1 H2.
  destruct (wf_address hdr hdr_pos st regs x b1 Hw H1) as (_ & Hl1 & _).
  destruct (wf_address hdr hdr_pos st regs x b2 Hw H2) as (_ & Hl2 & _).
  congruence.
Qed.

Lemma free_effect (fuel : nat) (e : env) (st : state) (regs : list region)
    (a : Z) (b : mem_block) :
  wf hdr st regs -> In (a, b) (flat regs) -> (length (flat regs) <= fuel)%nat ->
  exists st' regs' l0,
    free_unsafe hdr fuel e (payload hdr a) st = Ok (tt, st')
    /\ wf hdr st' regs'
    /\ (forall x bx, In (x, bx) (flat regs) -> x <> a -> In (x, bx) l0)
    /\ (forall x bx, In (x, bx) l0 -> usage bx <> 0 -> x <> a /\ In (x, bx) (flat regs))
    /\ keeps_blocks l0 (flat regs') /\ keeps_blocks (flat regs') l0.
Proof.
  intros Hw Hin Hf.
  destruct (in_flat_split regs a b Hin) as (R1 & r & R2 & bs1 & bs2 & -> & Hr).
  destruct (free_unsafe_run hdr hdr_pos fuel e st R1 R2 r bs1 bs2 a b Hw Hr Hf)
    as (_ & Hw1 & Hbusy & Hfree).
  set (released := bs1 ++ (a, set_usage 0 b) :: bs2) in *.
  set (l0 := flat R1 ++ released ++ flat R2).
  assert (Hl0 : flat (R1 ++ with_blocks released r :: R2) = l0) by apply flat_focus.
  assert (Hflat : flat (R1 ++ r :: R2) = flat R1 ++ (bs1 ++ (a, b) :: bs2) ++ flat R2).
  { rewrite flat_app. simpl. rewrite Hr, <- app_assoc. reflexivity. }
  assert (Hfwd : forall x bx, In (x, bx) (flat (R1 ++ r :: R2)) -> x <> a -> In (x, bx) l0).
  { intros x bx Hx Hne. rewrite Hflat in Hx. unfold l0, released.
    rewrite !in_app_iff in *. simpl in *.
    destruct Hx as [Hx|[[Hx|[Hx|Hx]]|Hx]]; auto 6.
    injection Hx as -> _. contradiction. }
  assert (Hbwd : forall x bx, In (x, bx) l0 -> usage bx <> 0 ->
                   x <> a /\ In (x, bx) (flat (R1 ++ r :: R2))).
  { intros x bx Hx Hu.
    assert (Hne : x <> a).
    { intros ->. rewrite <- Hl0 in Hx.
      assert (Ha0 : In (a, set_usage 0 b) (flat (R1 ++ with_blocks released r :: R2))).
      { rewrite Hl0. unfold l0, released. rewrite !in_app_iff. simpl. auto 6. }
      rewrite (wf_entry_unique _ _ a bx _ Hw1 Hx Ha0) in Hu. simpl in Hu. congruence. }
    split; [exact Hne|]. rewrite Hflat. unfold l0, released in Hx.
    rewrite !in_app_iff in *. simpl in *.
    destruct Hx as [Hx|[[Hx|[Hx|Hx]]|Hx]]; auto 6.
    injection Hx as -> _. contradiction. }
  destruct (List.Forall_Exists_dec (fun ab : Z * mem_block => usage (snd ab) = 0)
              (fun ab => Z.eq_dec (usage (snd ab)) 0) released) as [Hall|Hex].
  - destruct (Hfree Hall) as [Hnil Hcons].
    destruct R1 as [|r1 R1'].
    + destruct (Hnil eq_refl) as (_ & Hrun & Hwf).
      eexists. exists R2, l0. split; [exact Hrun|]. split; [exact Hwf|].
      split; [exact Hfwd|]. split; [exact Hbwd|]. unfold l0. simpl. split.
      * apply (keeps_blocks_app released [] (flat R2) (flat R2));
          [apply keeps_blocks_free; exact Hall|apply keeps_blocks_refl].
      * intros x bx Hx _. exists bx. split; [apply in_or_app; right; exact Hx|].
        apply same_block_refl.
    + destruct (wf_elim hdr hdr_pos _ _ Hw) as (_ & _ & Hrw & _ & _).
      apply Forall_mid in Hrw as [Hrw12 _]. apply Forall_app in Hrw12 as [Hrw1 _].
      destruct (regions_last hdr (r1 :: R1') ltac:(discriminate) Hrw1)
        as (R0 & rp & bsp & x0 & bx0 & HR1 & Hrp).
      destruct (Hcons R0 rp bsp x0 bx0 HR1 Hrp) as (_ & _ & Hrun & Hwf).
      eexists. eexists. exists l0. split; [exact Hrun|]. split; [exact Hwf|].
      split; [exact Hfwd|]. split; [exact Hbwd|].
      rewrite flat_focus. unfold l0. rewrite HR1, flat_app. simpl.
      rewrite Hrp, app_nil_r.
      set (q := first_addr (flat R2)).
      destruct (keeps_blocks_relink (flat R0 ++ bsp) x0 q bx0) as [Hk1 Hk2].
      rewrite <- !app_assoc in Hk1, Hk2. rewrite <- !app_assoc. split.
      * rewrite !app_assoc. rewrite <- (app_assoc _ released (flat R2)).
        apply keeps_blocks_app.
        -- rewrite <- !app_assoc. exact Hk1.
        -- apply (keeps_blocks_app released [] (flat R2) (flat R2));
             [apply keeps_blocks_free; exact Hall|apply keeps_blocks_refl].
      * rewrite !app_assoc. rewrite <- (app_assoc _ released (flat R2)).
        apply keeps_blocks_app.
        -- rewrite <- !app_assoc. exact Hk2.
        -- intros x bx Hx _. exists bx. split; [apply in_or_app; right; exact Hx|].
           apply same_block_refl.
  - assert (Hnot : ~ all_free released).
    { intros Hall. apply List.Exists_exists in Hex as (ab & Hab & Hne).
      unfold all_free in Hall. rewrite List.Forall_forall in Hall. exact (Hne (Hall ab Hab)). }
    eexists. eexists. exists l0. split; [exact (Hbusy Hnot)|]. split; [exact Hw1|].
    split; [exact Hfwd|]. split; [exact Hbwd|].
    rewrite Hl0. split; apply keeps_blocks_refl.
Qed.

Lemma same_block_sym (b b' : mem_block) : same_block b b' -> same_block b' b.
Proof. intros (H1 & H2 & H3 & H4 & H5). repeat split; congruence. Qed.

Lemma free_release (fuel : nat) (e : env) (p : Z) (st : state)
    (l : list (Z * mem_block)) :
  inv hdr st -> live hdr st p ->
  chain (heap st) (g_head st) l -> (length l <= fuel)%nat ->
  exists st' l',
    free hdr fuel e p st = Ok (tt, st')
    /\ chain (heap st') (g_head st') l'
    /\ ~ live hdr st' p
    /\ (forall a b, In (a, b) l -> usage b <> 0 -> payload hdr a <> p ->
          exists b', In (a, b') l' /\ same_block b b')
    /\ (forall a b', In (a, b') l' -> usage b' <> 0 ->
          payload hdr a <> p
          /\ exists b, In (a, b) l /\ usage b <> 0 /\ same_block b b').
Proof.
  intros Hinv Hlive Hc Hf. pose proof Hinv as (regs & Hw & _).
  assert (Hl : l = flat regs) by exact (chain_unique _ _ _ _ Hc (proj1 Hw)).
  subst l. destruct (live_header st _ p Hc Hlive) as (a & b & Hin & Hu & ->).
  destruct (free_effect fuel e st regs a b Hw Hin Hf)
    as (st' & regs' & l0 & Hrun & Hw' & Hfwd & Hbwd & Hk1 & Hk2).
  destruct (inv_header st _ a b Hinv Hc Hin) as (Ha & Hend & Hsz & _ & _ & _ & Hpn).
  assert (Hback : forall x bx', In (x, bx') (flat regs') -> usage bx' <> 0 ->
            payload hdr x <> payload hdr a
            /\ exists bx, In (x, bx) (flat regs) /\ usage bx <> 0 /\ same_block bx bx').
  { intros x bx' Hx Hux.
    destruct (Hk2 x bx' Hx Hux) as (bx & Hbx & Hs).
    assert (Hubx : usage bx <> 0) by (destruct Hs as (-> & _); exact Hux).
    destruct (Hbwd x bx Hbx Hubx) as [Hne Hxin].
    split.
    - intros Heq. apply Hne.
      apply (payload_same_header st _ x a bx Hinv Hc Hxin);
        [unfold two64, half in *; lia|exact Heq].
    - exists bx. split; [exact Hxin|]. split; [exact Hubx|apply same_block_sym; exact Hs]. }
  exists st', (flat regs'). split.
  { unfold free. destruct (payload hdr a =? NULL) eqn:E;
      [apply Z.eqb_eq in E; contradiction|exact Hrun]. }
  split; [exact (proj1 Hw')|]. split.
  { intros Hl'. destruct (live_header st' _ _ (proj1 Hw') Hl') as (a' & b' & Hin' & Hu' & Hp).
    destruct (Hback a' b' Hin' Hu') as [Hne _]. congruence. }
  split; [|exact Hback].
  intros x bx Hx Hux Hne. apply Hk1; [|exact Hux].
  apply Hfwd; [exact Hx|]. intros ->. contradiction.
Qed.

(** X10: a release never disturbs another allocation and never
    crashes on a live pointer.  In a state a client can reach, [free]
    of a live pointer returns once the fuel covers the list; afterwards
    the pointer is no longer live, every other block that was in use is
    still in the list at its address with the same extent, allocation
    id, name and region, and no block is in use that was not in use
    before. *)
Theorem free_releases_only_its_block (fuel : nat) (e : env) (p : Z) (st : state)
    (l : list (Z * mem_block)) :
  reachable hdr name_cap st -> live hdr st p ->
  chain (heap st) (g_head st) l -> (length l <= fuel)%nat ->
  exists st' l',
    free hdr fuel e p st = Ok (tt, st')
    /\ chain (heap st') (g_head st') l'
    /\ ~ live hdr st' p
    /\ (forall a b, In (a, b) l -> usage b <> 0 -> payload hdr a <> p ->
          exists b', In (a, b') l' /\ same_block b b')
    /\ (forall a b', In (a, b') l' -> usage b' <> 0 ->
          payload hdr a <> p
          /\ exists b, In (a, b) l /\ usage b <> 0 /\ same_block b b').
Proof.
  intros Hreach. exact (free_release fuel e p st l (reachable_inv st Hreach)).
Qed.

Lemma set_usage_same (b : mem_block) : usage b = 0 -> set_usage 0 b = b.
Proof. destruct b. simpl. intros ->. reflexivity. Qed.

Lemma with_heap_same (st : state) (a : Z) (b : mem_block) :
  heap st !! a = Some b -> with_heap (<[a := b]> (heap st)) st = st.
Proof.
  intros H. destruct st as [h g hp tr]. unfold with_heap. simpl in *.
  rewrite insert_id by exact H. reflexivity.
Qed.

Lemma free_idle (fuel : nat) (e : env) (st : state) (l : list (Z * mem_block))
    (a : Z) (b : mem_block) :
  inv hdr st -> chain (heap st) (g_head st) l -> (length l <= fuel)%nat ->
  In (a, b) l -> usage b = 0 ->
  free hdr fuel e (payload hdr a) st = Ok (tt, st).
Proof.
  intros Hinv Hc Hf Hin Hu. pose proof Hinv as (regs & Hw & Hlive).
  assert (Hl : l = flat regs) by exact (chain_unique _ _ _ _ Hc (proj1 Hw)).
  subst l.
  destruct (inv_header st _ a b Hinv Hc Hin) as (_ & _ & _ & _ & Hlook & _ & Hpn).
  destruct (in_flat_split regs a b Hin) as (R1 & r & R2 & bs1 & bs2 & -> & Hr).
  destruct (free_unsafe_run hdr hdr_pos fuel e st R1 R2 r bs1 bs2 a b Hw Hr Hf)
    as (_ & _ & Hbusy & _).
  unfold free. destruct (payload hdr a =? NULL) eqn:E;
    [apply Z.eqb_eq in E; contradiction|].
  rewrite Hbusy.
  - rewrite (set_usage_same b Hu), (with_heap_same st a b Hlook). reflexivity.
  - rewrite (set_usage_same b Hu). intros Hall.
    apply Forall_mid in Hlive as [_ Hr_live]. unfold has_live in Hr_live.
    rewrite Hr in Hr_live. apply List.Exists_exists in Hr_live as (ab & Hab & Hne).
    unfold all_free in Hall. rewrite List.Forall_forall in Hall. exact (Hne (Hall ab Hab)).
Qed.

(** X11: releasing a block twice does nothing the second time.  In a
    state a client can reach, [free] of the payload of a header of the
    list that is already free returns and leaves the whole state as it
    was: the region is not unmapped, because a region in the list
    always holds a block in use. *)
Theorem double_free_is_idle (fuel : nat) (e : env) (st : state)
    (l : list (Z * mem_block)) (a : Z) (b : mem_block) :
  reachable hdr name_cap st ->
  chain (heap st) (g_head st) l -> (length l <= fuel)%nat ->
  In (a, b) l -> usage b = 0 ->
  free hdr fuel e (payload hdr a) st = Ok (tt, st).
Proof.
  intros Hreach. exact (free_idle fuel e st l a b (reachable_inv st Hreach)).
Qed.

(** *** An allocation and its release *)







(** *** Legal calls return *)




(** *** Alignment *)














(** *** Reallocation *)


Lemma live_intro (st : state) (l : list (Z * mem_block)) (a : Z) (b : mem_block) :
  chain (heap st) (g_head st) l -> In (a, b) l -> usage b <> 0 ->
  live hdr st (payload hdr a).
Proof. intros Hc Hin Hu. exists l, a, b. auto. Qed.




(** *** The three policies side by side *)

Lemma best_is_least (need : Z) (l : list (Z * mem_block)) (r a : Z) (b : mem_block) :
  picks_best need l r -> In (a, b) l -> candidate need b ->
  exists br, In (r, br) l /\ candidate need br /\ tail_slack br <= tail_slack b.
Proof.
  intros [(_ & Hnone)|(l1 & br & l2 & -> & Hc & H1 & H2)] Hin Hcand.
  - rewrite List.Forall_forall in Hnone. exfalso. exact (Hnone (a, b) Hin Hcand).
  - exists br. split; [apply in_elt|]. split; [exact Hc|].
    rewrite List.Forall_forall in H1, H2.
    apply in_app_or in Hin as [Hin|[Heq|Hin]].
    + pose proof (H1 (a, b) Hin Hcand). simpl in *. lia.
    + injection Heq as _ ->. lia.
    + exact (H2 (a, b) Hin Hcand).
Qed.

Lemma worst_is_most (need : Z) (l : list (Z * mem_block)) (r a : Z) (b : mem_block) :
  picks_worst need l r -> In (a, b) l -> candidate need b ->
  exists br, In (r, br) l /\ candidate need br /\ tail_slack b <= tail_slack br.
Proof.
  intros [(_ & Hnone)|(l1 & br & l2 & -> & Hc & H1 & H2)] Hin Hcand.
  - rewrite List.Forall_forall in Hnone. exfalso. exact (Hnone (a, b) Hin Hcand).
  - exists br. split; [apply in_elt|]. split; [exact Hc|].
    rewrite List.Forall_forall in H1, H2.
    apply in_app_or in Hin as [Hin|[Heq|Hin]].
    + pose proof (H1 (a, b) Hin Hcand). simpl in *. lia.
    + injection Heq as _ ->. lia.
    + exact (H2 (a, b) Hin Hcand).
Qed.

Lemma no_candidate_null (need : Z) (l : list (Z * mem_block)) (r : Z) :
  Forall (fun ab => ~ candidate need (snd ab)) l ->
  picks_best need l r \/ picks_worst need l r -> r = NULL.
Proof.
  intros Hnone [[(-> & _)|(l1 & br & l2 & -> & Hc & _)]|[(-> & _)|(l1 & br & l2 & -> & Hc & _)]];
    try reflexivity;
    rewrite List.Forall_forall in Hnone; exfalso;
    exact (Hnone (r, br) ltac:(apply in_elt) Hc).
Qed.

(** X16: the three policies succeed on the same requests, and their
    choices are ordered by slack.  On a null-terminated list within
    the bounds of [size_t], the three searches return, leave the state
    as it is, and either all return null (no header has room for the
    request) or all return a header of the list with room for it, the
    choice of best-fit having at most the slack of the choice of
    first-fit, and that at most the slack of the choice of worst-fit. *)
Theorem policies_side_by_side (fuel : nat) (need : Z) (st : state)
    (l : list (Z * mem_block)) :
  chain (heap st) (g_head st) l -> (length l <= fuel)%nat -> 0 <= need ->
  Forall (in_bounds need) l ->
  exists r1 r2 r3,
    first_fit fuel need st = Ok (r1, st)
    /\ best_fit fuel need st = Ok (r2, st)
    /\ worst_fit fuel need st = Ok (r3, st)
    /\ ((r1 = NULL /\ r2 = NULL /\ r3 = NULL
         /\ Forall (fun ab => ~ candidate need (snd ab)) l)
        \/ exists b1 b2 b3,
             In (r1, b1) l /\ In (r2, b2) l /\ In (r3, b3) l
             /\ need <= tail_slack b2
             /\ tail_slack b2 <= tail_slack b1
             /\ tail_slack b1 <= tail_slack b3).
Proof.
  intros Hc Hf Hn Hb.
  destruct (first_fit_run fuel need st l Hc Hf Hn Hb) as (r1 & Hrun1 & Hp1).
  destruct (best_fit_run fuel need st l Hc Hf Hn Hb) as (r2 & Hrun2 & Hp2).
  destruct (worst_fit_run fuel need st l Hc Hf Hn Hb) as (r3 & Hrun3 & Hp3).
  exists r1, r2, r3. split; [exact Hrun1|]. split; [exact Hrun2|]. split; [exact Hrun3|].
  destruct Hp1 as [(-> & Hnone)|(l1 & b1 & l2 & Heq & Hc1 & _)].
  - left. split; [reflexivity|].
    split; [exact (no_candidate_null need l r2 Hnone (or_introl Hp2))|].
    split; [exact (no_candidate_null need l r3 Hnone (or_intror Hp3))|exact Hnone].
  - right. assert (Hin1 : In (r1, b1) l) by (rewrite Heq; apply in_elt).
    destruct (best_is_least need l r2 r1 b1 Hp2 Hin1 Hc1) as (b2 & Hin2 & Hc2 & Hle2).
    destruct (worst_is_most need l r3 r1 b1 Hp3 Hin1 Hc1) as (b3 & Hin3 & _ & Hle3).
    exists b1, b2, b3. unfold candidate in Hc2. auto 8.
Qed.

(** *** The order of the list *)

Lemma flat_neighbours (regs : list region) (x y : Z * mem_block) :
  Forall (fun r => r_blocks r <> []) regs ->
  forall l1 l2 : list (Z * mem_block),
    flat regs = l1 ++ x :: y :: l2 ->
    (exists r c1 c2, In r regs /\ r_blocks r = c1 ++ x :: y :: c2)
    \/ (exists R1 r r' R2 c1 c2,
          regs = R1 ++ r :: r' :: R2
          /\ r_blocks r = c1 ++ [x] /\ r_blocks r' = y :: c2).
Proof.
  induction regs as [|r rs IH]; intros Hne l1 l2 Heq.
  - destruct l1; discriminate.
  - inversion Hne as [|? ? Hr Hrs]; subst. simpl in Heq.
    apply app_eq_app in Heq as [k [[H1 H2]|[H1 H2]]].
    + (* the split point is inside the blocks of [r] or at their end *)
      destruct k as [|x' k].
      * rewrite app_nil_r in H1. simpl in H2.
        destruct (IH Hrs [] l2 (eq_sym H2)) as [(r0 & c1 & c2 & Hin & Hb)
                                   |(R1 & r1 & r2 & R2 & c1 & c2 & -> & Hb1 & Hb2)].
        -- left. exists r0, c1, c2. split; [right; exact Hin|exact Hb].
        -- right. exists (r :: R1), r1, r2, R2, c1, c2. auto.
      * injection H2 as <- H2. destruct k as [|y' k].
        -- simpl in H2. destruct rs as [|r' rs']; [discriminate|].
           inversion Hrs as [|? ? Hr' _]; subst. simpl in H2.
           destruct (r_blocks r') as [|y0 c2] eqn:Eb; [contradiction|].
           injection H2 as <- _.
           right. exists [], r, r', rs', l1, c2. auto.
        -- injection H2 as <- H2.
           left. exists r, l1, k. split; [left; reflexivity|exact H1].
    + (* the split point is past the blocks of [r] *)
      destruct (IH Hrs k l2 H2) as [(r0 & c1 & c2 & Hin & Hb)
                                   |(R1 & r1 & r2 & R2 & c1 & c2 & -> & Hb1 & Hb2)].
      * left. exists r0, c1, c2. split; [right; exact Hin|exact Hb].
      * right. exists (r :: R1), r1, r2, R2, c1, c2. auto.
Qed.

Lemma wf_nonempty (regs : list region) :
  Forall (region_wf hdr) regs -> Forall (fun r => r_blocks r <> []) regs.
Proof.
  intros H. eapply Forall_impl; [exact H|]. intros r Hr.
  destruct (region_first hdr r Hr) as (b & bs & ->). discriminate.
Qed.

Lemma wf_neighbours (st : state) (regs : list region) (l1 l2 : list (Z * mem_block))
    (a a' : Z) (b b' : mem_block) :
  wf hdr st regs -> flat regs = l1 ++ (a, b) :: (a', b') :: l2 ->
  (region_start b' = region_start b /\ a' = a + size b)
  \/ (region_start b' <> region_start b /\ a' = region_start b'
      /\ a + size b = region_start b + region_size b).
Proof.
  intros Hw Heq. destruct (wf_elim hdr hdr_pos _ _ Hw) as (_ & _ & Hrw & Ha & _).
  destruct (flat_neighbours regs _ _ (wf_nonempty regs Hrw) l1 l2 Heq)
    as [(r & c1 & c2 & Hin & Hb)|(R1 & r & r' & R2 & c1 & c2 & -> & Hb & Hb')].
  - left. rewrite List.Forall_forall in Hrw. pose proof (Hrw r Hin) as Hr.
    destruct Hr as (_ & _ & _ & Hlay & Hok). rewrite Hb in Hlay, Hok.
    apply laid_out_app in Hlay as (m & _ & Hlay). simpl in Hlay.
    destruct Hlay as (Hm & Hm' & _).
    apply Forall_app in Hok as [_ Hok]. inversion Hok as [|? ? Hx Hok']; subst.
    inversion Hok' as [|? ? Hy _]; subst.
    destruct Hx as (Hx & _). destruct Hy as (Hy & _). simpl in *.
    split; [congruence|lia].
  - right. apply Forall_app in Hrw as [_ Hrw]. inversion Hrw as [|? ? Hr Hrw']; subst.
    inversion Hrw' as [|? ? Hr' _]; subst.
    apply all_apart_app in Ha as (_ & Ha & _). simpl in Ha. destruct Ha as [Ha _].
    inversion Ha as [|? ? Hap _]; subst.
    pose proof (apart_starts r r' Hr Hr' Hap) as Hne.
    destruct Hr as (_ & _ & _ & Hlay & Hok). rewrite Hb in Hlay, Hok.
    apply laid_out_app in Hlay as (m & _ & Hlay). simpl in Hlay.
    destruct Hlay as (Hm & Hend).
    apply Forall_app in Hok as [_ Hok]. inversion Hok as [|? ? Hx _]; subst.
    destruct Hx as (Hx & Hxs & _).
    destruct Hr' as (_ & _ & _ & Hlay' & Hok'). rewrite Hb' in Hlay', Hok'.
    simpl in Hlay'. destruct Hlay' as (Hm' & _).
    inversion Hok' as [|? ? Hy _]; subst. destruct Hy as (Hy & _).
    unfold r_end in *. simpl in *.
    split; [congruence|]. split; [congruence|]. rewrite Hx, Hxs. lia.
Qed.

(** X17: the list goes region by region, and inside a region in
    address order without gaps.  In a state a client can reach, two
    neighbours of the list either belong to the same region, the
    second header starting exactly where the block of the first ends,
    or the first ends its region exactly and the second is the start of
    another region. *)
Theorem reachable_list_order (st : state) (l l1 l2 : list (Z * mem_block))
    (a a' : Z) (b b' : mem_block) :
  reachable hdr name_cap st -> chain (heap st) (g_head st) l ->
  l = l1 ++ (a, b) :: (a', b') :: l2 ->
  (region_start b' = region_start b /\ a' = a + size b)
  \/ (region_start b' <> region_start b /\ a' = region_start b'
      /\ a + size b = region_start b + region_size b).
Proof.
  intros Hreach Hc Heq. destruct (reachable_inv st Hreach) as (regs & Hw & _).
  assert (Hl : l = flat regs) by exact (chain_unique _ _ _ _ Hc (proj1 Hw)).
  rewrite Hl in Heq. exact (wf_neighbours st regs l1 l2 a a' b b' Hw Heq).
Qed.

(** *** The dump *)

(** X18: [print_memory] only reads, and it lists every header once, in
    list order.  On a null-terminated list the dump returns once the
    fuel covers the list, leaves the state as it is, and consists of
    the banner line followed, for each header in list order, by its
    [[BLOCK]] line, preceded by a [[REGION]] line exactly when the
    header is the start of its region. *)
Theorem print_memory_lists_headers (fuel : nat) (st : state) (l : list (Z * mem_block)) :
  chain (heap st) (g_head st) l -> (length l <= fuel)%nat ->
  print_memory hdr fuel st
  = Ok (("-- Current Memory State --" ++ newline ++ dump_lines hdr l)%string, st).
Proof. exact (write_memory_lines hdr fuel st l). Qed.

(** *** Everything released *)

(** X19: the allocator keeps no region without a block in use.  In a
    state a client can reach in which no pointer is live, the list is
    empty: every region was unmapped when its last block was
    released. *)
Theorem all_released_no_region (st : state) :
  reachable hdr name_cap st -> (forall p, ~ live hdr st p) ->
  g_head st = NULL /\ chain (heap st) (g_head st) [].
Proof.
  intros Hreach Hnone. destruct (reachable_inv st Hreach) as (regs & Hw & Hlive).
  destruct regs as [|r rs].
  - pose proof (proj1 Hw) as Hc. simpl in Hc. split; [exact Hc|exact Hc].
  - exfalso. inversion Hlive as [|? ? Hr _]; subst.
    apply List.Exists_exists in Hr as ([a b] & Hin & Hu).
    apply (Hnone (payload hdr a)). exists (flat (r :: rs)), a, b.
    split; [exact (proj1 Hw)|]. split; [|auto].
    simpl. apply in_or_app. left. exact Hin.
Qed.

(** *** Requests next to the largest size *)

(** X20: a request within seven bytes of the largest [size_t] is
    served as a request of no bytes.  Rounding such a size up to a
    multiple of 8 wraps around to 0, so [malloc] behaves exactly as
    [malloc(0)]: where that returns, the block it returns has room for
    a header and nothing else. *)
Theorem malloc_near_size_max (fuel : nat) (e : env) (sz : Z) :
  two64 - 8 < sz < two64 ->
  align8 sz = 0
  /\ malloc hdr fuel e sz = malloc hdr fuel e 0
  /\ forall st p st',
       malloc hdr fuel e sz st = Ok (p, st') ->
       exists c b, p = payload hdr c /\ heap st' !! c = Some b /\ usage b = wrap hdr.
Proof.
  intros Hsz.
  assert (Ha : align8 sz = 0).
  { unfold align8. destruct (sz mod 8 =? 0) eqn:E.
    - apply Z.eqb_eq in E. exfalso. zdiv.
    - zdiv. }
  split; [exact Ha|].
  assert (Heq : malloc hdr fuel e sz = malloc hdr fuel e 0).
  { unfold malloc. rewrite <- (malloc_unsafe_aligned hdr fuel e sz), Ha. reflexivity. }
  split; [exact Heq|].
  intros st p st' H.
  destruct (malloc_unsafe_usage hdr fuel e sz p st st' H) as (c & b & Hp & Hb & Hu).
  exists c, b. split; [exact Hp|]. split; [exact Hb|]. rewrite Hu, Ha. reflexivity.
Qed.

(** *** An unrecognized policy *)



(** *** Zero-filled and named allocations *)

Lemma align8_ge (sz : Z) : 0 <= sz -> sz + 8 < two64 -> sz <= align8 sz.
Proof.
  intros H0 H1. unfold align8. destruct (sz mod 8 =? 0); [lia|]. zdiv.
Qed.

Lemma calloc_effect (fuel : nat) (e : env) (nmemb sz p : Z) (st st' : state)
    (l : list (Z * mem_block)) :
  inv hdr st -> env_ok st e -> legal hdr name_cap st (CCalloc nmemb sz) ->
  chain (heap st) (g_head st) l ->
  calloc hdr fuel e nmemb sz st = Ok (p, st') ->
  p <> NULL /\ ~ live hdr st p
  /\ (exists tr, trace st' = tr ++ [EMemset p 0 (wrap (nmemb * sz))])
  /\ exists l' c b,
       chain (heap st') (g_head st') l' /\ In (c, b) l' /\ p = payload hdr c
       /\ wrap (nmemb * sz) <= usage b - hdr /\ usage b <= size b
       /\ keeps_blocks l l'.
Proof.
  intros Hinv Henv (_ & _ & Hsz) Hc H. unfold calloc in H.
  apply bind_inv in H as (q & s1 & Hm & H).
  unfold bind, emit, ret in H. injection H as <- <-.
  destruct (malloc_fresh fuel e _ q st s1 l Hinv Henv Hsz Hc Hm)
    as (_ & Hn & Hfresh & l' & c & b & Hc' & Hin & Hp & Hu & Hfit & Hkeep).
  split; [exact Hn|]. split; [exact Hfresh|]. split; [eexists; reflexivity|].
  exists l', c, b. split; [exact Hc'|]. split; [exact Hin|]. split; [exact Hp|].
  split; [|split; [exact Hfit|exact Hkeep]].
  rewrite Hu. destruct Hsz as [H0 H1].
  pose proof (align8_ge (wrap (nmemb * sz)) H0 ltac:(unfold two64, half in *; lia)). lia.
Qed.

(** X22: the zero fill of [calloc] stays inside the block it
    allocated.  In a state a client can reach, a legal [calloc] that
    returns gives a pointer that was not in use, to a block of the new
    list; the last thing it does is the [memset] of
    [nmemb * size] (in [size_t]) zero bytes at that pointer, which is
    no more than the payload the block's extent covers; every block
    that was in use is kept. *)
Theorem calloc_fills_its_block (fuel : nat) (e : env) (nmemb sz p : Z) (st st' : state)
    (l : list (Z * mem_block)) :
  reachable hdr name_cap st -> env_ok st e -> legal hdr name_cap st (CCalloc nmemb sz) ->
  chain (heap st) (g_head st) l ->
  calloc hdr fuel e nmemb sz st = Ok (p, st') ->
  p <> NULL /\ ~ live hdr st p
  /\ (exists tr, trace st' = tr ++ [EMemset p 0 (wrap (nmemb * sz))])
  /\ exists l' c b,
       chain (heap st') (g_head st') l' /\ In (c, b) l' /\ p = payload hdr c
       /\ wrap (nmemb * sz) <= usage b - hdr /\ usage b <= size b
       /\ keeps_blocks l l'.
Proof.
  intros Hreach.
  exact (calloc_effect fuel e nmemb sz p st st' l (reachable_inv st Hreach)).
Qed.

Lemma chain_rename (st : state) (l : list (Z * mem_block)) (c : Z) (b : mem_block)
    (nm : string) :
  chain (heap st) (g_head st) l -> In (c, b) l ->
  exists l1 l2,
    l = l1 ++ (c, b) :: l2
    /\ chain (<[c := set_name nm b]> (heap st)) (g_head st) (l1 ++ (c, set_name nm b) :: l2).
Proof.
  intros Hc Hin. pose proof (chain_NoDup _ _ _ Hc) as Hnd.
  apply in_split in Hin as (l1 & l2 & ->). exists l1, l2. split; [reflexivity|].
  apply lseg_iff in Hc as [Hst Hl]. apply lseg_iff. split.
  - exact (stored_update _ _ _ _ _ _ Hst Hnd).
  - exact (linked_update l1 l2 c (g_head st) NULL b (set_name nm b) Hl eq_refl).
Qed.

Lemma malloc_name_effect (fuel : nat) (e : env) (sz p : Z) (nm : string) (st st' : state)
    (l : list (Z * mem_block)) :
  inv hdr st -> env_ok st e -> legal hdr name_cap st (CMallocName sz nm) ->
  chain (heap st) (g_head st) l ->
  malloc_name hdr fuel e sz nm st = Ok (p, st') ->
  p <> NULL /\ ~ live hdr st p
  /\ exists l' c b,
       chain (heap st') (g_head st') l' /\ In (c, b) l' /\ p = payload hdr c
       /\ name b = nm /\ usage b = align8 sz + hdr /\ usage b <= size b
       /\ keeps_blocks l l'.
Proof.
  intros Hinv Henv (Hsz & _) Hc H. unfold malloc_name, malloc_name_unsafe in H.
  apply bind_inv in H as (q & s1 & Hm & H).
  destruct (malloc_fresh fuel e sz q st s1 l Hinv Henv Hsz Hc Hm)
    as (Hinv1 & Hn & Hfresh & l' & c & b & Hc' & Hin & -> & Hu & Hfit & Hkeep).
  destruct (inv_header s1 l' c b Hinv1 Hc' Hin) as (Hpos & _ & _ & _ & Hlk & Hho & _).
  assert (Hcn : c <> NULL) by (unfold NULL; lia).
  rewrite Hho in H. rewrite (bind_ok _ _ _ _ _ (modify_ok _ _ _ _ Hcn Hlk)) in H.
  injection H as <- <-.
  split; [exact Hn|]. split; [exact Hfresh|].
  destruct (chain_rename s1 l' c b nm Hc' Hin) as (l1 & l2 & Heq & Hc2).
  exists (l1 ++ (c, set_name nm b) :: l2), c, (set_name nm b).
  split; [exact Hc2|]. split; [apply in_elt|]. split; [reflexivity|].
  split; [reflexivity|]. split; [exact Hu|]. split; [exact Hfit|].
  intros x bx Hx Hux. destruct (Hkeep x bx Hx Hux) as (bx' & Hx' & Hs).
  rewrite Heq in Hx'. apply in_app_or in Hx' as [Hx'|[Hx'|Hx']].
  - exists bx'. split; [apply in_or_app; left; exact Hx'|exact Hs].
  - injection Hx' as <- <-. exfalso.
    (* the named block was not in use before *)
    apply Hfresh. exact (live_intro st l c bx Hc Hx Hux).
  - exists bx'. split; [apply in_or_app; right; right; exact Hx'|exact Hs].
Qed.

(** X23: a named allocation names the block it returns and no other.
    In a state a client can reach, a legal [malloc_name] that returns
    gives a pointer that was not in use, to a block of the new list
    that carries the given name and whose extent is the aligned request
    plus a header; every block that was in use is still in the list
    with the same extent, allocation id, name and region. *)
Theorem malloc_name_names_its_block (fuel : nat) (e : env) (sz p : Z) (nm : string)
    (st st' : state) (l : list (Z * mem_block)) :
  reachable hdr name_cap st -> env_ok st e -> legal hdr name_cap st (CMallocName sz nm) ->
  chain (heap st) (g_head st) l ->
  malloc_name hdr fuel e sz nm st = Ok (p, st') ->
  p <> NULL /\ ~ live hdr st p
  /\ exists l' c b,
       chain (heap st') (g_head st') l' /\ In (c, b) l' /\ p = payload hdr c
       /\ name b = nm /\ usage b = align8 sz + hdr /\ usage b <= size b
       /\ keeps_blocks l l'.
Proof.
  intros Hreach.
  exact (malloc_name_effect fuel e sz p nm st st' l (reachable_inv st Hreach)).
Qed.

End Safety.

(** ** Instances of the properties of reachable states *)

Lemma reachable_blocks_disjoint_witness :
  (reachable sizeof_mem_block 32 two_blocks
   /\ chain (heap two_blocks) (g_head two_blocks) [(4096, block_a); (4192, block_b)])
  /\ (4096 + size block_a <= 4192 \/ 4192 + size block_b <= 4096).
Proof.
  split; [exact (conj two_blocks_reachable two_blocks_chain)|].
  destruct (reachable_blocks_disjoint sizeof_mem_block header_size_positive 32 two_blocks
              [(4096, block_a); (4192, block_b)] two_blocks_reachable two_blocks_chain)
    as (_ & _ & Hd).
  apply (Hd 4096 block_a 4192 block_b); [left; reflexivity|right; left; reflexivity|lia].
Defined.

Lemma reachable_regions_tiled_witness :
  (reachable sizeof_mem_block 32 two_blocks
   /\ chain (heap two_blocks) (g_head two_blocks) [(4096, block_a); (4192, block_b)]
   /\ In (4192, block_b) [(4096, block_a); (4192, block_b)])
  /\ total_size (region_headers 4096 [(4096, block_a); (4192, block_b)]) = 4096.
Proof.
  assert (Hin : In (4192, block_b) [(4096, block_a); (4192, block_b)])
    by (right; left; reflexivity).
  split; [exact (conj two_blocks_reachable (conj two_blocks_chain Hin))|].
  exact (proj1 (reachable_regions_tiled sizeof_mem_block header_size_positive 32 two_blocks
                  [(4096, block_a); (4192, block_b)] 4192 block_b
                  two_blocks_reachable two_blocks_chain Hin)).
Defined.

Lemma size_ok_16 : size_ok sizeof_mem_block 16.
Proof. unfold size_ok, sizeof_mem_block, half. lia. Qed.

Lemma two_blocks_live_first : live sizeof_mem_block two_blocks 4176.
Proof.
  exists [(4096, block_a); (4192, block_b)], 4096, block_a.
  split; [exact two_blocks_chain|]. split; [left; reflexivity|].
  split; [discriminate|reflexivity].
Qed.



Lemma free_releases_only_its_block_witness :
  (reachable sizeof_mem_block 32 two_blocks
   /\ live sizeof_mem_block two_blocks 4176
   /\ chain (heap two_blocks) (g_head two_blocks) [(4096, block_a); (4192, block_b)]
   /\ (length [(4096, block_a); (4192, block_b)] <= 8)%nat)
  /\ exists st' l',
       free sizeof_mem_block 8 env_no_memory 4176 two_blocks = Ok (tt, st')
       /\ chain (heap st') (g_head st') l'
       /\ ~ live sizeof_mem_block st' 4176.
Proof.
  assert (Hlen : (length [(4096, block_a); (4192, block_b)] <= 8)%nat) by (simpl; lia).
  split.
  { exact (conj two_blocks_reachable
             (conj two_blocks_live_first (conj two_blocks_chain Hlen))). }
  destruct (free_releases_only_its_block sizeof_mem_block header_size_positive 32 8
              env_no_memory 4176 two_blocks [(4096, block_a); (4192, block_b)]
              two_blocks_reachable two_blocks_live_first two_blocks_chain Hlen)
    as (st' & l' & Hrun & Hc & Hdead & _).
  exists st', l'. exact (conj Hrun (conj Hc Hdead)).
Defined.

Lemma double_free_is_idle_witness :
  (reachable sizeof_mem_block 32 first_released
   /\ chain (heap first_released) (g_head first_released)
        [(4096, set_usage 0 block_a); (4192, block_b)]
   /\ (length [(4096, set_usage 0 block_a); (4192, block_b)] <= 8)%nat
   /\ In (4096, set_usage 0 block_a) [(4096, set_usage 0 block_a); (4192, block_b)]
   /\ usage (set_usage 0 block_a) = 0)
  /\ free sizeof_mem_block 8 env_no_memory 4176 first_released = Ok (tt, first_released).
Proof.
  assert (Hlen : (length [(4096, set_usage 0 block_a); (4192, block_b)] <= 8)%nat)
    by (simpl; lia).
  assert (Hin : In (4096, set_usage 0 block_a)
                   [(4096, set_usage 0 block_a); (4192, block_b)]) by (left; reflexivity).
  assert (Hu : usage (set_usage 0 block_a) = 0) by reflexivity.
  split.
  { exact (conj first_released_reachable
             (conj first_released_chain (conj Hlen (conj Hin Hu)))). }
  exact (double_free_is_idle sizeof_mem_block header_size_positive 32 8 env_no_memory
           first_released _ 4096 (set_usage 0 block_a)
           first_released_reachable first_released_chain Hlen Hin Hu).
Defined.

Lemma initial_chain : chain (heap initial_state) (g_head initial_state) [].
Proof. reflexivity. Qed.







Lemma policies_side_by_side_witness :
  (chain (heap three_regions) (g_head three_regions) three_list
   /\ (length three_list <= 8)%nat
   /\ 0 <= 16
   /\ Forall (in_bounds 16) three_list)
  /\ exists r1 r2 r3,
       first_fit 8 16 three_regions = Ok (r1, three_regions)
       /\ best_fit 8 16 three_regions = Ok (r2, three_regions)
       /\ worst_fit 8 16 three_regions = Ok (r3, three_regions).
Proof.
  assert (H2 : (length three_list <= 8)%nat) by (simpl; lia).
  assert (H3 : 0 <= 16) by lia.
  assert (H4 : Forall (in_bounds 16) three_list).
  { repeat constructor; unfold two64; simpl; lia. }
  split; [exact (conj three_regions_chain (conj H2 (conj H3 H4)))|].
  destruct (policies_side_by_side 8 16 three_regions three_list three_regions_chain H2 H3 H4)
    as (r1 & r2 & r3 & Hf & Hb & Hw & _).
  exists r1, r2, r3. exact (conj Hf (conj Hb Hw)).
Defined.

Lemma reachable_list_order_witness :
  (reachable sizeof_mem_block 32 two_blocks
   /\ chain (heap two_blocks) (g_head two_blocks) [(4096, block_a); (4192, block_b)]
   /\ [(4096, block_a); (4192, block_b)] = [] ++ (4096, block_a) :: (4192, block_b) :: [])
  /\ region_start block_b = region_start block_a /\ 4192 = 4096 + size block_a.
Proof.
  assert (Heq : [(4096, block_a); (4192, block_b)]
                = [] ++ (4096, block_a) :: (4192, block_b) :: []) by reflexivity.
  split; [exact (conj two_blocks_reachable (conj two_blocks_chain Heq))|].
  destruct (reachable_list_order sizeof_mem_block header_size_positive 32 two_blocks
              _ [] [] 4096 4192 block_a block_b two_blocks_reachable two_blocks_chain Heq)
    as [H|(Hne & _)].
  - exact H.
  - exfalso. apply Hne. reflexivity.
Defined.

Lemma print_memory_lists_headers_witness :
  (chain (heap two_blocks) (g_head two_blocks) [(4096, block_a); (4192, block_b)]
   /\ (length [(4096, block_a); (4192, block_b)] <= 8)%nat)
  /\ print_memory sizeof_mem_block 8 two_blocks
     = Ok (("-- Current Memory State --" ++ newline
            ++ dump_lines sizeof_mem_block [(4096, block_a); (4192, block_b)])%string,
           two_blocks).
Proof.
  assert (Hlen : (length [(4096, block_a); (4192, block_b)] <= 8)%nat) by (simpl; lia).
  split; [exact (conj two_blocks_chain Hlen)|].
  exact (print_memory_lists_headers sizeof_mem_block 8 two_blocks _ two_blocks_chain Hlen).
Defined.

Lemma one_block_live : live sizeof_mem_block one_block 4176.
Proof.
  exists [(4096, block_whole)], 4096, block_whole.
  split; [exact one_block_chain|]. split; [left; reflexivity|].
  split; [discriminate|reflexivity].
Qed.

Lemma all_released_no_region_witness :
  let drained := State NULL 1 ∅ [EMmap 4096 (Some 4096); EMunmap 4096 4096 true] in
  (reachable sizeof_mem_block 32 drained
   /\ forall p, ~ live sizeof_mem_block drained p)
  /\ g_head drained = NULL.
Proof.
  intros drained.
  assert (H1 : reachable sizeof_mem_block 32 drained).
  { apply (reach_step _ _ one_block 8%nat env_no_memory (CFree 4176) NULL).
    - exact one_block_reachable.
    - apply no_memory_ok.
    - right. exact one_block_live.
    - vm_compute. reflexivity. }
  assert (H2 : forall p, ~ live sizeof_mem_block drained p).
  { intros p (l & a & b & Hc & Hin & _).
    destruct l as [|ab l]; [destruct Hin|].
    destruct Hc as (_ & Hn & Hl & _). simpl in Hl. rewrite lookup_empty in Hl. discriminate. }
  split; [exact (conj H1 H2)|].
  exact (proj1 (all_released_no_region sizeof_mem_block header_size_positive 32 drained H1 H2)).
Defined.

Lemma malloc_near_size_max_witness :
  two64 - 8 < two64 - 1 < two64 /\ align8 (two64 - 1) = 0.
Proof.
  assert (H : two64 - 8 < two64 - 1 < two64) by (unfold two64; lia).
  split; [exact H|].
  exact (proj1 (malloc_near_size_max sizeof_mem_block 8 env_no_memory (two64 - 1) H)).
Defined.


Lemma calloc_fills_its_block_witness :
  let filled :=
    State 4096 1 (<[4096 := block_whole]> ∅)
          [EMmap 4096 (Some 4096); EMemset 4176 0 16] in
  (reachable sizeof_mem_block 32 initial_state
   /\ env_ok initial_state (env_at 4096)
   /\ legal sizeof_mem_block 32 initial_state (CCalloc 2 8)
   /\ chain (heap initial_state) (g_head initial_state) []
   /\ calloc sizeof_mem_block 8 (env_at 4096) 2 8 initial_state = Ok (4176, filled))
  /\ 4176 <> NULL
  /\ exists tr, trace filled = tr ++ [EMemset 4176 0 (wrap (2 * 8))].
Proof.
  intros filled.
  assert (H3 : legal sizeof_mem_block 32 initial_state (CCalloc 2 8)).
  { unfold legal, size_ok. replace (wrap (2 * 8)) with 16 by (vm_compute; reflexivity).
    unfold sizeof_mem_block, half, two64. lia. }
  assert (H5 : calloc sizeof_mem_block 8 (env_at 4096) 2 8 initial_state = Ok (4176, filled))
    by (vm_compute; reflexivity).
  split.
  { exact (conj (reach_init sizeof_mem_block 32)
             (conj env_at_ok (conj H3 (conj initial_chain H5)))). }
  destruct (calloc_fills_its_block sizeof_mem_block header_size_positive 32 8 (env_at 4096)
              2 8 4176 initial_state filled [] (reach_init sizeof_mem_block 32) env_at_ok
              H3 initial_chain H5) as (Hn & _ & Htr & _).
  exact (conj Hn Htr).
Defined.

Lemma malloc_name_names_its_block_witness :
  let named :=
    State 4096 2
      (<[4096 := set_next 4192 (set_size 96 block_whole)]>
         (<[4192 := MemBlock 1 "x" 4000 96 4096 4096 NULL]> ∅))
      [EMmap 4096 (Some 4096)] in
  (reachable sizeof_mem_block 32 one_block
   /\ env_ok one_block env_no_memory
   /\ legal sizeof_mem_block 32 one_block (CMallocName 16 "x")
   /\ chain (heap one_block) (g_head one_block) [(4096, block_whole)]
   /\ malloc_name sizeof_mem_block 8 env_no_memory 16 "x" one_block = Ok (4272, named))
  /\ 4272 <> NULL /\ ~ live sizeof_mem_block one_block 4272.
Proof.
  intros named.
  assert (H3 : legal sizeof_mem_block 32 one_block (CMallocName 16 "x")).
  { split; [exact size_ok_16|]. simpl. lia. }
  assert (H5 : malloc_name sizeof_mem_block 8 env_no_memory 16 "x" one_block
               = Ok (4272, named)) by (vm_compute; reflexivity).
  split.
  { exact (conj one_block_reachable
             (conj (no_memory_ok one_block) (conj H3 (conj one_block_chain H5)))). }
  destruct (malloc_name_names_its_block sizeof_mem_block header_size_positive 32 8
              env_no_memory 16 4272 "x" one_block named _ one_block_reachable
              (no_memory_ok one_block) H3 one_block_chain H5) as (Hn & Hf & _).
  exact (conj Hn Hf).
Defined.
